(** * The query node's segment manager
    (internal/querynodev2/segments/manager.go)

    The manager keeps two Go maps from segment id to segment, one for growing
    and one for sealed segments.  Segments are heap objects: the maps hold
    pointers, and a segment's version, read lock and release flag are mutated
    in place.  The development below embeds

    - the segment contract the manager consumes (identity, immutable
      attributes, and a store for the mutable part),
    - the filter algebra with its two hints,
    - [rangeWithFilter] and the read, pin, update and removal operations
      built on it,

    and, from the message stream, the timestamp bounds that
    [InsertMsg.Unmarshal] computes, and then states and proves properties of
    these operations.  Metric
    counters, event logging and the reader-writer mutex of the manager are
    not part of the model: every operation runs to completion while holding
    the lock, so one operation is one step. *)

From stdpp Require Import base numbers list strings functions gmap.
From Stdlib Require Import ZArith Lia.

Local Open Scope Z_scope.

(** ** Enumerations *)

(** Modelled from the spec: [SegmentType] is an alias of a protobuf
    enumeration declared outside manager.go.  Only the zero value
    [SegmentStateNone] and the two values the manager dispatches on are
    named; every other enumerator is [SegmentStateOther]. *)
Inductive SegmentType :=
  | SegmentStateNone
  | SegmentTypeGrowing
  | SegmentTypeSealed
  | SegmentStateOther (code : Z).

(** Modelled from the spec: [querypb.DataScope], of which [Remove] names
    three values; any other value of the enumeration is
    [DataScope_Unrecognised]. *)
Inductive DataScope :=
  | DataScope_Streaming
  | DataScope_Historical
  | DataScope_All
  | DataScope_Unrecognised (code : Z).

(** Modelled from the spec: [datapb.SegmentLevel], "a level ∈ {L0, L1, L2}". *)
Inductive SegmentLevel :=
  | SegmentLevel_L0
  | SegmentLevel_L1
  | SegmentLevel_L2.

Global Instance SegmentType_eq_dec : EqDecision SegmentType.
Proof. solve_decision. Defined.
Global Instance DataScope_eq_dec : EqDecision DataScope.
Proof. solve_decision. Defined.
Global Instance SegmentLevel_eq_dec : EqDecision SegmentLevel.
Proof. solve_decision. Defined.

(** Errors surfaced by the pinning operations. *)
Inductive Error :=
  | SegmentNotLoaded (id : Z)
  | PinAcquisitionFailed (id : Z).

Global Instance Error_eq_dec : EqDecision Error.
Proof. solve_decision. Defined.

(** ** Segments *)

(** Modelled from the spec: the [Segment] interface is declared outside
    manager.go.  A segment value is a pointer to an object; [addr] is the
    identity of that object and the other fields are the attributes fixed at
    construction, read by [ID()], [Type()], [Collection()], [Partition()],
    [Shard()] and [Level()]. *)
Record Segment := mkSegment {
  addr : positive;
  ID : Z;
  Type_ : SegmentType;
  Collection : Z;
  Partition : Z;
  Shard : string;
  Level : SegmentLevel;
}.

Global Instance Segment_eq_dec : EqDecision Segment.
Proof. solve_decision. Defined.

(** Modelled from the spec: the part of a segment that changes during its
    life.  [version] is the atomic version, [insertCount] the number of
    inserted rows, [readers] the number of read locks currently held (pins)
    and [released] is set by [Release] with scope All. *)
Record SegmentState := mkSegmentState {
  version : Z;
  insertCount : Z;
  readers : nat;
  released : bool;
}.

(** The heap: the current mutable state of every segment object. *)
Abbreviation Store := (Segment → SegmentState).

Definition Version (st : Store) (s : Segment) : Z := version (st s).
Definition InsertCount (st : Store) (s : Segment) : Z := insertCount (st s).

Definition set_version (v : Z) (x : SegmentState) : SegmentState :=
  {| version := v; insertCount := insertCount x;
     readers := readers x; released := released x |}.

Definition set_readers (n : nat) (x : SegmentState) : SegmentState :=
  {| version := version x; insertCount := insertCount x;
     readers := n; released := released x |}.

Definition set_released (x : SegmentState) : SegmentState :=
  {| version := version x; insertCount := insertCount x;
     readers := readers x; released := true |}.

(** Modelled from the spec: [CASVersion(old, new)] swaps the version when it
    still equals [old] and reports whether it did. *)
Definition CASVersion (s : Segment) (old new : Z) (st : Store) : bool * Store :=
  if bool_decide (Version st s = old)
  then (true, <[s := set_version new (st s)]> st)
  else (false, st).

(** Modelled from the spec: [RLock()] is refused once the segment is
    released (PinAcquisitionFailed); otherwise it takes one read lock. *)
Definition RLock (s : Segment) (st : Store) : option Error * Store :=
  if released (st s)
  then (Some (PinAcquisitionFailed (ID s)), st)
  else (None, <[s := set_readers (S (readers (st s))) (st s)]> st).

(** Modelled from the spec: [RUnlock()] gives one read lock back. *)
Definition RUnlock (s : Segment) (st : Store) : Store :=
  <[s := set_readers (Nat.pred (readers (st s))) (st s)]> st.

(** Modelled from the spec: [Release()] without options is a release with
    scope All; it destroys the handle.  That a release waits for the readers
    to leave is a matter of scheduling and is not modelled. *)
Definition Release (s : Segment) (st : Store) : Store :=
  <[s := set_released (st s)]> st.

(** ** Filters *)

(** The three implementations of the [SegmentFilter] interface. *)
Inductive SegmentFilter :=
  | SegmentFilterFunc (f : Store → Segment → bool)
  | SegmentIDFilter (id : Z)
  | SegmentTypeFilter (typ : SegmentType).

(** Method [Filter]. *)
Definition Filter (f : SegmentFilter) (st : Store) (segment : Segment) : bool :=
  match f with
  | SegmentFilterFunc g => g st segment
  | SegmentIDFilter id => bool_decide (ID segment = id)
  | SegmentTypeFilter typ => bool_decide (Type_ segment = typ)
  end.

(** Method [SegmentType]: the type hint. *)
Definition FilterSegmentType (f : SegmentFilter) : SegmentType * bool :=
  match f with
  | SegmentFilterFunc _ => (SegmentStateNone, false)
  | SegmentIDFilter _ => (SegmentStateNone, false)
  | SegmentTypeFilter typ => (typ, true)
  end.

(** Method [SegmentIDs]: the id hint. *)
Definition FilterSegmentIDs (f : SegmentFilter) : list Z * bool :=
  match f with
  | SegmentFilterFunc _ => ([], false)
  | SegmentIDFilter id => ([id], true)
  | SegmentTypeFilter _ => ([], false)
  end.

Definition WithSkipEmpty : SegmentFilter :=
  SegmentFilterFunc (fun st segment => bool_decide (0 < InsertCount st segment)).

Definition WithPartition (partitionID : Z) : SegmentFilter :=
  SegmentFilterFunc (fun _ segment => bool_decide (Partition segment = partitionID)).

Definition WithChannel (channel : string) : SegmentFilter :=
  SegmentFilterFunc (fun _ segment => bool_decide (Shard segment = channel)).

Definition WithType (typ : SegmentType) : SegmentFilter := SegmentTypeFilter typ.

Definition WithID (id : Z) : SegmentFilter := SegmentIDFilter id.

Definition WithLevel (level : SegmentLevel) : SegmentFilter :=
  SegmentFilterFunc (fun _ segment => bool_decide (Level segment = level)).

(** The free function [filter]: every filter's predicate must accept. *)
Definition filter (st : Store) (segment : Segment) (filters : list SegmentFilter) : bool :=
  forallb (fun f => Filter f st segment) filters.

(** ** Actions *)

(** A [SegmentAction] may mutate the segment it is given. *)
Definition SegmentAction := Segment → Store → bool * Store.

(** The loop of [IncreaseVersion]: [oldVersion] is read once, before the
    loop, and the loop runs while [oldVersion < version].  [fuel] bounds the
    number of iterations; [None] means the bound was reached. *)
Fixpoint IncreaseVersion_loop (fuel : nat) (oldVersion version : Z)
    (segment : Segment) (st : Store) : option (bool * Store) :=
  if bool_decide (oldVersion < version) then
    match fuel with
    | O => None
    | S fuel' =>
        let '(swapped, st') := CASVersion segment oldVersion version st in
        if swapped then Some (true, st')
        else IncreaseVersion_loop fuel' oldVersion version segment st'
    end
  else Some (false, st).

Definition IncreaseVersion_run (fuel : nat) (version : Z)
    (segment : Segment) (st : Store) : option (bool * Store) :=
  IncreaseVersion_loop fuel (Version st segment) version segment st.

(** [IncreaseVersion] as an action.  One iteration is always enough
    ([IncreaseVersion_run_fuel] below), so the default is never taken. *)
Definition IncreaseVersion (version : Z) : SegmentAction :=
  fun segment st => default (false, st) (IncreaseVersion_run 1 version segment st).

(** ** The manager and its surroundings *)

(** The two maps of [segmentManager], the heap of segment objects they point
    into, and [releaseQueue]: the replaced segments that [Put] has handed to
    a release goroutine that has not run yet. *)
Record World := mkWorld {
  growingSegments : gmap Z Segment;
  sealedSegments : gmap Z Segment;
  store : Store;
  releaseQueue : list Segment;
}.

Definition with_growing (m : gmap Z Segment) (w : World) : World :=
  {| growingSegments := m; sealedSegments := sealedSegments w;
     store := store w; releaseQueue := releaseQueue w |}.

Definition with_sealed (m : gmap Z Segment) (w : World) : World :=
  {| growingSegments := growingSegments w; sealedSegments := m;
     store := store w; releaseQueue := releaseQueue w |}.

Definition with_store (st : Store) (w : World) : World :=
  {| growingSegments := growingSegments w; sealedSegments := sealedSegments w;
     store := st; releaseQueue := releaseQueue w |}.

Definition with_releaseQueue (q : list Segment) (w : World) : World :=
  {| growingSegments := growingSegments w; sealedSegments := sealedSegments w;
     store := store w; releaseQueue := q |}.

(** [NewSegmentManager]: two empty maps, over a given heap. *)
Definition NewSegmentManager (st : Store) : World :=
  {| growingSegments := ∅; sealedSegments := ∅; store := st; releaseQueue := [] |}.

(** The map a segment type selects; no map for any other type. *)
Definition segmentsOf (typ : SegmentType) (w : World) : gmap Z Segment :=
  match typ with
  | SegmentTypeGrowing => growingSegments w
  | SegmentTypeSealed => sealedSegments w
  | _ => ∅
  end.

Definition with_segmentsOf (typ : SegmentType) (m : gmap Z Segment) (w : World) : World :=
  match typ with
  | SegmentTypeGrowing => with_growing m w
  | SegmentTypeSealed => with_sealed m w
  | _ => w
  end.

(** [remove]: release the segment (the metric decrement is not modelled). *)
Definition remove (segment : Segment) (st : Store) : Store := Release segment st.

(** *** Put *)

(** One iteration of the loop of [Put] over the incoming segments;
    [replacedSegment] is threaded along. *)
Definition Put_body (segmentType : SegmentType)
    (acc : World * list Segment) (segment : Segment) : World * list Segment :=
  let '(w, replacedSegment) := acc in
  let targetMap := segmentsOf segmentType w in
  match targetMap !! ID segment with
  | Some oldSegment =>
      if bool_decide (Version (store w) oldSegment >= Version (store w) segment)
      then (with_store (Release segment (store w)) w, replacedSegment)
      else (with_segmentsOf segmentType (<[ID segment := segment]> targetMap) w,
            replacedSegment ++ [oldSegment])
  | None =>
      (with_segmentsOf segmentType (<[ID segment := segment]> targetMap) w,
       replacedSegment)
  end.

(** [Put]; [None] is the panic on an unexpected segment type.  The replaced
    segments are queued for the release goroutine. *)
Definition Put (segmentType : SegmentType) (segments : list Segment) (w : World)
    : option World :=
  match segmentType with
  | SegmentTypeGrowing | SegmentTypeSealed =>
      let '(w', replacedSegment) := fold_left (Put_body segmentType) segments (w, []) in
      Some (with_releaseQueue (releaseQueue w' ++ replacedSegment) w')
  | _ => None
  end.

(** The release goroutines run: every queued segment is [remove]d. *)
Definition runReleases (w : World) : World :=
  with_releaseQueue []
    (with_store (fold_left (fun st segment => remove segment st) (releaseQueue w) (store w)) w).

(** *** Direct lookups *)

Definition Get (segmentID : Z) (w : World) : option Segment :=
  match growingSegments w !! segmentID with
  | Some segment => Some segment
  | None => sealedSegments w !! segmentID
  end.

Definition GetWithType (segmentID : Z) (typ : SegmentType) (w : World) : option Segment :=
  match typ with
  | SegmentTypeSealed => sealedSegments w !! segmentID
  | SegmentTypeGrowing => growingSegments w !! segmentID
  | _ => None
  end.

Definition GetSealed (segmentID : Z) (w : World) : option Segment :=
  sealedSegments w !! segmentID.

Definition GetGrowing (segmentID : Z) (w : World) : option Segment :=
  growingSegments w !! segmentID.

Definition Empty (w : World) : bool :=
  bool_decide (size (growingSegments w) + size (sealedSegments w) = 0)%nat.

(** *** Remove *)

Definition removeSegmentWithType (typ : SegmentType) (segmentID : Z) (w : World)
    : World * option Segment :=
  match typ with
  | SegmentTypeGrowing =>
      match growingSegments w !! segmentID with
      | Some s => (with_growing (delete segmentID (growingSegments w)) w, Some s)
      | None => (w, None)
      end
  | SegmentTypeSealed =>
      match sealedSegments w !! segmentID with
      | Some s => (with_sealed (delete segmentID (sealedSegments w)) w, Some s)
      | None => (w, None)
      end
  | _ => (w, None)
  end.

(** [if x != nil { remove(x) }] *)
Definition remove_if_present (x : option Segment) (w : World) : World :=
  match x with
  | Some segment => with_store (remove segment (store w)) w
  | None => w
  end.

Definition removed_count (x : option Segment) : Z :=
  match x with Some _ => 1 | None => 0 end.

(** [Remove]: the switch on the scope, then the releases after the lock is
    dropped; returns [(removeGrowing, removeSealed)]. *)
Definition Remove (segmentID : Z) (scope : DataScope) (w : World) : World * (Z * Z) :=
  let '(w', growing, sealed) :=
    match scope with
    | DataScope_Streaming =>
        let '(w1, growing) := removeSegmentWithType SegmentTypeGrowing segmentID w in
        (w1, growing, None)
    | DataScope_Historical =>
        let '(w1, sealed) := removeSegmentWithType SegmentTypeSealed segmentID w in
        (w1, None, sealed)
    | DataScope_All =>
        let '(w1, growing) := removeSegmentWithType SegmentTypeGrowing segmentID w in
        let '(w2, sealed) := removeSegmentWithType SegmentTypeSealed segmentID w1 in
        (w2, growing, sealed)
    | DataScope_Unrecognised _ => (w, None, None)
    end in
  (remove_if_present sealed (remove_if_present growing w'),
   (removed_count growing, removed_count sealed)).

(** *** Iteration order *)

(** Go leaves the order of a [range] over a map unspecified.  A
    [RangeOrder] fixes one admissible order: for the two segment maps, for
    the id set of the hints (a map as well), and for the map of candidates,
    which has at most the two keys Sealed and Growing. *)
Record RangeOrder := mkRangeOrder {
  rangeSegments : gmap Z Segment → list (Z * Segment);
  rangeSegments_perm : ∀ m, rangeSegments m ≡ₚ map_to_list m;
  rangeIDs : gset Z → list Z;
  rangeIDs_perm : ∀ X, rangeIDs X ≡ₚ elements X;
  sealedFirst : bool;
}.

(** The order in which stdpp enumerates; any other order is as good. *)
Definition canonicalOrder : RangeOrder :=
  {| rangeSegments := map_to_list;
     rangeSegments_perm := fun m => reflexivity (map_to_list m);
     rangeIDs := elements;
     rangeIDs_perm := fun X => reflexivity (elements X);
     sealedFirst := true |}.

(** *** rangeWithFilter *)

(** The local variables the first loop of [rangeWithFilter] fills in. *)
Record Hints := mkHints {
  segType : SegmentType;
  hasSegType : bool;
  hasSegIDs : bool;
  segmentIDs : gset Z;
  otherFilters : list SegmentFilter;
}.

Definition noHints : Hints :=
  {| segType := SegmentStateNone; hasSegType := false; hasSegIDs := false;
     segmentIDs := ∅; otherFilters := [] |}.

(** One iteration of the loop over the filters. *)
Definition hints_body (h : Hints) (f : SegmentFilter) : Hints :=
  let '(sType, ok) := FilterSegmentType f in
  if ok then
    {| segType := sType; hasSegType := true; hasSegIDs := hasSegIDs h;
       segmentIDs := segmentIDs h; otherFilters := otherFilters h |}
  else
    let '(segIDs, ok) := FilterSegmentIDs f in
    if ok then
      {| segType := segType h; hasSegType := hasSegType h; hasSegIDs := true;
         segmentIDs := segmentIDs h ∪ list_to_set segIDs;
         otherFilters := otherFilters h |}
    else
      {| segType := segType h; hasSegType := hasSegType h; hasSegIDs := hasSegIDs h;
         segmentIDs := segmentIDs h; otherFilters := otherFilters h ++ [f] |}.

Definition extractHints (filters : list SegmentFilter) : Hints :=
  fold_left hints_body filters noHints.

Definition mergedFilter (others : list SegmentFilter) (st : Store) (info : Segment) : bool :=
  forallb (fun f => Filter f st info) others.

(** The keys of the [candidates] map, in the order they are ranged over. *)
Definition candidates (o : RangeOrder) (h : Hints) : list SegmentType :=
  match segType h with
  | SegmentTypeSealed => [SegmentTypeSealed]
  | SegmentTypeGrowing => [SegmentTypeGrowing]
  | _ =>
      if hasSegType h then []
      else if sealedFirst o then [SegmentTypeSealed; SegmentTypeGrowing]
      else [SegmentTypeGrowing; SegmentTypeSealed]
  end.

Section rangeWithFilter.
Context {A : Type}.

(** [process] is a closure: besides its three arguments it reads and
    writes the manager, the heap and its captured variables (of type
    [A]); the boolean is its return value. *)
Variable process : Z → SegmentType → Segment → World * A → bool * (World * A).

(** The two inner loops.  Both visit a list of ids and look each id up in
    the candidate map as it is at that moment: for the id hint that is
    [candidate[id]]; for a [range] over the candidate map it is Go's rule
    that an entry deleted before it is reached is not produced.  A [false]
    from [process] is the [break]. *)
Fixpoint rangeLoop (others : list SegmentFilter) (typ : SegmentType)
    (ids : list Z) (wa : World * A) : World * A :=
  match ids with
  | [] => wa
  | id :: ids' =>
      match segmentsOf typ wa.1 !! id with
      | Some segment =>
          if mergedFilter others (store wa.1) segment then
            let '(continue, wa') := process id typ segment wa in
            if continue then rangeLoop others typ ids' wa' else wa'
          else rangeLoop others typ ids' wa
      | None => rangeLoop others typ ids' wa
      end
  end.

(** The ids one candidate map is visited at. *)
Definition visitOrder (o : RangeOrder) (h : Hints) (typ : SegmentType) (w : World)
    : list Z :=
  if hasSegIDs h then rangeIDs o (segmentIDs h)
  else (rangeSegments o (segmentsOf typ w)).*1.

(** The body of the outer loop over the candidates. *)
Definition rangeCandidate (o : RangeOrder) (h : Hints)
    (wa : World * A) (typ : SegmentType) : World * A :=
  rangeLoop (otherFilters h) typ (visitOrder o h typ wa.1) wa.

Definition rangeWithFilter (o : RangeOrder) (filters : list SegmentFilter)
    (wa : World * A) : World * A :=
  let h := extractHints filters in
  fold_left (rangeCandidate o h) (candidates o h) wa.
End rangeWithFilter.

(** *** Operations built on rangeWithFilter *)

Definition GetBy (o : RangeOrder) (filters : list SegmentFilter) (w : World)
    : list Segment :=
  (rangeWithFilter
     (fun _ _ segment '(w, ret) => (true, (w, ret ++ [segment])))
     o filters (w, [])).2.

(** [UpdateBy]: returns the heap as the action left it and the number of
    segments the action reported as updated. *)
Definition UpdateBy (o : RangeOrder) (action : SegmentAction)
    (filters : list SegmentFilter) (w : World) : World * Z :=
  rangeWithFilter
    (fun _ _ segment '(w, updated) =>
       let '(ok, st') := action segment (store w) in
       (true, (with_store st' w, if ok then updated + 1 else updated)))
    o filters (w, 0).

Definition Unpin (segments : list Segment) (st : Store) : Store :=
  fold_left (fun st segment => RUnlock segment st) segments st.

(** The closure [GetAndPinBy] hands to [rangeWithFilter]; its captured
    variables are [ret] and [err].  [err] is assigned by every call of
    [RLock], also by a successful one. *)
Definition GetAndPinBy_process (_ : Z) (_ : SegmentType) (segment : Segment)
    (wa : World * (list Segment * option Error))
    : bool * (World * (list Segment * option Error)) :=
  let '(w, (ret, err)) := wa in
  if bool_decide (Level segment = SegmentLevel_L0) then (true, (w, (ret, err)))
  else
    let '(err', st') := RLock segment (store w) in
    match err' with
    | Some _ => (false, (with_store st' w, (ret, err')))
    | None => (true, (with_store st' w, (ret ++ [segment], err')))
    end.

(** [GetAndPinBy]: the deferred function unlocks [ret] when [err] is set;
    the values returned are those of the statement [return ret, nil]. *)
Definition GetAndPinBy (o : RangeOrder) (filters : list SegmentFilter) (w : World)
    : (list Segment * option Error) * World :=
  let '(w', (ret, err)) := rangeWithFilter GetAndPinBy_process o filters (w, ([], None)) in
  let st' := match err with
             | Some _ => Unpin ret (store w')
             | None => store w'
             end in
  ((ret, None), with_store st' w').

(** One iteration of the loop of [GetAndPin] over the requested ids, from
    [lockedSegments] and the heap as they stand.  A result with an error is
    the state at the [return nil, err]; a result without one is the state at
    the end of the iteration (or at the [continue]). *)
Definition GetAndPin_body (w : World) (filters : list SegmentFilter) (id : Z)
    (lockedSegments : list Segment) (st : Store)
    : list Segment * option Error * Store :=
  let growing := growingSegments w !! id in
  let sealed := sealedSegments w !! id in
  if match sealed with
     | Some s => bool_decide (Level s = SegmentLevel_L0)
     | None => false
     end
  then (lockedSegments, None, st)
  else
    let growingExist :=
      match growing with Some g => filter st g filters | None => false end in
    let sealedExist :=
      match sealed with Some s => filter st s filters | None => false end in
    let '(locked1, err1, st1) :=
      match growing with
      | Some g =>
          if growingExist then
            let '(err, st') := RLock g st in
            match err with
            | Some _ => (lockedSegments, err, st')
            | None => (lockedSegments ++ [g], None, st')
            end
          else (lockedSegments, None, st)
      | None => (lockedSegments, None, st)
      end in
    match err1 with
    | Some _ => (locked1, err1, st1)
    | None =>
        let '(locked2, err2, st2) :=
          match sealed with
          | Some s =>
              if sealedExist then
                let '(err, st') := RLock s st1 in
                match err with
                | Some _ => (locked1, err, st')
                | None => (locked1 ++ [s], None, st')
                end
              else (locked1, None, st1)
          | None => (locked1, None, st1)
          end in
        match err2 with
        | Some _ => (locked2, err2, st2)
        | None =>
            if negb growingExist && negb sealedExist
            then (locked2, Some (SegmentNotLoaded id), st2)
            else (locked2, None, st2)
        end
    end.

Fixpoint GetAndPin_loop (w : World) (filters : list SegmentFilter) (segments : list Z)
    (lockedSegments : list Segment) (st : Store) : list Segment * option Error * Store :=
  match segments with
  | [] => (lockedSegments, None, st)
  | id :: rest =>
      let '(locked', err, st') := GetAndPin_body w filters id lockedSegments st in
      match err with
      | Some _ => (locked', err, st')
      | None => GetAndPin_loop w filters rest locked' st'
      end
  end.

(** [GetAndPin]: on an error the deferred function unlocks what was locked
    and the call returns [nil, err]; otherwise it returns
    [lockedSegments, nil]. *)
Definition GetAndPin (segments : list Z) (filters : list SegmentFilter) (w : World)
    : (list Segment * option Error) * World :=
  let '(lockedSegments, err, st') := GetAndPin_loop w filters segments [] (store w) in
  match err with
  | Some e => (([], Some e), with_store (Unpin lockedSegments st') w)
  | None => ((lockedSegments, None), with_store st' w)
  end.

(** [RemoveBy]: the closure removes every visited segment from its map and
    counts it; the removed segments are released after the lock is dropped. *)
Definition RemoveBy_process (id : Z) (typ : SegmentType) (_ : Segment)
    (wa : World * (list Segment * Z * Z)) : bool * (World * (list Segment * Z * Z)) :=
  let '(w, (removeSegments, removeGrowing, removeSealed)) := wa in
  match removeSegmentWithType typ id w with
  | (w', Some s) =>
      (true, (w', (removeSegments ++ [s],
                   match typ with SegmentTypeGrowing => removeGrowing + 1 | _ => removeGrowing end,
                   match typ with SegmentTypeSealed => removeSealed + 1 | _ => removeSealed end)))
  | (w', None) => (true, (w', (removeSegments, removeGrowing, removeSealed)))
  end.

Definition RemoveBy (o : RangeOrder) (filters : list SegmentFilter) (w : World)
    : World * (Z * Z) :=
  let '(w', (removeSegments, removeGrowing, removeSealed)) :=
    rangeWithFilter RemoveBy_process o filters (w, ([], 0, 0)) in
  (with_store (fold_left (fun st s => remove s st) removeSegments (store w')) w',
   (removeGrowing, removeSealed)).

(** [Clear]: both maps are emptied and every segment they held is
    [remove]d, the growing ones first. *)
Definition Clear (o : RangeOrder) (w : World) : World :=
  let st1 := fold_left (fun st kv => remove kv.2 st)
               (rangeSegments o (growingSegments w)) (store w) in
  let st2 := fold_left (fun st kv => remove kv.2 st)
               (rangeSegments o (sealedSegments w)) st1 in
  with_store st2 (with_sealed ∅ (with_growing ∅ w)).

(** ** Sequences of operations *)

(** The operations that change the manager or the heap.  [OpIncreaseVersion]
    is [UpdateBy] with the [IncreaseVersion] action; [OpRunReleases] is the
    moment the pending release goroutines run. *)
Inductive Op :=
  | OpPut (segmentType : SegmentType) (segments : list Segment)
  | OpRemove (segmentID : Z) (scope : DataScope)
  | OpRemoveBy (o : RangeOrder) (filters : list SegmentFilter)
  | OpClear (o : RangeOrder)
  | OpIncreaseVersion (o : RangeOrder) (version : Z) (filters : list SegmentFilter)
  | OpRunReleases.

(** One operation; [None] when it panics. *)
Definition apply_op (op : Op) (w : World) : option World :=
  match op with
  | OpPut segmentType segments => Put segmentType segments w
  | OpRemove segmentID scope => Some (Remove segmentID scope w).1
  | OpRemoveBy o filters => Some (RemoveBy o filters w).1
  | OpClear o => Some (Clear o w)
  | OpIncreaseVersion o version filters =>
      Some (UpdateBy o (IncreaseVersion version) filters w).1
  | OpRunReleases => Some (runReleases w)
  end.

Fixpoint run (ops : list Op) (w : World) : option World :=
  match ops with
  | [] => Some w
  | op :: ops' =>
      match apply_op op w with
      | Some w' => run ops' w'
      | None => None
      end
  end.

(** ** Invariants and reference definitions *)

(** The type whose map [Put] does not write to. *)
Definition otherType (typ : SegmentType) : SegmentType :=
  match typ with
  | SegmentTypeGrowing => SegmentTypeSealed
  | SegmentTypeSealed => SegmentTypeGrowing
  | _ => typ
  end.

(** Exclusivity: no id is a key of both maps. *)
Definition exclusive (w : World) : Prop :=
  ∀ id, growingSegments w !! id = None ∨ sealedSegments w !! id = None.

(** Type agreement: a stored segment's [Type()] is the type of its map. *)
Definition type_agreement (w : World) : Prop :=
  ∀ typ id s, segmentsOf typ w !! id = Some s → Type_ s = typ.

(** Every entry is keyed by its segment's [ID()], as [Put] stores it. *)
Definition keyed_by_ID (w : World) : Prop :=
  ∀ typ id s, segmentsOf typ w !! id = Some s → ID s = id.

(** A segment is stored when one of the two maps holds it. *)
Definition stored (w : World) (s : Segment) : Prop :=
  ∃ typ id, segmentsOf typ w !! id = Some s.

(** Filtering the way the specification words it: every segment of the two
    maps that passes the conjunction of all the filters' predicates. *)
Definition GetBy_naive (filters : list SegmentFilter) (w : World) : list Segment :=
  List.filter (fun s => filter (store w) s filters)
    ((map_to_list (growingSegments w)).*2 ++ (map_to_list (sealedSegments w)).*2).

(** What a visit of [id] in the map of [typ] hands to [process]: the
    segment stored under [id], when it passes the merged filter. *)
Definition visited (others : list SegmentFilter) (typ : SegmentType) (w : World)
    (id : Z) : option Segment :=
  match segmentsOf typ w !! id with
  | Some segment => if mergedFilter others (store w) segment then Some segment else None
  | None => None
  end.

(** A filter that carries no hint. *)
Definition passes_unhinted (st : Store) (s : Segment) (f : SegmentFilter) : bool :=
  match f with
  | SegmentFilterFunc g => g st s
  | _ => true
  end.

(** The hints of a filter list agree when all its type filters name one type
    and all its id filters name one id. *)
Definition hints_agree (filters : list SegmentFilter) : Prop :=
  (∀ t1 t2, SegmentTypeFilter t1 ∈ filters → SegmentTypeFilter t2 ∈ filters → t1 = t2)
  ∧ (∀ i1 i2, SegmentIDFilter i1 ∈ filters → SegmentIDFilter i2 ∈ filters → i1 = i2).

(** A [Put] keeps clear of the other map when none of the incoming ids is a
    key of the map of the other type. *)
Definition op_disjoint (op : Op) (w : World) : Prop :=
  match op with
  | OpPut segmentType segments =>
      Forall (fun s => segmentsOf (otherType segmentType) w !! ID s = None) segments
  | _ => True
  end.

(** A run in which every [Put] keeps clear of the other map. *)
Fixpoint disjoint_run (ops : list Op) (w : World) : Prop :=
  match ops with
  | [] => True
  | op :: ops' =>
      op_disjoint op w ∧
      match apply_op op w with
      | Some w' => disjoint_run ops' w'
      | None => True
      end
  end.

(** ** Sample data *)

Definition sampleSegment (a : positive) (id : Z) (typ : SegmentType)
    (level : SegmentLevel) : Segment :=
  {| addr := a; ID := id; Type_ := typ; Collection := 1; Partition := 10;
     Shard := "by-dev-dml_0"; Level := level |}.

(** A heap in which every segment has version [v], one row, no reader and is
    not released. *)
Definition freshStore (v : Z) : Store :=
  fun _ => {| version := v; insertCount := 1; readers := 0; released := false |}.

(** The same heap with the version of one segment set. *)
Definition storeWithVersion (s : Segment) (v : Z) (st : Store) : Store :=
  <[s := set_version v (st s)]> st.

(** Two sealed segments with the same id 7, the stored one at version 1 and
    the incoming one at version 2. *)
Definition oldSegment7 : Segment := sampleSegment 1 7 SegmentTypeSealed SegmentLevel_L1.
Definition newSegment7 : Segment := sampleSegment 2 7 SegmentTypeSealed SegmentLevel_L1.

Definition worldWithSegment7 : World :=
  {| growingSegments := ∅;
     sealedSegments := {[7 := oldSegment7]};
     store := storeWithVersion newSegment7 2 (freshStore 1);
     releaseQueue := [] |}.

(** A sealed segment of level L0 with id 11. *)
Definition l0Segment11 : Segment := sampleSegment 1 11 SegmentTypeSealed SegmentLevel_L0.

(** The L0 sealed segment 11 next to a growing segment with the same id. *)
Definition worldWithL0AndGrowing : World :=
  {| growingSegments := {[11 := sampleSegment 2 11 SegmentTypeGrowing SegmentLevel_L1]};
     sealedSegments := {[11 := l0Segment11]};
     store := freshStore 1;
     releaseQueue := [] |}.

(** Two sealed segments, put together and then the first put once more: the
    second [Put] finds the stored version not lower and releases the
    incoming segment, which is the stored one. *)
Definition sealedSegment1 : Segment := sampleSegment 1 1 SegmentTypeSealed SegmentLevel_L1.
Definition sealedSegment2 : Segment := sampleSegment 2 2 SegmentTypeSealed SegmentLevel_L1.

Definition putTwice : list Op :=
  [OpPut SegmentTypeSealed [sealedSegment1; sealedSegment2];
   OpPut SegmentTypeSealed [sealedSegment1]].

Definition worldWithReleased : World :=
  default (NewSegmentManager (freshStore 1)) (run putTwice (NewSegmentManager (freshStore 1))).

(** The same manager with a growing segment 3 next to the two sealed ones. *)
Definition growingSegment3 : Segment := sampleSegment 3 3 SegmentTypeGrowing SegmentLevel_L1.

Definition worldWithReleasedAndGrowing : World :=
  with_growing {[3 := growingSegment3]} worldWithReleased.

(** A growing and a sealed segment that share the id 7, put one after the
    other. *)
Definition growingSegment7 : Segment := sampleSegment 3 7 SegmentTypeGrowing SegmentLevel_L1.

Definition putBothTypes : list Op :=
  [OpPut SegmentTypeGrowing [growingSegment7]; OpPut SegmentTypeSealed [oldSegment7]].

(** A growing segment is put, removed again, and then a sealed segment with
    the same id is put. *)
Definition putRemovePut : list Op :=
  [OpPut SegmentTypeGrowing [growingSegment7];
   OpRemove 7 DataScope_Streaming;
   OpPut SegmentTypeSealed [oldSegment7]].

(** Two type filters that name different types, and two id filters that
    name different ids. *)
Definition twoTypeFilters : list SegmentFilter :=
  [WithType SegmentTypeGrowing; WithType SegmentTypeSealed].

Definition twoIDFilters : list SegmentFilter := [WithID 1; WithID 2].

(** The manager after the two sealed segments 1 and 2 are put. *)
Definition worldWithTwoSealed : World :=
  {| growingSegments := ∅;
     sealedSegments := {[1 := sealedSegment1; 2 := sealedSegment2]};
     store := freshStore 1;
     releaseQueue := [] |}.

(** ** Further reference definitions *)

(** Whether a scope of [Remove] covers the map of a segment type. *)
Definition scopeCovers (scope : DataScope) (typ : SegmentType) : bool :=
  match scope, typ with
  | DataScope_Streaming, SegmentTypeGrowing => true
  | DataScope_Historical, SegmentTypeSealed => true
  | DataScope_All, SegmentTypeGrowing => true
  | DataScope_All, SegmentTypeSealed => true
  | _, _ => false
  end.

(** [Remove] takes the segment [p] out of a map: some map the scope covers
    holds [p] under the id. *)
Definition takenOut (segmentID : Z) (scope : DataScope) (w : World) (p : Segment) : bool :=
  (scopeCovers scope SegmentTypeGrowing
     && bool_decide (growingSegments w !! segmentID = Some p))
  || (scopeCovers scope SegmentTypeSealed
        && bool_decide (sealedSegments w !! segmentID = Some p)).

(** The heap with one more reader on a segment for each of its occurrences
    in [l]. *)
Definition pinned (l : list Segment) (st : Store) : Store :=
  fun p => set_readers (readers (st p) + count_occ Segment_eq_dec l p)%nat (st p).

(** Whether one of the two maps holds the segment [p], under any id. *)
Definition storedb (w : World) (p : Segment) : bool :=
  bool_decide (p ∈ (map_to_list (growingSegments w)).*2
                     ++ (map_to_list (sealedSegments w)).*2).

(** What the closure of [UpdateBy] does with one segment: the action runs
    on it and a [true] is counted. *)
Definition applyAction (action : SegmentAction) (acc : World * Z) (segment : Segment)
    : World * Z :=
  let '(w, updated) := acc in
  let '(ok, st') := action segment (store w) in
  (with_store st' w, if ok then updated + 1 else updated).

(** The predicate filters of a list read nothing of the heap but the insert
    counts: on two heaps with the same insert counts they answer the same.
    [WithSkipEmpty], [WithPartition], [WithChannel] and [WithLevel] are of
    this kind. *)
Definition reads_insertCount_only (filters : list SegmentFilter) : Prop :=
  ∀ g, SegmentFilterFunc g ∈ filters →
    ∀ (st st' : Store) s,
      (∀ p, insertCount (st p) = insertCount (st' p)) → g st s = g st' s.

(** An action leaves the insert counts alone. *)
Definition keeps_insertCount (action : SegmentAction) : Prop :=
  ∀ s (st : Store) p, insertCount ((action s st).2 p) = insertCount (st p).

(** The type named by the last type filter of a list, if there is one. *)
Definition lastTypeHint (filters : list SegmentFilter) : option SegmentType :=
  last (omap (fun f => match f with SegmentTypeFilter t => Some t | _ => None end)
          filters).

(** Whether a list has an id filter. *)
Definition hasIDHint (filters : list SegmentFilter) : bool :=
  existsb (fun f => match f with SegmentIDFilter _ => true | _ => false end) filters.

(** A [Put] is well typed when every incoming segment is of the type it is
    put as. *)
Definition op_typed (op : Op) : Prop :=
  match op with
  | OpPut segmentType segments => Forall (fun s => Type_ s = segmentType) segments
  | _ => True
  end.

(** ** Message timestamps (msgstream) *)

(** The part of [BaseMsg] that [Unmarshal] sets; timestamps are unsigned
    64-bit numbers, only compared, never computed with. *)
Record BaseMsg := mkBaseMsg {
  BeginTimestamp : Z;
  EndTimestamp : Z;
}.

(** The first loop of [InsertMsg.Unmarshal] over the timestamps: both bounds
    are set to the first timestamp and the loop is left; with no timestamp
    the bounds keep their zero value. *)
Definition firstTimestamp (timestamps : list Z) (bm : BaseMsg) : BaseMsg :=
  match timestamps with
  | timestamp :: _ => {| BeginTimestamp := timestamp; EndTimestamp := timestamp |}
  | [] => bm
  end.

(** One iteration of the second loop: the two comparisons in the order of
    the source. *)
Definition widen (bm : BaseMsg) (timestamp : Z) : BaseMsg :=
  let bm1 := if bool_decide (timestamp > EndTimestamp bm)
             then {| BeginTimestamp := BeginTimestamp bm; EndTimestamp := timestamp |}
             else bm in
  if bool_decide (timestamp < BeginTimestamp bm1)
  then {| BeginTimestamp := timestamp; EndTimestamp := EndTimestamp bm1 |}
  else bm1.

Section Unmarshal.
Context {Request Err : Type}.

(** [proto.Unmarshal] into a request, and the [Timestamps] field of the
    request, both declared outside the file. *)
Variable proto_Unmarshal : list Byte.byte → Err + Request.
Variable Timestamps : Request → list Z.

(** [InsertMsg.Unmarshal] ([DeleteMsg.Unmarshal] has the same body over its
    own request type): the decoded request together with the bounds of its
    timestamps, or the decoding error. *)
Definition InsertMsg_Unmarshal (input : list Byte.byte) : Err + (BaseMsg * Request) :=
  match proto_Unmarshal input with
  | inl err => inl err
  | inr insertRequest =>
      let bm0 := {| BeginTimestamp := 0; EndTimestamp := 0 |} in
      let bm1 := firstTimestamp (Timestamps insertRequest) bm0 in
      inr (fold_left widen (Timestamps insertRequest) bm1, insertRequest)
  end.
End Unmarshal.

(** A heap in which the sealed segment 7 has version 5 and the growing
    segment with the same id has version 3. *)
Definition storeSealed5Growing3 : Store :=
  storeWithVersion growingSegment7 3 (freshStore 5).

(** ** Basic facts about the store *)

Lemma Version_Release s st p : Version (Release s st) p = Version st p.
Proof.
  unfold Version, Release.
  destruct (decide (s = p)) as [->|Hne].
  - by rewrite fn_lookup_insert.
  - by rewrite fn_lookup_insert_ne.
Qed.

Lemma IncreaseVersion_run_fuel fuel version segment st :
  IncreaseVersion_run (S fuel) version segment st =
  Some (if bool_decide (Version st segment < version)
        then (true, <[segment := set_version version (st segment)]> st)
        else (false, st)).
Proof.
  unfold IncreaseVersion_run. cbn [IncreaseVersion_loop].
  case_bool_decide; [|done].
  unfold CASVersion. by rewrite bool_decide_eq_true_2.
Qed.

Lemma IncreaseVersion_unfold version segment st :
  IncreaseVersion version segment st =
  if bool_decide (Version st segment < version)
  then (true, <[segment := set_version version (st segment)]> st)
  else (false, st).
Proof. unfold IncreaseVersion. by rewrite IncreaseVersion_run_fuel. Qed.

(** C7: with stored version [u] and target [v], the action
    [IncreaseVersion v] answers [true] and leaves the version at exactly [v]
    when [u < v], and answers [false] and leaves the store as it was when
    [u >= v].  Nothing but the version of that one segment changes.  The
    loop of the action returns this very result after one iteration,
    whatever the iteration bound. *)
Theorem IncreaseVersion_spec (fuel : nat) (v : Z) (s : Segment) (st : Store) :
  let u := Version st s in
  ∃ st',
    IncreaseVersion v s st = (bool_decide (u < v), st')
    ∧ IncreaseVersion_run (S fuel) v s st = Some (IncreaseVersion v s st)
    ∧ Version st' s = (if bool_decide (u < v) then v else u)
    ∧ (if bool_decide (u < v) then True else st' = st)
    ∧ (∀ p, p ≠ s → st' p = st p)
    ∧ insertCount (st' s) = insertCount (st s)
    ∧ readers (st' s) = readers (st s)
    ∧ released (st' s) = released (st s).
Proof.
  intros u. rewrite IncreaseVersion_run_fuel, IncreaseVersion_unfold. subst u.
  destruct (bool_decide (Version st s < v)).
  - exists (<[s := set_version v (st s)]> st).
    unfold Version. rewrite !fn_lookup_insert. cbn.
    repeat split; try done.
    intros p Hp. by rewrite fn_lookup_insert_ne.
  - exists st. repeat split; done.
Qed.

(** ** Remove *)

Lemma removeSegmentWithType_growing id w :
  (removeSegmentWithType SegmentTypeGrowing id w).1 =
    with_growing (delete id (growingSegments w)) w
  ∧ (removeSegmentWithType SegmentTypeGrowing id w).2 = growingSegments w !! id.
Proof.
  unfold removeSegmentWithType.
  destruct (growingSegments w !! id) as [s|] eqn:E; cbn; [done|].
  rewrite delete_id by done. by destruct w.
Qed.

Lemma removeSegmentWithType_sealed id w :
  (removeSegmentWithType SegmentTypeSealed id w).1 =
    with_sealed (delete id (sealedSegments w)) w
  ∧ (removeSegmentWithType SegmentTypeSealed id w).2 = sealedSegments w !! id.
Proof.
  unfold removeSegmentWithType.
  destruct (sealedSegments w !! id) as [s|] eqn:E; cbn; [done|].
  rewrite delete_id by done. by destruct w.
Qed.

Lemma remove_if_present_maps x w :
  growingSegments (remove_if_present x w) = growingSegments w
  ∧ sealedSegments (remove_if_present x w) = sealedSegments w
  ∧ releaseQueue (remove_if_present x w) = releaseQueue w.
Proof. by destruct x. Qed.

(** What [Remove] does for a given scope, in one equation per component. *)
Lemma Remove_unfold id scope w :
  let g := match scope with
           | DataScope_Streaming | DataScope_All => true
           | _ => false
           end in
  let h := match scope with
           | DataScope_Historical | DataScope_All => true
           | _ => false
           end in
  growingSegments (Remove id scope w).1 =
    (if g then delete id (growingSegments w) else growingSegments w)
  ∧ sealedSegments (Remove id scope w).1 =
    (if h then delete id (sealedSegments w) else sealedSegments w)
  ∧ (Remove id scope w).2 =
    (if g then removed_count (growingSegments w !! id) else 0,
     if h then removed_count (sealedSegments w !! id) else 0).
Proof.
  intros g h. subst g h. unfold Remove.
  pose proof (removeSegmentWithType_growing id w) as [E1 E2].
  pose proof (removeSegmentWithType_sealed id w) as [E3 E4].
  pose proof (removeSegmentWithType_sealed id
                (removeSegmentWithType SegmentTypeGrowing id w).1) as [E5 E6].
  destruct scope.
  - destruct (removeSegmentWithType SegmentTypeGrowing id w) as [w1 x]; cbn in E1, E2.
    cbv zeta. cbn [fst snd remove_if_present].
    destruct (remove_if_present_maps x w1) as (R1 & R2 & _).
    rewrite R1, R2. by subst.
  - destruct (removeSegmentWithType SegmentTypeSealed id w) as [w1 x]; cbn in E3, E4.
    cbv zeta. cbn [fst snd remove_if_present].
    destruct (remove_if_present_maps x w1) as (R1 & R2 & _).
    rewrite R1, R2. by subst.
  - destruct (removeSegmentWithType SegmentTypeGrowing id w) as [w1 x];
      cbn [fst snd] in E1, E2, E5, E6.
    destruct (removeSegmentWithType SegmentTypeSealed id w1) as [w2 y];
      cbn [fst snd] in E5, E6.
    cbv zeta. cbn [fst snd].
    destruct (remove_if_present_maps y (remove_if_present x w2)) as (R1 & R2 & _).
    destruct (remove_if_present_maps x w2) as (R3 & R4 & _).
    rewrite R1, R2, R3, R4. by subst.
  - done.
Qed.

(** C8: [Remove] with scope Streaming deletes at most the growing entry of
    the id and leaves the sealed map alone; with scope Historical it deletes
    at most the sealed entry and leaves the growing map alone; with scope All
    it deletes both.  Each component of the returned pair is 1 when the
    entry of that map existed (and so was deleted) and 0 otherwise, and the
    component of a map the scope does not cover is 0.  Whatever the scope,
    in both maps every id other than the removed one keeps its entry. *)
Theorem Remove_frame (segmentID : Z) (w : World) :
  let hadGrowing := match growingSegments w !! segmentID with Some _ => 1 | None => 0 end in
  let hadSealed := match sealedSegments w !! segmentID with Some _ => 1 | None => 0 end in
  (growingSegments (Remove segmentID DataScope_Streaming w).1 =
     delete segmentID (growingSegments w)
   ∧ sealedSegments (Remove segmentID DataScope_Streaming w).1 = sealedSegments w
   ∧ (Remove segmentID DataScope_Streaming w).2 = (hadGrowing, 0))
  ∧ (growingSegments (Remove segmentID DataScope_Historical w).1 = growingSegments w
     ∧ sealedSegments (Remove segmentID DataScope_Historical w).1 =
         delete segmentID (sealedSegments w)
     ∧ (Remove segmentID DataScope_Historical w).2 = (0, hadSealed))
  ∧ (growingSegments (Remove segmentID DataScope_All w).1 =
       delete segmentID (growingSegments w)
     ∧ sealedSegments (Remove segmentID DataScope_All w).1 =
         delete segmentID (sealedSegments w)
     ∧ (Remove segmentID DataScope_All w).2 = (hadGrowing, hadSealed))
  ∧ (∀ scope id' typ,
       segmentsOf typ w !! id' =
         if bool_decide (id' = segmentID) then segmentsOf typ w !! segmentID
         else segmentsOf typ (Remove segmentID scope w).1 !! id').
Proof.
  intros hadGrowing hadSealed.
  assert (Hg : removed_count (growingSegments w !! segmentID) = hadGrowing).
  { subst hadGrowing. by destruct (growingSegments w !! segmentID). }
  assert (Hs : removed_count (sealedSegments w !! segmentID) = hadSealed).
  { subst hadSealed. by destruct (sealedSegments w !! segmentID). }
  split; [|split; [|split]].
  - destruct (Remove_unfold segmentID DataScope_Streaming w) as (-> & -> & ->).
    by rewrite Hg.
  - destruct (Remove_unfold segmentID DataScope_Historical w) as (-> & -> & ->).
    by rewrite Hs.
  - destruct (Remove_unfold segmentID DataScope_All w) as (-> & -> & ->).
    by rewrite Hg, Hs.
  - intros scope id' typ.
    case_bool_decide as Hid; [by subst|].
    destruct (Remove_unfold segmentID scope w) as (Eg & Es & _).
    assert (Hm : segmentsOf typ (Remove segmentID scope w).1 = segmentsOf typ w
                 ∨ segmentsOf typ (Remove segmentID scope w).1 =
                   delete segmentID (segmentsOf typ w)).
    { destruct typ; cbn [segmentsOf]; auto; [rewrite Eg|rewrite Es];
        destruct scope; auto. }
    destruct Hm as [->| ->]; [done|]. by rewrite lookup_delete_ne.
Qed.

(** C10: with a scope other than Streaming, Historical and All, [Remove]
    returns (0, 0) and leaves the maps, the heap (so no segment is released)
    and the release queue as they were. *)
Theorem Remove_unrecognised_scope (segmentID : Z) (scope : DataScope) (w : World) :
  scope ≠ DataScope_Streaming →
  scope ≠ DataScope_Historical →
  scope ≠ DataScope_All →
  Remove segmentID scope w = (w, (0, 0)).
Proof. intros H1 H2 H3. by destruct scope. Qed.

Lemma Remove_unrecognised_scope_witness :
  Remove 7 (DataScope_Unrecognised 0)
    (NewSegmentManager (freshStore 1)) = (NewSegmentManager (freshStore 1), (0, 0)).
Proof. by apply Remove_unrecognised_scope. Defined.

(** ** Put *)

Lemma segmentsOf_with_segmentsOf typ m w :
  typ = SegmentTypeGrowing ∨ typ = SegmentTypeSealed →
  segmentsOf typ (with_segmentsOf typ m w) = m
  ∧ segmentsOf (otherType typ) (with_segmentsOf typ m w) = segmentsOf (otherType typ) w
  ∧ store (with_segmentsOf typ m w) = store w
  ∧ releaseQueue (with_segmentsOf typ m w) = releaseQueue w.
Proof. by intros [-> | ->]. Qed.

Lemma released_Release s st : released (Release s st s) = true.
Proof. unfold Release. by rewrite fn_lookup_insert. Qed.

(** C1: [Put] of one segment [s] whose id is already stored, as [old], in
    the target map.  If the version of [old] is not lower than that of [s],
    then [s] is released and the target map and the release queue are as
    before; otherwise [s] takes the place of [old] in the target map, [old]
    joins the segments queued for release and the heap is untouched.  Either
    way the map of the other type is as before. *)
Theorem Put_existing (segmentType : SegmentType) (s old : Segment) (w : World) :
  segmentType = SegmentTypeGrowing ∨ segmentType = SegmentTypeSealed →
  segmentsOf segmentType w !! ID s = Some old →
  ∃ w', Put segmentType [s] w = Some w'
    ∧ segmentsOf (otherType segmentType) w' = segmentsOf (otherType segmentType) w
    ∧ (if bool_decide (Version (store w) old >= Version (store w) s)
       then segmentsOf segmentType w' = segmentsOf segmentType w
            ∧ store w' = Release s (store w)
            ∧ released (store w' s) = true
            ∧ releaseQueue w' = releaseQueue w
       else segmentsOf segmentType w' = <[ID s := s]> (segmentsOf segmentType w)
            ∧ segmentsOf segmentType w' !! ID s = Some s
            ∧ store w' = store w
            ∧ releaseQueue w' = releaseQueue w ++ [old]).
Proof.
  intros Htyp Hold.
  assert (HP : Put segmentType [s] w =
               Some (with_releaseQueue
                       (releaseQueue (Put_body segmentType (w, []) s).1
                        ++ (Put_body segmentType (w, []) s).2)
                       (Put_body segmentType (w, []) s).1)).
  { unfold Put. cbn [fold_left].
    destruct (Put_body segmentType (w, []) s) as [w1 r].
    by destruct Htyp as [-> | ->]. }
  eexists. split; [exact HP|].
  unfold Put_body. rewrite Hold.
  case_bool_decide as Hv; cbn [fst snd].
  - repeat split; try (by destruct Htyp as [-> | ->]).
    + cbn. apply released_Release.
    + cbn. apply app_nil_r.
  - destruct (segmentsOf_with_segmentsOf segmentType
                (<[ID s := s]> (segmentsOf segmentType w)) w Htyp)
      as (E1 & E2 & E3 & E4).
    set (w1 := with_segmentsOf segmentType _ w) in *.
    assert (Hq : ∀ typ q, segmentsOf typ (with_releaseQueue q w1) = segmentsOf typ w1)
      by (by intros []).
    rewrite !Hq, E1, E2. cbn [store releaseQueue with_releaseQueue].
    rewrite E3, E4. repeat split; try done.
    apply lookup_insert_eq.
Qed.

Lemma Put_existing_witness :
  ∃ w', Put SegmentTypeSealed [newSegment7] worldWithSegment7 = Some w'
    ∧ segmentsOf (otherType SegmentTypeSealed) w' =
        segmentsOf (otherType SegmentTypeSealed) worldWithSegment7
    ∧ (if bool_decide (Version (store worldWithSegment7) oldSegment7
                       >= Version (store worldWithSegment7) newSegment7)
       then segmentsOf SegmentTypeSealed w' = segmentsOf SegmentTypeSealed worldWithSegment7
            ∧ store w' = Release newSegment7 (store worldWithSegment7)
            ∧ released (store w' newSegment7) = true
            ∧ releaseQueue w' = releaseQueue worldWithSegment7
       else segmentsOf SegmentTypeSealed w' =
              <[ID newSegment7 := newSegment7]> (segmentsOf SegmentTypeSealed worldWithSegment7)
            ∧ segmentsOf SegmentTypeSealed w' !! ID newSegment7 = Some newSegment7
            ∧ store w' = store worldWithSegment7
            ∧ releaseQueue w' = releaseQueue worldWithSegment7 ++ [oldSegment7]).
Proof.
  apply (Put_existing SegmentTypeSealed newSegment7 oldSegment7 worldWithSegment7).
  - right. reflexivity.
  - vm_compute. reflexivity.
Defined.

(** ** Pinning *)

Lemma with_store_same w : with_store (store w) w = w.
Proof. by destruct w. Qed.

(** The iteration of [GetAndPin] for an id whose sealed entry is of level
    L0 is the [continue]: nothing is locked, nothing is added, no error. *)
Lemma GetAndPin_body_L0 w filters id sealed lockedSegments st :
  sealedSegments w !! id = Some sealed →
  Level sealed = SegmentLevel_L0 →
  GetAndPin_body w filters id lockedSegments st = (lockedSegments, None, st).
Proof.
  intros Hs HL. unfold GetAndPin_body. rewrite Hs.
  by rewrite bool_decide_eq_true_2.
Qed.

Lemma GetAndPin_loop_app w filters ids1 ids2 lockedSegments st :
  GetAndPin_loop w filters (ids1 ++ ids2) lockedSegments st =
  let '(locked', err, st') := GetAndPin_loop w filters ids1 lockedSegments st in
  match err with
  | Some _ => (locked', err, st')
  | None => GetAndPin_loop w filters ids2 locked' st'
  end.
Proof.
  revert lockedSegments st.
  induction ids1 as [|id ids1 IH]; intros lockedSegments st; [done|].
  cbn [app GetAndPin_loop].
  destruct (GetAndPin_body w filters id lockedSegments st) as [[l e] s].
  destruct e; [done|]. apply IH.
Qed.

(** C9: when the sealed map holds a segment of level L0 for an id, the
    iteration of [GetAndPin] for that id leaves the locked segments, the
    heap and the error as they were, whatever the growing map holds for the
    id and whatever the filters are.  So a call with the id among the
    requested ids returns what the call without it returns and leaves the
    same heap, and a call for that id alone returns the empty list without
    an error (not SegmentNotLoaded) and takes no lock. *)
Theorem GetAndPin_skips_L0 (w : World) (filters : list SegmentFilter)
    (before after : list Z) (id : Z) (sealed : Segment)
    (lockedSegments : list Segment) (st : Store) :
  sealedSegments w !! id = Some sealed →
  Level sealed = SegmentLevel_L0 →
  GetAndPin_body w filters id lockedSegments st = (lockedSegments, None, st)
  ∧ GetAndPin (before ++ id :: after) filters w = GetAndPin (before ++ after) filters w
  ∧ GetAndPin [id] filters w = (([], None), w).
Proof.
  intros Hs HL.
  assert (Hbody := fun l st => GetAndPin_body_L0 w filters id sealed l st Hs HL).
  split; [apply Hbody|]. split.
  - unfold GetAndPin. rewrite !GetAndPin_loop_app.
    destruct (GetAndPin_loop w filters before [] (store w)) as [[l e] st1].
    destruct e; [done|].
    cbn [GetAndPin_loop]. by rewrite Hbody.
  - unfold GetAndPin. cbn [GetAndPin_loop]. rewrite Hbody.
    by rewrite with_store_same.
Qed.

Lemma GetAndPin_skips_L0_witness :
  GetAndPin_body worldWithL0AndGrowing [] 11 [sealedSegment1] (freshStore 1)
    = ([sealedSegment1], None, freshStore 1)
  ∧ GetAndPin ([] ++ 11 :: []) [] worldWithL0AndGrowing
    = GetAndPin ([] ++ []) [] worldWithL0AndGrowing
  ∧ GetAndPin [11] [] worldWithL0AndGrowing = (([], None), worldWithL0AndGrowing).
Proof.
  apply (GetAndPin_skips_L0 worldWithL0AndGrowing [] [] [] 11 l0Segment11).
  - vm_compute. reflexivity.
  - reflexivity.
Defined.

(** ** The order of a range over a one-entry map *)

Lemma rangeSegments_singleton (o : RangeOrder) (id : Z) (s : Segment) :
  rangeSegments o {[id := s]} = [(id, s)].
Proof.
  apply Permutation_singleton_r.
  rewrite (rangeSegments_perm o). by rewrite map_to_list_singleton.
Qed.

Lemma extractHints_WithType typ :
  extractHints [WithType typ] =
  {| segType := typ; hasSegType := true; hasSegIDs := false;
     segmentIDs := ∅; otherFilters := [] |}.
Proof. reflexivity. Qed.

(** C3 (as the code has it): after [Put(Sealed, s)] with [s] of id 11 and
    level L0 into an empty manager, [GetAndPin([11])] returns the empty list
    and no error, and [GetAndPinBy(WithType(Sealed))] returns the empty list
    and no error; neither call changes the heap, so nothing is pinned. *)
Theorem L0_not_pinned (o : RangeOrder) (s : Segment) (st : Store) :
  ID s = 11 →
  Level s = SegmentLevel_L0 →
  ∃ w, Put SegmentTypeSealed [s] (NewSegmentManager st) = Some w
    ∧ GetAndPin [11] [] w = (([], None), w)
    ∧ GetAndPinBy o [WithType SegmentTypeSealed] w = (([], None), w).
Proof.
  intros Hid HL.
  exists {| growingSegments := ∅; sealedSegments := {[11 := s]};
            store := st; releaseQueue := [] |}.
  split; [|split].
  - unfold Put, Put_body. cbn [fold_left segmentsOf NewSegmentManager sealedSegments].
    rewrite lookup_empty, Hid, insert_empty. reflexivity.
  - unfold GetAndPin. cbn [GetAndPin_loop].
    rewrite (GetAndPin_body_L0 _ _ _ s); [done| |done].
    cbn. apply lookup_singleton_eq.
  - unfold GetAndPinBy, rangeWithFilter.
    rewrite extractHints_WithType.
    cbn [candidates segType hasSegType fold_left].
    unfold rangeCandidate, visitOrder.
    cbn [hasSegIDs otherFilters fst segmentsOf sealedSegments].
    rewrite rangeSegments_singleton.
    cbn [fmap list_fmap fst rangeLoop segmentsOf sealedSegments].
    rewrite lookup_singleton_eq.
    cbn [mergedFilter forallb GetAndPinBy_process].
    by rewrite bool_decide_eq_true_2.
Qed.

Lemma L0_not_pinned_witness :
  ∃ w, Put SegmentTypeSealed [l0Segment11] (NewSegmentManager (freshStore 1)) = Some w
    ∧ GetAndPin [11] [] w = (([], None), w)
    ∧ GetAndPinBy canonicalOrder [WithType SegmentTypeSealed] w = (([], None), w).
Proof.
  apply (L0_not_pinned canonicalOrder l0Segment11 (freshStore 1)); reflexivity.
Defined.

(** C3 as stated does not hold: for the L0 segment with id 11, put as sealed
    into an empty manager, [GetAndPin([11])] does not return the
    SegmentNotLoaded error; it returns no error at all. *)
Lemma L0_GetAndPin_no_error :
  ∃ w, Put SegmentTypeSealed [l0Segment11] (NewSegmentManager (freshStore 1)) = Some w
    ∧ (GetAndPin [11] [] w).1 = ([], None)
    ∧ (GetAndPin [11] [] w).1.2 ≠ Some (SegmentNotLoaded 11).
Proof. eexists. split; [reflexivity|]. by vm_compute. Qed.

(** [GetAndPinBy] ends in [return ret, nil]: whatever [RLock] answered, the
    caller is handed no error. *)
Lemma GetAndPinBy_error_nil (o : RangeOrder) (filters : list SegmentFilter) (w : World) :
  (GetAndPinBy o filters w).1.2 = None.
Proof.
  unfold GetAndPinBy.
  by destruct (rangeWithFilter _ _ _ _) as [w' [ret err]].
Qed.

(** C2, evaluated where it fails.  After the two [Put]s of [putTwice] the
    sealed map holds segment 1, released, and segment 2.  [RLock] on
    segment 1 is refused.  [GetAndPinBy] without filters locks segment 2,
    meets the refusal on segment 1, unlocks segment 2 again (it ends with no
    reader) and then returns segment 2 together with a nil error: the
    rollback is done, the error is not returned.  [GetAndPin] on the same
    ids does return the error. *)
Theorem GetAndPinBy_drops_error :
  run putTwice (NewSegmentManager (freshStore 1)) = Some worldWithReleased
  ∧ sealedSegments worldWithReleased !! 1 = Some sealedSegment1
  ∧ (RLock sealedSegment1 (store worldWithReleased)).1 = Some (PinAcquisitionFailed 1)
  ∧ (GetAndPinBy canonicalOrder [] worldWithReleased).1 = ([sealedSegment2], None)
  ∧ readers (store (GetAndPinBy canonicalOrder [] worldWithReleased).2 sealedSegment2) = 0%nat
  ∧ (GetAndPin [2; 1] [] worldWithReleased).1 = ([], Some (PinAcquisitionFailed 1)).
Proof. repeat split; by vm_compute. Qed.

(** The [false] of the closure breaks the loop over one map only.  With a
    growing segment 3 besides, and the sealed map ranged over first, the
    refusal on segment 1 ends the sealed map; the growing map is still
    ranged over, the successful [RLock] on segment 3 sets [err] back to nil,
    and the call ends with segments 2 and 3 locked and returned. *)
Lemma GetAndPinBy_goes_on_after_refusal :
  (GetAndPinBy canonicalOrder [] worldWithReleasedAndGrowing).1
    = ([sealedSegment2; growingSegment3], None)
  ∧ readers (store (GetAndPinBy canonicalOrder [] worldWithReleasedAndGrowing).2
               sealedSegment2) = 1%nat
  ∧ readers (store (GetAndPinBy canonicalOrder [] worldWithReleasedAndGrowing).2
               growingSegment3) = 1%nat.
Proof. repeat split; by vm_compute. Qed.

(** ** An induction principle for rangeWithFilter *)

Section rangeWithFilter_ind.
Context {A : Type}.
Variable process : Z → SegmentType → Segment → World * A → bool * (World * A).
Variable P : World * A → Prop.
Hypothesis process_preserves : ∀ id typ segment wa, P wa → P (process id typ segment wa).2.

Lemma rangeLoop_ind others typ ids wa :
  P wa → P (rangeLoop process others typ ids wa).
Proof.
  revert wa. induction ids as [|id ids IH]; intros wa HP; [done|].
  cbn [rangeLoop].
  destruct (segmentsOf typ wa.1 !! id) as [segment|]; [|by apply IH].
  destruct (mergedFilter others (store wa.1) segment); [|by apply IH].
  pose proof (process_preserves id typ segment wa HP) as HP'.
  destruct (process id typ segment wa) as [continue wa']; cbn [snd] in HP'.
  destruct continue; [by apply IH|done].
Qed.

Lemma rangeWithFilter_ind o filters wa :
  P wa → P (rangeWithFilter process o filters wa).
Proof.
  unfold rangeWithFilter.
  generalize (candidates o (extractHints filters)) as typs.
  intros typs. revert wa.
  induction typs as [|typ typs IH]; intros wa HP; [done|].
  cbn [fold_left]. apply IH. unfold rangeCandidate. by apply rangeLoop_ind.
Qed.
End rangeWithFilter_ind.

(** ** Exclusivity *)

Lemma exclusive_shrink w w' :
  growingSegments w' ⊆ growingSegments w →
  sealedSegments w' ⊆ sealedSegments w →
  exclusive w → exclusive w'.
Proof.
  intros Hg Hs Hex id.
  destruct (Hex id) as [H|H]; [left|right]; eapply lookup_weaken_None; eauto.
Qed.

Lemma removeSegmentWithType_shrink typ id w :
  growingSegments (removeSegmentWithType typ id w).1 ⊆ growingSegments w
  ∧ sealedSegments (removeSegmentWithType typ id w).1 ⊆ sealedSegments w
  ∧ store (removeSegmentWithType typ id w).1 = store w
  ∧ releaseQueue (removeSegmentWithType typ id w).1 = releaseQueue w.
Proof.
  unfold removeSegmentWithType. destruct typ; cbn; try done.
  - destruct (growingSegments w !! id); cbn; [|done].
    repeat split; try done. apply delete_subseteq.
  - destruct (sealedSegments w !! id); cbn; [|done].
    repeat split; try done. apply delete_subseteq.
Qed.

Lemma Remove_shrink id scope w :
  growingSegments (Remove id scope w).1 ⊆ growingSegments w
  ∧ sealedSegments (Remove id scope w).1 ⊆ sealedSegments w.
Proof.
  destruct (Remove_unfold id scope w) as (-> & -> & _).
  split; destruct scope; try done; apply delete_subseteq.
Qed.

Lemma RemoveBy_shrink o filters w :
  growingSegments (RemoveBy o filters w).1 ⊆ growingSegments w
  ∧ sealedSegments (RemoveBy o filters w).1 ⊆ sealedSegments w.
Proof.
  unfold RemoveBy.
  pose proof (rangeWithFilter_ind RemoveBy_process
    (fun wa => growingSegments wa.1 ⊆ growingSegments w
               ∧ sealedSegments wa.1 ⊆ sealedSegments w)) as Hind.
  cbv beta in Hind.
  specialize (Hind (ltac:(
    intros id typ segment [w1 [[rs rg] rsl]] [Hg Hs]; unfold RemoveBy_process;
    pose proof (removeSegmentWithType_shrink typ id w1) as (Hg' & Hs' & _);
    destruct (removeSegmentWithType typ id w1) as [w2 [x|]]; cbn [fst snd] in *;
    split; etrans; eauto)) o filters (w, ([], 0, 0)) (conj (reflexivity _) (reflexivity _))).
  by destruct (rangeWithFilter _ _ _ _) as [w' [[rs rg] rsl]].
Qed.

Lemma UpdateBy_maps o action filters w :
  growingSegments (UpdateBy o action filters w).1 = growingSegments w
  ∧ sealedSegments (UpdateBy o action filters w).1 = sealedSegments w
  ∧ releaseQueue (UpdateBy o action filters w).1 = releaseQueue w.
Proof.
  unfold UpdateBy.
  apply (rangeWithFilter_ind _
    (fun wa => growingSegments wa.1 = growingSegments w
               ∧ sealedSegments wa.1 = sealedSegments w
               ∧ releaseQueue wa.1 = releaseQueue w)); [|done].
  intros id typ segment [w1 updated] HP.
  by destruct (action segment (store w1)) as [ok st'].
Qed.

Lemma Put_body_maps typ acc s :
  typ = SegmentTypeGrowing ∨ typ = SegmentTypeSealed →
  segmentsOf (otherType typ) (Put_body typ acc s).1 = segmentsOf (otherType typ) acc.1
  ∧ (segmentsOf typ (Put_body typ acc s).1 = segmentsOf typ acc.1
     ∨ segmentsOf typ (Put_body typ acc s).1 = <[ID s := s]> (segmentsOf typ acc.1)).
Proof.
  intros Htyp. destruct acc as [w r]. unfold Put_body. cbn [fst].
  destruct (segmentsOf_with_segmentsOf typ (<[ID s := s]> (segmentsOf typ w)) w Htyp)
    as (E1 & E2 & _).
  destruct (segmentsOf typ w !! ID s) as [old|]; [case_bool_decide|]; cbn [fst];
    rewrite ?E1, ?E2; auto.
Qed.

Lemma exclusive_segmentsOf typ w :
  typ = SegmentTypeGrowing ∨ typ = SegmentTypeSealed →
  exclusive w ↔
  ∀ id, segmentsOf typ w !! id = None ∨ segmentsOf (otherType typ) w !! id = None.
Proof.
  intros [-> | ->]; unfold exclusive; cbn; [done|].
  split; intros H id; destruct (H id); auto.
Qed.

Lemma Put_fold_exclusive typ segments acc :
  typ = SegmentTypeGrowing ∨ typ = SegmentTypeSealed →
  (∀ s, s ∈ segments → segmentsOf (otherType typ) acc.1 !! ID s = None) →
  exclusive acc.1 →
  exclusive (fold_left (Put_body typ) segments acc).1.
Proof.
  intros Htyp. revert acc.
  induction segments as [|s segments IH]; intros acc Hdis Hex; [done|].
  cbn [fold_left].
  destruct (Put_body_maps typ acc s Htyp) as [Eo Et].
  apply IH.
  - intros s' Hs'. rewrite Eo. apply Hdis. by right.
  - apply (proj2 (exclusive_segmentsOf typ _ Htyp)). intros id. rewrite Eo.
    pose proof (proj1 (exclusive_segmentsOf typ acc.1 Htyp) Hex) as Hex2.
    destruct Et as [-> | ->]; [done|].
    destruct (decide (ID s = id)) as [<-|Hne].
    + right. apply Hdis. by left.
    + rewrite lookup_insert_ne by done. apply Hex2.
Qed.

Lemma apply_op_exclusive op w w' :
  op_disjoint op w → apply_op op w = Some w' → exclusive w → exclusive w'.
Proof.
  destruct op as [typ segments|id scope|o filters|o|o v filters|];
    cbn [apply_op op_disjoint]; intros Hdis Hop Hex.
  - unfold Put in Hop.
    assert (Htyp : typ = SegmentTypeGrowing ∨ typ = SegmentTypeSealed)
      by (destruct typ; auto; done).
    pose proof (Put_fold_exclusive typ segments (w, []) Htyp
                  (proj1 (Forall_forall _ _) Hdis) Hex) as Hex'.
    destruct (fold_left (Put_body typ) segments (w, [])) as [w1 r].
    assert (w' = with_releaseQueue (releaseQueue w1 ++ r) w1) as ->
      by (destruct Htyp as [-> | ->]; congruence).
    exact Hex'.
  - injection Hop as <-. destruct (Remove_shrink id scope w).
    by eapply exclusive_shrink.
  - injection Hop as <-. destruct (RemoveBy_shrink o filters w).
    by eapply exclusive_shrink.
  - injection Hop as <-. intros id. by left.
  - injection Hop as <-.
    destruct (UpdateBy_maps o (IncreaseVersion v) filters w) as (Eg & Es & _).
    intros id. rewrite Eg, Es. apply Hex.
  - injection Hop as <-. exact Hex.
Qed.

(** C4 (as the code has it): starting from the empty manager, after every
    sequence of operations in which each [Put] carries only ids that are
    not keys of the map of the other type at the time of the call, no id is
    a key of both maps.  [Remove], [RemoveBy], [Clear], [UpdateBy] and the
    deferred releases keep the property without any condition. *)
Theorem exclusive_disjoint_run (ops : list Op) (st : Store) (w : World) :
  disjoint_run ops (NewSegmentManager st) →
  run ops (NewSegmentManager st) = Some w →
  exclusive w.
Proof.
  assert (Hgen : ∀ ops w0, exclusive w0 → disjoint_run ops w0 →
                           run ops w0 = Some w → exclusive w).
  { clear ops. induction ops as [|op ops IH]; intros w0 Hex Hdis Hrun.
    - cbn in Hrun. by injection Hrun as <-.
    - cbn [run disjoint_run] in *. destruct Hdis as [Hop Hrest].
      destruct (apply_op op w0) as [w1|] eqn:E; [|done].
      eapply IH; [|exact Hrest|exact Hrun].
      by eapply apply_op_exclusive. }
  intros Hdis Hrun. eapply Hgen; [|exact Hdis|exact Hrun].
  intros id. by left.
Qed.

Lemma exclusive_disjoint_run_witness :
  exclusive
    {| growingSegments := ∅; sealedSegments := {[7 := oldSegment7]};
       store := Release growingSegment7 (freshStore 1); releaseQueue := [] |}.
Proof.
  apply (exclusive_disjoint_run putRemovePut (freshStore 1)).
  - cbn. repeat split; repeat constructor.
  - vm_compute. reflexivity.
Defined.

(** C4 as stated does not hold: [Put] looks at the target map only.  After
    a growing and then a sealed segment with id 7 are put into the empty
    manager, both maps have an entry for 7. *)
Lemma exclusivity_broken_by_Put :
  ∃ w, run putBothTypes (NewSegmentManager (freshStore 1)) = Some w
    ∧ growingSegments w !! 7 = Some growingSegment7
    ∧ sealedSegments w !! 7 = Some oldSegment7
    ∧ ¬ exclusive w.
Proof.
  eexists. split; [reflexivity|].
  split; [by vm_compute|]. split; [by vm_compute|].
  intros Hex. destruct (Hex 7) as [H|H]; vm_compute in H; discriminate.
Qed.

(** ** Versions *)

Lemma Version_fold_remove (l : list Segment) st p :
  Version (fold_left (fun st s => remove s st) l st) p = Version st p.
Proof.
  revert st. induction l as [|s l IH]; intros st; [done|].
  cbn [fold_left]. rewrite IH. apply Version_Release.
Qed.

Lemma Version_fold_remove_entries (l : list (Z * Segment)) st p :
  Version (fold_left (fun st kv => remove kv.2 st) l st) p = Version st p.
Proof.
  revert st. induction l as [|kv l IH]; intros st; [done|].
  cbn [fold_left]. rewrite IH. apply Version_Release.
Qed.

Lemma Version_remove_if_present x w p :
  Version (store (remove_if_present x w)) p = Version (store w) p.
Proof. destruct x; [apply Version_Release|done]. Qed.

Lemma segmentsOf_shrink typ w w' :
  growingSegments w' ⊆ growingSegments w →
  sealedSegments w' ⊆ sealedSegments w →
  segmentsOf typ w' ⊆ segmentsOf typ w.
Proof. by destruct typ. Qed.

Lemma Remove_Version id scope w p :
  Version (store (Remove id scope w).1) p = Version (store w) p.
Proof.
  unfold Remove.
  pose proof (removeSegmentWithType_shrink SegmentTypeGrowing id w) as (_ & _ & E1 & _).
  pose proof (removeSegmentWithType_shrink SegmentTypeSealed id w) as (_ & _ & E2 & _).
  pose proof (removeSegmentWithType_shrink SegmentTypeSealed id
                (removeSegmentWithType SegmentTypeGrowing id w).1) as (_ & _ & E3 & _).
  destruct scope.
  - destruct (removeSegmentWithType SegmentTypeGrowing id w) as [w1 x]; cbn [fst] in *.
    cbv zeta. cbn [fst]. rewrite !Version_remove_if_present. by rewrite E1.
  - destruct (removeSegmentWithType SegmentTypeSealed id w) as [w1 x]; cbn [fst] in *.
    cbv zeta. cbn [fst]. rewrite !Version_remove_if_present. by rewrite E2.
  - destruct (removeSegmentWithType SegmentTypeGrowing id w) as [w1 x]; cbn [fst] in *.
    destruct (removeSegmentWithType SegmentTypeSealed id w1) as [w2 y]; cbn [fst] in *.
    cbv zeta. cbn [fst]. rewrite !Version_remove_if_present. by rewrite E3, E1.
  - done.
Qed.

Lemma RemoveBy_Version o filters w p :
  Version (store (RemoveBy o filters w).1) p = Version (store w) p.
Proof.
  unfold RemoveBy.
  assert (H : store (rangeWithFilter RemoveBy_process o filters (w, ([], 0, 0))).1
              = store w).
  { apply (rangeWithFilter_ind _ (fun wa => store wa.1 = store w)); [|done].
    intros id typ segment [w1 [[rs rg] rsl]] HP. unfold RemoveBy_process.
    pose proof (removeSegmentWithType_shrink typ id w1) as (_ & _ & E & _).
    destruct (removeSegmentWithType typ id w1) as [w2 [x|]]; cbn [fst snd] in *;
      congruence. }
  destruct (rangeWithFilter _ _ _ _) as [w' [[rs rg] rsl]].
  cbn [fst snd store with_store] in *.
  rewrite Version_fold_remove. by rewrite H.
Qed.

Lemma Clear_Version o w p : Version (store (Clear o w)) p = Version (store w) p.
Proof. unfold Clear. cbn [store with_store]. by rewrite !Version_fold_remove_entries. Qed.

Lemma runReleases_Version w p : Version (store (runReleases w)) p = Version (store w) p.
Proof. unfold runReleases. cbn [store with_store with_releaseQueue]. apply Version_fold_remove. Qed.

Lemma segmentsOf_with_store typ st w : segmentsOf typ (with_store st w) = segmentsOf typ w.
Proof. by destruct typ. Qed.

Lemma segmentsOf_with_releaseQueue typ q w :
  segmentsOf typ (with_releaseQueue q w) = segmentsOf typ w.
Proof. by destruct typ. Qed.

Lemma segmentsOf_with_segmentsOf_ne typ typ' m w :
  typ' ≠ typ → segmentsOf typ' (with_segmentsOf typ m w) = segmentsOf typ' w.
Proof. by destruct typ, typ'. Qed.

(** One iteration of [Put] changes no version in the heap, keeps every key
    of both maps, and never stores a segment with a lower version under a
    key than the one it found there. *)
Lemma Put_body_versions typ acc s :
  typ = SegmentTypeGrowing ∨ typ = SegmentTypeSealed →
  (∀ p, Version (store (Put_body typ acc s).1) p = Version (store acc.1) p)
  ∧ (∀ typ' id x, segmentsOf typ' acc.1 !! id = Some x →
       ∃ x', segmentsOf typ' (Put_body typ acc s).1 !! id = Some x'
             ∧ Version (store acc.1) x <= Version (store acc.1) x').
Proof.
  intros Htyp. destruct acc as [w r]. unfold Put_body. cbn [fst].
  destruct (segmentsOf_with_segmentsOf typ (<[ID s := s]> (segmentsOf typ w)) w Htyp)
    as (E1 & _ & E3 & _).
  destruct (segmentsOf typ w !! ID s) as [old|] eqn:Hold; [case_bool_decide as Hv|];
    cbn [fst].
  - split; [intros p; apply Version_Release|].
    intros typ' id x Hx. exists x. by rewrite segmentsOf_with_store.
  - rewrite E3. split; [done|].
    intros typ' id x Hx.
    destruct (decide (typ' = typ)) as [->|Hne].
    + rewrite E1. destruct (decide (ID s = id)) as [<-|Hid].
      * exists s. rewrite lookup_insert_eq. split; [done|].
        rewrite Hold in Hx. injection Hx as <-. lia.
      * exists x. by rewrite lookup_insert_ne.
    + exists x. by rewrite segmentsOf_with_segmentsOf_ne.
  - rewrite E3. split; [done|].
    intros typ' id x Hx.
    destruct (decide (typ' = typ)) as [->|Hne].
    + rewrite E1. destruct (decide (ID s = id)) as [<-|Hid]; [congruence|].
      exists x. by rewrite lookup_insert_ne.
    + exists x. by rewrite segmentsOf_with_segmentsOf_ne.
Qed.

Lemma Put_fold_versions typ segments acc :
  typ = SegmentTypeGrowing ∨ typ = SegmentTypeSealed →
  (∀ p, Version (store (fold_left (Put_body typ) segments acc).1) p
        = Version (store acc.1) p)
  ∧ (∀ typ' id x, segmentsOf typ' acc.1 !! id = Some x →
       ∃ x', segmentsOf typ' (fold_left (Put_body typ) segments acc).1 !! id = Some x'
             ∧ Version (store acc.1) x <= Version (store acc.1) x').
Proof.
  intros Htyp. revert acc.
  induction segments as [|s segments IH]; intros acc.
  - split; [done|]. intros typ' id x Hx. exists x. split; [done|lia].
  - cbn [fold_left].
    destruct (Put_body_versions typ acc s Htyp) as [Hv1 Hm1].
    destruct (IH (Put_body typ acc s)) as [Hv2 Hm2].
    split; [intros p; by rewrite Hv2|].
    intros typ' id x Hx.
    destruct (Hm1 typ' id x Hx) as (x1 & Hx1 & Hle1).
    destruct (Hm2 typ' id x1 Hx1) as (x2 & Hx2 & Hle2).
    exists x2. split; [done|]. rewrite !Hv1 in Hle2. lia.
Qed.

Lemma UpdateBy_IncreaseVersion_Version o v filters w p :
  Version (store w) p <= Version (store (UpdateBy o (IncreaseVersion v) filters w).1) p.
Proof.
  unfold UpdateBy.
  apply (rangeWithFilter_ind _ (fun wa => Version (store w) p <= Version (store wa.1) p));
    [|cbn; lia].
  intros id typ segment [w1 updated] HP. cbn [fst] in HP.
  rewrite IncreaseVersion_unfold.
  case_bool_decide as Hlt; cbn [fst snd store with_store]; [|done].
  unfold Version in *.
  destruct (decide (segment = p)) as [->|Hne].
  - rewrite fn_lookup_insert. cbn. lia.
  - by rewrite fn_lookup_insert_ne.
Qed.

(** Within one map: across any one operation (a [Put], a [Remove], a
    [RemoveBy], a [Clear], an [UpdateBy] with the [IncreaseVersion] action,
    or the run of the deferred releases), for either map and every id, when
    the map holds a segment for the id before the operation and holds one
    after it, the version of the one held after is not lower than the
    version of the one held before. *)
Theorem stored_version_never_decreases (op : Op) (w w' : World)
    (typ : SegmentType) (id : Z) (s s' : Segment) :
  apply_op op w = Some w' →
  segmentsOf typ w !! id = Some s →
  segmentsOf typ w' !! id = Some s' →
  Version (store w) s <= Version (store w') s'.
Proof.
  intros Hop Hs Hs'.
  assert (Hshrink : ∀ w1,
            growingSegments w1 ⊆ growingSegments w →
            sealedSegments w1 ⊆ sealedSegments w →
            (∀ p, Version (store w1) p = Version (store w) p) →
            segmentsOf typ w1 !! id = Some s' →
            Version (store w) s <= Version (store w1) s').
  { intros w1 Hg Hsl Hv Hs1.
    pose proof (segmentsOf_shrink typ w w1 Hg Hsl) as Hsub.
    pose proof (lookup_weaken _ _ _ _ Hs1 Hsub) as Hs2.
    rewrite Hs in Hs2. injection Hs2 as ->. rewrite Hv. lia. }
  destruct op as [ptyp segments|rid scope|o filters|o|o v filters|];
    cbn [apply_op] in Hop.
  - unfold Put in Hop.
    assert (Htyp : ptyp = SegmentTypeGrowing ∨ ptyp = SegmentTypeSealed)
      by (destruct ptyp; auto; done).
    destruct (Put_fold_versions ptyp segments (w, []) Htyp) as [Hv Hm].
    destruct (fold_left (Put_body ptyp) segments (w, [])) as [w1 r].
    assert (w' = with_releaseQueue (releaseQueue w1 ++ r) w1) as ->
      by (destruct Htyp as [-> | ->]; congruence).
    cbn [fst] in *. rewrite segmentsOf_with_releaseQueue in Hs'.
    destruct (Hm typ id s Hs) as (x & Hx & Hle).
    rewrite Hx in Hs'. injection Hs' as ->.
    cbn [store with_releaseQueue]. by rewrite Hv.
  - injection Hop as <-. destruct (Remove_shrink rid scope w).
    apply Hshrink; auto. intros p. apply Remove_Version.
  - injection Hop as <-. destruct (RemoveBy_shrink o filters w).
    apply Hshrink; auto. intros p. apply RemoveBy_Version.
  - injection Hop as <-. destruct typ; done.
  - injection Hop as <-.
    destruct (UpdateBy_maps o (IncreaseVersion v) filters w) as (Eg & Es & _).
    assert (segmentsOf typ (UpdateBy o (IncreaseVersion v) filters w).1
            = segmentsOf typ w) as E by (destruct typ; done).
    rewrite E, Hs in Hs'. injection Hs' as ->.
    apply UpdateBy_IncreaseVersion_Version.
  - injection Hop as <-. apply Hshrink; auto.
    intros p. apply runReleases_Version.
Qed.

Lemma stored_version_never_decreases_witness :
  Version (store worldWithSegment7) oldSegment7
  <= Version (store (with_releaseQueue [oldSegment7]
                       (with_sealed {[7 := newSegment7]} worldWithSegment7)))
       newSegment7.
Proof.
  apply (stored_version_never_decreases
           (OpPut SegmentTypeSealed [newSegment7]) worldWithSegment7 _
           SegmentTypeSealed 7).
  - vm_compute. reflexivity.
  - vm_compute. reflexivity.
  - vm_compute. reflexivity.
Defined.

(** ** Filtered iteration against plain filtering *)

(** The hints [extractHints] computes, read off the filter list. *)
Lemma elem_of_cons_other (x f : SegmentFilter) filters :
  x ≠ f → x ∈ f :: filters ↔ x ∈ filters.
Proof.
  intros Hne. rewrite elem_of_cons. split; [intros [?|?]; done|auto].
Qed.

Lemma exists_elem_of_cons_other {B} (mk : B → SegmentFilter) f filters :
  (∀ b, mk b ≠ f) → (∃ b, mk b ∈ f :: filters) ↔ ∃ b, mk b ∈ filters.
Proof.
  intros Hne. split; intros [b Hb]; exists b.
  - by apply elem_of_cons_other in Hb.
  - by apply elem_of_cons_other.
Qed.

(** The hints [extractHints] computes, read off the filter list. *)
Lemma hints_fold_merged filters h st s :
  mergedFilter (otherFilters (fold_left hints_body filters h)) st s =
    mergedFilter (otherFilters h) st s && forallb (passes_unhinted st s) filters.
Proof.
  revert h. induction filters as [|f filters IH]; intros h.
  - cbn [fold_left forallb]. by rewrite andb_true_r.
  - cbn [fold_left forallb]. rewrite IH.
    destruct f as [g|i0|t0]; cbn [hints_body FilterSegmentType FilterSegmentIDs
                                   passes_unhinted otherFilters]; [|done|done].
    unfold mergedFilter. rewrite forallb_app. cbn [forallb Filter].
    rewrite andb_true_r. by rewrite andb_assoc.
Qed.

Lemma hints_fold filters h :
  let h' := fold_left hints_body filters h in
  (∀ i, i ∈ segmentIDs h' ↔ i ∈ segmentIDs h ∨ SegmentIDFilter i ∈ filters)
  ∧ (hasSegIDs h' = true ↔ hasSegIDs h = true ∨ ∃ i, SegmentIDFilter i ∈ filters)
  ∧ (hasSegType h' = true ↔ hasSegType h = true ∨ ∃ t, SegmentTypeFilter t ∈ filters)
  ∧ ((segType h' = segType h ∧ ∀ t, SegmentTypeFilter t ∉ filters)
     ∨ SegmentTypeFilter (segType h') ∈ filters).
Proof.
  revert h. induction filters as [|f filters IH]; intros h; cbn zeta.
  - cbn [fold_left].
    split; [intros i; rewrite elem_of_nil; tauto|].
    split; [split; [auto|intros [?|[i Hi]]; [done|by apply elem_of_nil in Hi]]|].
    split; [split; [auto|intros [?|[i Hi]]; [done|by apply elem_of_nil in Hi]]|].
    left. split; [done|]. intros t Ht. by apply elem_of_nil in Ht.
  - cbn [fold_left].
    destruct (IH (hints_body h f)) as (Hi & Hsi & Hst & Hty). clear IH.
    destruct f as [g|i0|t0];
      cbn [hints_body FilterSegmentType FilterSegmentIDs
           segType hasSegType hasSegIDs segmentIDs] in *.
    + split; [intros i; by rewrite Hi, elem_of_cons_other|].
      split; [by rewrite Hsi, (exists_elem_of_cons_other SegmentIDFilter)|].
      split; [by rewrite Hst, (exists_elem_of_cons_other SegmentTypeFilter)|].
      destruct Hty as [[E Hn]|Hin]; [left|right; by apply list_elem_of_further].
      split; [done|]. intros t. rewrite elem_of_cons_other by done. apply Hn.
    + split.
      { intros i. rewrite Hi, elem_of_union, elem_of_list_to_set,
          list_elem_of_singleton, elem_of_cons.
        split; [intros [[?| -> ]|?]; auto|].
        intros [?|[E|?]]; auto. injection E as ->. auto. }
      split.
      { split; [intros _; right; exists i0; apply list_elem_of_here|].
        intros _. apply Hsi. by left. }
      split; [by rewrite Hst, (exists_elem_of_cons_other SegmentTypeFilter)|].
      destruct Hty as [[E Hn]|Hin]; [left|right; by apply list_elem_of_further].
      split; [done|]. intros t. rewrite elem_of_cons_other by done. apply Hn.
    + split; [intros i; by rewrite Hi, elem_of_cons_other|].
      split; [by rewrite Hsi, (exists_elem_of_cons_other SegmentIDFilter)|].
      split.
      { split; [intros _; right; exists t0; apply list_elem_of_here|].
        intros _. apply Hst. by left. }
      right. destruct Hty as [[E _]|Hin]; [|by apply list_elem_of_further].
      rewrite E. apply list_elem_of_here.
Qed.

Lemma extractHints_spec filters :
  let h := extractHints filters in
  (∀ st s, mergedFilter (otherFilters h) st s = forallb (passes_unhinted st s) filters)
  ∧ (∀ i, i ∈ segmentIDs h ↔ SegmentIDFilter i ∈ filters)
  ∧ (hasSegIDs h = true ↔ ∃ i, SegmentIDFilter i ∈ filters)
  ∧ (hasSegType h = true ↔ ∃ t, SegmentTypeFilter t ∈ filters)
  ∧ (hasSegType h = true → SegmentTypeFilter (segType h) ∈ filters)
  ∧ (hasSegType h = false → segType h = SegmentStateNone).
Proof.
  cbn zeta. unfold extractHints.
  destruct (hints_fold filters noHints) as (Hi & Hsi & Hst & Hty).
  cbn [noHints segType hasSegType hasSegIDs segmentIDs] in *.
  split; [intros st s; by rewrite hints_fold_merged|].
  split.
  { intros i. rewrite Hi. split; [intros [H|?]; [by apply elem_of_empty in H|done]|auto]. }
  split; [rewrite Hsi; split; [intros [?|?]; done|auto]|].
  split; [rewrite Hst; split; [intros [?|?]; done|auto]|].
  split.
  - intros Ht. apply Hst in Ht as [?|[t Ht]]; [done|].
    destruct Hty as [[_ Hn]|?]; [|done]. by destruct (Hn t).
  - intros Hf. destruct Hty as [[? _]|Hin]; [done|].
    assert (hasSegType (fold_left hints_body filters noHints) = true)
      by (apply Hst; eauto).
    congruence.
Qed.

(** What [GetBy] collects, loop by loop. *)
Lemma GetBy_rangeLoop others typ ids w ret :
  rangeLoop (fun _ _ segment '(w, ret) => (true, (w, ret ++ [segment])))
    others typ ids (w, ret)
  = (w, ret ++ omap (visited others typ w) ids).
Proof.
  revert ret. induction ids as [|id ids IH]; intros ret.
  - cbn. by rewrite app_nil_r.
  - cbn [rangeLoop fst].
    change (omap (visited others typ w) (id :: ids))
      with (match visited others typ w id with
            | Some y => y :: omap (visited others typ w) ids
            | None => omap (visited others typ w) ids
            end).
    unfold visited at 1.
    destruct (segmentsOf typ w !! id) as [segment|]; [|apply IH].
    destruct (mergedFilter others (store w) segment); [|apply IH].
    rewrite IH. by rewrite <- app_assoc.
Qed.

Lemma GetBy_candidates o h typs w ret :
  fold_left
    (rangeCandidate (fun _ _ segment '(w, ret) => (true, (w, ret ++ [segment]))) o h)
    typs (w, ret)
  = (w, ret ++ (typs ≫= fun typ => omap (visited (otherFilters h) typ w)
                                     (visitOrder o h typ w))).
Proof.
  revert ret. induction typs as [|typ typs IH]; intros ret.
  - cbn. by rewrite app_nil_r.
  - cbn [fold_left mbind list_bind]. unfold rangeCandidate at 2.
    rewrite GetBy_rangeLoop. cbn [fst]. rewrite IH. by rewrite <- app_assoc.
Qed.

Lemma elem_of_GetBy o filters w s :
  s ∈ GetBy o filters w ↔
  ∃ typ id, typ ∈ candidates o (extractHints filters)
    ∧ id ∈ visitOrder o (extractHints filters) typ w
    ∧ segmentsOf typ w !! id = Some s
    ∧ mergedFilter (otherFilters (extractHints filters)) (store w) s = true.
Proof.
  unfold GetBy, rangeWithFilter. rewrite GetBy_candidates. cbn [snd app].
  rewrite list_elem_of_bind. split.
  - intros (typ & Hs & Htyp).
    apply list_elem_of_omap in Hs as (id & Hid & Hv).
    exists typ, id. unfold visited in Hv.
    destruct (segmentsOf typ w !! id) as [x|]; [|done].
    destruct (mergedFilter _ _ x) eqn:E; [|done].
    by injection Hv as ->.
  - intros (typ & id & Htyp & Hid & Hs & Hm).
    exists typ. split; [|done].
    apply list_elem_of_omap. exists id. split; [done|].
    unfold visited. by rewrite Hs, Hm.
Qed.

Lemma candidates_sound o h typ :
  typ ∈ candidates o h →
  (typ = SegmentTypeGrowing ∨ typ = SegmentTypeSealed)
  ∧ (hasSegType h = true → typ = segType h).
Proof.
  unfold candidates.
  destruct (segType h), (hasSegType h), (sealedFirst o);
    rewrite ?elem_of_cons, ?elem_of_nil; intros H; split; intros; intuition (try done).
Qed.

Lemma candidates_complete o h typ :
  typ = SegmentTypeGrowing ∨ typ = SegmentTypeSealed →
  (hasSegType h = true → typ = segType h) →
  (hasSegType h = false → segType h = SegmentStateNone) →
  typ ∈ candidates o h.
Proof.
  unfold candidates. intros Htyp H1 H0.
  destruct (hasSegType h).
  - rewrite <- (H1 eq_refl).
    destruct Htyp as [-> | ->]; apply list_elem_of_here.
  - rewrite (H0 eq_refl).
    destruct (sealedFirst o), Htyp as [-> | ->];
      rewrite !elem_of_cons; auto.
Qed.

Lemma segmentsOf_Some typ w id s :
  segmentsOf typ w !! id = Some s → typ = SegmentTypeGrowing ∨ typ = SegmentTypeSealed.
Proof. destruct typ; cbn; rewrite ?lookup_empty; auto; done. Qed.

Lemma filter_true st s filters :
  filter st s filters = true ↔ ∀ f, f ∈ filters → Filter f st s = true.
Proof.
  unfold filter. rewrite forallb_forall.
  split; intros H f Hf; apply H; by apply list_elem_of_In.
Qed.

Lemma elem_of_GetBy_naive filters w s :
  s ∈ GetBy_naive filters w ↔ stored w s ∧ filter (store w) s filters = true.
Proof.
  unfold GetBy_naive, stored.
  rewrite list_elem_of_In, filter_In, <- list_elem_of_In, elem_of_app,
    !list_elem_of_fmap.
  split.
  - intros [[([id x] & -> & Hin)|([id x] & -> & Hin)] Hf]; split; try done;
      apply elem_of_map_to_list in Hin.
    + by exists SegmentTypeGrowing, id.
    + by exists SegmentTypeSealed, id.
  - intros [(typ & id & Hs) Hf]. split; [|done].
    destruct (segmentsOf_Some typ w id s Hs) as [-> | ->]; [left|right];
      exists (id, s); split; try done; by apply elem_of_map_to_list.
Qed.

(** ** Entries are keyed by the id of their segment *)

Lemma otherType_cases typ typ' :
  typ = SegmentTypeGrowing ∨ typ = SegmentTypeSealed →
  typ' = SegmentTypeGrowing ∨ typ' = SegmentTypeSealed →
  typ' = typ ∨ typ' = otherType typ.
Proof. intros [-> | ->] [-> | ->]; cbn; auto. Qed.

Lemma Put_fold_keyed typ segments acc :
  typ = SegmentTypeGrowing ∨ typ = SegmentTypeSealed →
  keyed_by_ID acc.1 → keyed_by_ID (fold_left (Put_body typ) segments acc).1.
Proof.
  intros Htyp. revert acc.
  induction segments as [|s segments IH]; intros acc Hkey; [done|].
  cbn [fold_left]. apply IH.
  destruct (Put_body_maps typ acc s Htyp) as [Eo Et].
  intros typ' id x Hx.
  destruct (otherType_cases typ typ' Htyp (segmentsOf_Some _ _ _ _ Hx)) as [-> | ->].
  - destruct Et as [Et|Et]; rewrite Et in Hx; [by eapply Hkey|].
    apply lookup_insert_Some in Hx as [[<- <-]|[_ Hx]]; [done|by eapply Hkey].
  - rewrite Eo in Hx. by eapply Hkey.
Qed.

Lemma keyed_by_ID_shrink w w' :
  growingSegments w' ⊆ growingSegments w →
  sealedSegments w' ⊆ sealedSegments w →
  keyed_by_ID w → keyed_by_ID w'.
Proof.
  intros Hg Hs Hkey typ id x Hx. apply (Hkey typ).
  eapply lookup_weaken; [exact Hx|]. by apply segmentsOf_shrink.
Qed.

Lemma apply_op_keyed op w w' :
  apply_op op w = Some w' → keyed_by_ID w → keyed_by_ID w'.
Proof.
  destruct op as [typ segments|id scope|o filters|o|o v filters|];
    cbn [apply_op]; intros Hop Hkey.
  - unfold Put in Hop.
    assert (Htyp : typ = SegmentTypeGrowing ∨ typ = SegmentTypeSealed)
      by (destruct typ; auto; done).
    pose proof (Put_fold_keyed typ segments (w, []) Htyp Hkey) as Hkey'.
    destruct (fold_left (Put_body typ) segments (w, [])) as [w1 r].
    assert (w' = with_releaseQueue (releaseQueue w1 ++ r) w1) as ->
      by (destruct Htyp as [-> | ->]; congruence).
    intros typ' id x. rewrite segmentsOf_with_releaseQueue. apply Hkey'.
  - injection Hop as <-. destruct (Remove_shrink id scope w).
    by eapply keyed_by_ID_shrink.
  - injection Hop as <-. destruct (RemoveBy_shrink o filters w).
    by eapply keyed_by_ID_shrink.
  - injection Hop as <-. intros typ id x Hx.
    by destruct typ; cbn in Hx; rewrite lookup_empty in Hx.
  - injection Hop as <-.
    destruct (UpdateBy_maps o (IncreaseVersion v) filters w) as (Eg & Es & _).
    intros typ id x Hx. apply (Hkey typ). by destruct typ; cbn in *; rewrite <- ?Eg, <- ?Es.
  - injection Hop as <-. intros typ id x. unfold runReleases.
    rewrite segmentsOf_with_releaseQueue, segmentsOf_with_store. apply Hkey.
Qed.

(** Every manager that a sequence of operations builds from the empty one
    keys its entries by the id of their segment. *)
Lemma run_keyed_by_ID ops st w :
  run ops (NewSegmentManager st) = Some w → keyed_by_ID w.
Proof.
  assert (Hgen : ∀ ops w0, keyed_by_ID w0 → run ops w0 = Some w → keyed_by_ID w).
  { clear ops. induction ops as [|op ops IH]; intros w0 Hkey Hrun.
    - cbn in Hrun. by injection Hrun as <-.
    - cbn [run] in Hrun.
      destruct (apply_op op w0) as [w1|] eqn:E; [|done].
      eapply IH; [|exact Hrun]. by eapply apply_op_keyed. }
  apply Hgen. intros typ id x Hx.
  by destruct typ; cbn in Hx; rewrite lookup_empty in Hx.
Qed.

(** C6 (as the code has it): in a manager whose entries are keyed by their
    segment's id and agree with their map's type, and for a filter list
    whose type filters all name the same type and whose id filters all name
    the same id, [GetBy] returns exactly the segments of the two maps that
    pass every filter: the narrowing by the hints does not change the set
    of results. *)
Theorem GetBy_refines_naive (o : RangeOrder) (filters : list SegmentFilter) (w : World) :
  keyed_by_ID w →
  type_agreement w →
  hints_agree filters →
  ∀ s, s ∈ GetBy o filters w ↔ s ∈ GetBy_naive filters w.
Proof.
  intros Hkey Htype [Hat Hai] s.
  destruct (extractHints_spec filters) as (Hm & Hids & Hhas & Hht & Hst1 & Hst0).
  rewrite elem_of_GetBy, elem_of_GetBy_naive, filter_true.
  set (h := extractHints filters) in *.
  split.
  - intros (typ & id & Htyp & Hid & Hs & Hmf).
    destruct (candidates_sound o h typ Htyp) as [HGS Hseg].
    split; [by exists typ, id|].
    intros f Hf. destruct f as [g|i|t]; cbn [Filter].
    + rewrite Hm, forallb_forall in Hmf.
      apply (Hmf (SegmentFilterFunc g)). by apply list_elem_of_In.
    + apply bool_decide_eq_true_2. rewrite (Hkey typ id s Hs).
      assert (Hhi : hasSegIDs h = true) by (apply Hhas; eauto).
      unfold visitOrder in Hid. rewrite Hhi in Hid.
      rewrite (rangeIDs_perm o) in Hid.
      apply elem_of_elements, Hids in Hid. by apply Hai.
    + apply bool_decide_eq_true_2. rewrite (Htype typ id s Hs).
      assert (Hhty : hasSegType h = true) by (apply Hht; eauto).
      rewrite (Hseg Hhty). apply Hat; auto.
  - intros ((typ & id & Hs) & Hf).
    exists typ, id. split; [|split; [|split; [done|]]].
    + apply candidates_complete; [by eapply segmentsOf_Some| |done].
      intros Hhty. specialize (Hf _ (Hst1 Hhty)). cbn [Filter] in Hf.
      apply bool_decide_eq_true_1 in Hf. rewrite <- Hf. symmetry. by eapply Htype.
    + unfold visitOrder. destruct (hasSegIDs h) eqn:Hhi.
      * destruct (proj1 Hhas eq_refl) as [i Hi].
        pose proof (Hf _ Hi) as Hfi. cbn [Filter] in Hfi.
        apply bool_decide_eq_true_1 in Hfi.
        rewrite (Hkey typ id s Hs) in Hfi. subst i.
        rewrite (rangeIDs_perm o). by apply elem_of_elements, Hids.
      * apply list_elem_of_fmap. exists (id, s). split; [done|].
        rewrite (rangeSegments_perm o). by apply elem_of_map_to_list.
    + rewrite Hm, forallb_forall. intros f Hin.
      apply list_elem_of_In in Hin. specialize (Hf f Hin).
      by destruct f.
Qed.

Lemma worldWithTwoSealed_invariants :
  keyed_by_ID worldWithTwoSealed ∧ type_agreement worldWithTwoSealed.
Proof.
  split; intros typ id s H; destruct typ; cbn in H;
    rewrite ?lookup_empty in H; try done;
    apply lookup_insert_Some in H as [[<- <-]|[_ H]]; try done;
    by apply lookup_singleton_Some in H as [<- <-].
Qed.

Lemma GetBy_refines_naive_witness :
  sealedSegment2 ∈ GetBy canonicalOrder
                     [WithType SegmentTypeSealed; WithID 2; WithLevel SegmentLevel_L1]
                     worldWithTwoSealed
  ↔ sealedSegment2 ∈ GetBy_naive
                       [WithType SegmentTypeSealed; WithID 2; WithLevel SegmentLevel_L1]
                       worldWithTwoSealed.
Proof.
  apply (GetBy_refines_naive canonicalOrder _ worldWithTwoSealed).
  - apply worldWithTwoSealed_invariants.
  - apply worldWithTwoSealed_invariants.
  - split; intros x y Hx Hy;
      repeat (apply elem_of_cons in Hx as [Hx|Hx]; [try discriminate Hx|]);
      repeat (apply elem_of_cons in Hy as [Hy|Hy]; [try discriminate Hy|]);
      try (by apply elem_of_nil in Hx); try (by apply elem_of_nil in Hy);
      congruence.
Defined.

(** C6 as stated does not hold.  The manager with the sealed segments 1 and
    2 satisfies type agreement.  With two type filters, Growing then Sealed,
    [GetBy] scans the sealed map and returns both segments, while no segment
    passes both type predicates.  With two id filters, 1 and 2, [GetBy]
    looks both ids up and returns both segments, while no segment passes
    both id predicates. *)
Lemma GetBy_differs_from_naive :
  type_agreement worldWithTwoSealed
  ∧ GetBy canonicalOrder twoTypeFilters worldWithTwoSealed = [sealedSegment2; sealedSegment1]
  ∧ GetBy_naive twoTypeFilters worldWithTwoSealed = []
  ∧ GetBy canonicalOrder twoIDFilters worldWithTwoSealed = [sealedSegment2; sealedSegment1]
  ∧ GetBy_naive twoIDFilters worldWithTwoSealed = [].
Proof.
  split; [apply worldWithTwoSealed_invariants|].
  repeat split; by vm_compute.
Qed.

(** ** Versions as Get sees them *)

(** A key that is new in a map after an operation was put there, and a
    [Put] that keeps clear of the other map only puts ids that the other
    map does not hold. *)
Lemma Put_fold_new_key typ segments acc typ' id x :
  typ = SegmentTypeGrowing ∨ typ = SegmentTypeSealed →
  segmentsOf typ' acc.1 !! id = None →
  segmentsOf typ' (fold_left (Put_body typ) segments acc).1 !! id = Some x →
  typ' = typ ∧ ∃ s, s ∈ segments ∧ ID s = id.
Proof.
  intros Htyp. revert acc.
  induction segments as [|s segments IH]; intros acc Hnone Hx;
    [cbn in Hx; congruence|].
  cbn [fold_left] in Hx.
  destruct (segmentsOf typ' (Put_body typ acc s).1 !! id) as [y|] eqn:Hy.
  - destruct (Put_body_maps typ acc s Htyp) as [Eo Et].
    destruct (otherType_cases typ typ' Htyp (segmentsOf_Some _ _ _ _ Hy)) as [-> | ->].
    + split; [done|]. exists s. split; [apply list_elem_of_here|].
      destruct Et as [Et|Et]; rewrite Et in Hy; [congruence|].
      apply lookup_insert_Some in Hy as [[? _]|[_ ?]]; [done|congruence].
    + rewrite Eo in Hy. congruence.
  - destruct (IH _ Hy Hx) as [-> (s0 & Hs0 & Hid)]. split; [done|].
    exists s0. split; [by apply list_elem_of_further|done].
Qed.

Lemma apply_op_new_key op w w' typ id x :
  op_disjoint op w →
  apply_op op w = Some w' →
  segmentsOf typ w !! id = None →
  segmentsOf typ w' !! id = Some x →
  segmentsOf (otherType typ) w !! id = None.
Proof.
  intros Hdis Hop Hnone Hx.
  assert (Hshrink : ∀ w1,
            growingSegments w1 ⊆ growingSegments w →
            sealedSegments w1 ⊆ sealedSegments w →
            segmentsOf typ w1 !! id = Some x → False).
  { intros w1 Hg Hs Hx1.
    pose proof (lookup_weaken _ _ _ _ Hx1 (segmentsOf_shrink typ w w1 Hg Hs)).
    congruence. }
  destruct op as [ptyp segments|rid scope|o filters|o|o v filters|];
    cbn [apply_op op_disjoint] in *.
  - unfold Put in Hop.
    assert (Htyp : ptyp = SegmentTypeGrowing ∨ ptyp = SegmentTypeSealed)
      by (destruct ptyp; auto; done).
    pose proof (Put_fold_new_key ptyp segments (w, []) typ id x Htyp Hnone) as Hnew.
    destruct (fold_left (Put_body ptyp) segments (w, [])) as [w1 r].
    assert (w' = with_releaseQueue (releaseQueue w1 ++ r) w1) as ->
      by (destruct Htyp as [-> | ->]; congruence).
    rewrite segmentsOf_with_releaseQueue in Hx.
    destruct (Hnew Hx) as [-> (s & Hs & <-)].
    by apply (proj1 (Forall_forall _ _) Hdis).
  - injection Hop as <-. destruct (Remove_shrink rid scope w).
    by destruct (Hshrink (Remove rid scope w).1).
  - injection Hop as <-. destruct (RemoveBy_shrink o filters w).
    by destruct (Hshrink (RemoveBy o filters w).1).
  - injection Hop as <-. destruct typ; cbn in Hx; by rewrite ?lookup_empty in Hx.
  - injection Hop as <-.
    destruct (UpdateBy_maps o (IncreaseVersion v) filters w) as (Eg & Es & _).
    by destruct (Hshrink (UpdateBy o (IncreaseVersion v) filters w).1);
      rewrite ?Eg, ?Es.
  - injection Hop as <-. by destruct (Hshrink (runReleases w)).
Qed.

Lemma Get_Some id w s :
  Get id w = Some s ↔
  growingSegments w !! id = Some s
  ∨ (growingSegments w !! id = None ∧ sealedSegments w !! id = Some s).
Proof.
  unfold Get. destruct (growingSegments w !! id) as [g|]; split.
  - intros [= <-]. by left.
  - intros [[= <-]|[? _]]; done.
  - intros H. by right.
  - intros [?|[_ ?]]; done.
Qed.

(** C5 (as the code has it): across any one operation (a [Put], a
    [Remove], a [RemoveBy], a [Clear], an [UpdateBy] with the
    [IncreaseVersion] action, or the run of the deferred releases) and for
    every id, the version of the segment stored for the id does not
    decrease, when "stored for the id" is read within one map (the same map
    holds a segment for the id before and after), or is read through [Get]
    in a manager in which no id is in both maps and the operation, if a
    [Put], carries only ids that are not keys of the other map. *)
Theorem version_never_decreases (op : Op) (w w' : World) (id : Z) (s s' : Segment) :
  apply_op op w = Some w' →
  (∃ typ, segmentsOf typ w !! id = Some s ∧ segmentsOf typ w' !! id = Some s')
  ∨ (exclusive w ∧ op_disjoint op w ∧ Get id w = Some s ∧ Get id w' = Some s') →
  Version (store w) s <= Version (store w') s'.
Proof.
  intros Hop [(typ & Hs & Hs')|(Hex & Hdis & HG & HG')].
  - by eapply stored_version_never_decreases.
  - apply Get_Some in HG, HG'.
    destruct HG as [Hg|[Hg Hsl]].
    + destruct HG' as [Hg'|[Hg' Hsl']].
      * by apply (stored_version_never_decreases op w w' SegmentTypeGrowing id).
      * destruct (Hex id) as [Hn|Hn]; [congruence|].
        pose proof (apply_op_new_key op w w' SegmentTypeSealed id s'
                      Hdis Hop Hn Hsl') as Hc.
        cbn in Hc. congruence.
    + destruct HG' as [Hg'|[Hg' Hsl']].
      * pose proof (apply_op_new_key op w w' SegmentTypeGrowing id s'
                      Hdis Hop Hg Hg') as Hc.
        cbn in Hc. congruence.
      * by apply (stored_version_never_decreases op w w' SegmentTypeSealed id).
Qed.

Lemma version_never_decreases_witness :
  Version (store worldWithSegment7) oldSegment7
  <= Version (store (with_releaseQueue [oldSegment7]
                       (with_sealed {[7 := newSegment7]} worldWithSegment7)))
       newSegment7.
Proof.
  apply (version_never_decreases
           (OpPut SegmentTypeSealed [newSegment7]) worldWithSegment7 _ 7).
  - vm_compute. reflexivity.
  - right. split; [|split; [|split]].
    + intros id. left. apply lookup_empty.
    + cbn. repeat constructor.
    + vm_compute. reflexivity.
    + vm_compute. reflexivity.
Defined.

(** C5 as stated does not hold of what [Get] finds for an id.  The sealed
    segment 7, at version 5, is put into the empty manager; then the
    growing segment with the same id, at version 3, is put.  Each segment
    is of the type it is put as.  [Put] looks at the target map only and
    [Get] looks at the growing map first: [Get 7] finds version 5 before
    the second [Put] and version 3 after it. *)
Lemma Get_version_decreases :
  ∃ w w',
    run [OpPut SegmentTypeSealed [oldSegment7]] (NewSegmentManager storeSealed5Growing3)
      = Some w
    ∧ apply_op (OpPut SegmentTypeGrowing [growingSegment7]) w = Some w'
    ∧ Get 7 w = Some oldSegment7
    ∧ Get 7 w' = Some growingSegment7
    ∧ Version (store w) oldSegment7 = 5
    ∧ Version (store w') growingSegment7 = 3.
Proof.
  eexists. eexists. split; [reflexivity|]. split; [reflexivity|].
  repeat split; by vm_compute.
Qed.

(** * Further properties of the manager *)

(** ** Put: fresh ids, lookups afterwards, composition *)

Lemma with_releaseQueue_same w : with_releaseQueue (releaseQueue w) w = w.
Proof. by destruct w. Qed.

Lemma with_segmentsOf_releaseQueue typ m w :
  releaseQueue (with_segmentsOf typ m w) = releaseQueue w.
Proof. by destruct typ. Qed.

Lemma GetWithType_segmentsOf id typ w : GetWithType id typ w = segmentsOf typ w !! id.
Proof. destruct typ; cbn; by rewrite ?lookup_empty. Qed.

(** [Put] of one segment whose id is not in the target map stores it under
    its id and does nothing else: no segment is released, nothing is queued
    for release, and the map of the other type is untouched.  The segment is
    found by [GetWithType] afterwards. *)
Theorem Put_fresh (segmentType : SegmentType) (s : Segment) (w : World) :
  segmentType = SegmentTypeGrowing ∨ segmentType = SegmentTypeSealed →
  segmentsOf segmentType w !! ID s = None →
  ∃ w', Put segmentType [s] w = Some w'
    ∧ segmentsOf segmentType w' = <[ID s := s]> (segmentsOf segmentType w)
    ∧ segmentsOf (otherType segmentType) w' = segmentsOf (otherType segmentType) w
    ∧ store w' = store w
    ∧ releaseQueue w' = releaseQueue w
    ∧ GetWithType (ID s) segmentType w' = Some s.
Proof.
  intros Htyp Hnone.
  exists (with_segmentsOf segmentType (<[ID s := s]> (segmentsOf segmentType w)) w).
  destruct (segmentsOf_with_segmentsOf segmentType
              (<[ID s := s]> (segmentsOf segmentType w)) w Htyp) as (E1 & E2 & E3 & E4).
  split.
  - unfold Put, Put_body. cbn [fold_left]. rewrite Hnone.
    rewrite E4, app_nil_r, <- E4, with_releaseQueue_same.
    by destruct Htyp as [-> | ->].
  - rewrite GetWithType_segmentsOf, E1, E2, E3, E4.
    repeat split; try done. apply lookup_insert_eq.
Qed.

Lemma Put_fresh_witness :
  ∃ w', Put SegmentTypeGrowing [growingSegment7] worldWithSegment7 = Some w'
    ∧ segmentsOf SegmentTypeGrowing w' =
        <[ID growingSegment7 := growingSegment7]> (segmentsOf SegmentTypeGrowing worldWithSegment7)
    ∧ segmentsOf (otherType SegmentTypeGrowing) w' =
        segmentsOf (otherType SegmentTypeGrowing) worldWithSegment7
    ∧ store w' = store worldWithSegment7
    ∧ releaseQueue w' = releaseQueue worldWithSegment7
    ∧ GetWithType (ID growingSegment7) SegmentTypeGrowing w' = Some growingSegment7.
Proof.
  apply (Put_fresh SegmentTypeGrowing growingSegment7 worldWithSegment7).
  - left. reflexivity.
  - vm_compute. reflexivity.
Defined.

Lemma Put_unfold typ segments w w' :
  Put typ segments w = Some w' →
  (typ = SegmentTypeGrowing ∨ typ = SegmentTypeSealed)
  ∧ w' = with_releaseQueue
           (releaseQueue (fold_left (Put_body typ) segments (w, [])).1
            ++ (fold_left (Put_body typ) segments (w, [])).2)
           (fold_left (Put_body typ) segments (w, [])).1.
Proof.
  unfold Put. intros H.
  destruct (fold_left (Put_body typ) segments (w, [])) as [w1 r].
  destruct typ; try done; injection H as <-; auto.
Qed.

(** After one iteration of [Put] for [s], the target map holds under the id
    of [s] a segment whose version is not lower than that of [s]. *)
Lemma Put_body_stores typ acc s :
  typ = SegmentTypeGrowing ∨ typ = SegmentTypeSealed →
  ∃ x, segmentsOf typ (Put_body typ acc s).1 !! ID s = Some x
       ∧ Version (store acc.1) s <= Version (store acc.1) x.
Proof.
  intros Htyp. destruct acc as [w r]. unfold Put_body. cbn [fst].
  destruct (segmentsOf_with_segmentsOf typ (<[ID s := s]> (segmentsOf typ w)) w Htyp)
    as (E1 & _).
  destruct (segmentsOf typ w !! ID s) as [old|] eqn:Hold; [case_bool_decide as Hv|];
    cbn [fst].
  - exists old. rewrite segmentsOf_with_store. split; [done|lia].
  - exists s. rewrite E1, lookup_insert_eq. split; [done|lia].
  - exists s. rewrite E1, lookup_insert_eq. split; [done|lia].
Qed.

Lemma Put_fold_stores typ segments s acc :
  typ = SegmentTypeGrowing ∨ typ = SegmentTypeSealed →
  s ∈ segments →
  ∃ x, segmentsOf typ (fold_left (Put_body typ) segments acc).1 !! ID s = Some x
       ∧ Version (store acc.1) s <= Version (store acc.1) x
       ∧ ∀ p, Version (store (fold_left (Put_body typ) segments acc).1) p
              = Version (store acc.1) p.
Proof.
  intros Htyp. revert acc.
  induction segments as [|s0 segments IH]; intros acc Hs;
    [by apply elem_of_nil in Hs|].
  cbn [fold_left].
  destruct (Put_body_versions typ acc s0 Htyp) as [Hv1 Hm1].
  destruct (Put_fold_versions typ segments (Put_body typ acc s0) Htyp) as [Hv2 Hm2].
  apply elem_of_cons in Hs as [->|Hs].
  - destruct (Put_body_stores typ acc s0 Htyp) as (x1 & Hx1 & Hle1).
    destruct (Hm2 _ _ _ Hx1) as (x2 & Hx2 & Hle2).
    exists x2. split; [done|]. rewrite !Hv1 in Hle2.
    split; [lia|]. intros p. by rewrite Hv2.
  - destruct (IH (Put_body typ acc s0) Hs) as (x & Hx & Hle & Hv).
    exists x. split; [done|]. rewrite !Hv1 in Hle.
    split; [done|]. intros p. by rewrite Hv, Hv1.
Qed.

(** Whatever [Put] is given and whatever was stored: afterwards, for every
    incoming segment, the target map holds under that segment's id a
    segment whose version is not lower than the incoming one's. *)
Theorem Put_then_GetWithType (segmentType : SegmentType) (segments : list Segment)
    (w w' : World) (s : Segment) :
  Put segmentType segments w = Some w' →
  s ∈ segments →
  ∃ x, GetWithType (ID s) segmentType w' = Some x
       ∧ Version (store w') s <= Version (store w') x.
Proof.
  intros HP Hs. apply Put_unfold in HP as [Htyp ->].
  destruct (Put_fold_stores segmentType segments s (w, []) Htyp Hs)
    as (x & Hx & Hle & Hv). cbn [fst] in *.
  exists x. rewrite GetWithType_segmentsOf, segmentsOf_with_releaseQueue.
  split; [done|]. cbn [store with_releaseQueue]. by rewrite !Hv.
Qed.

Lemma Put_then_GetWithType_witness :
  ∃ x, GetWithType (ID sealedSegment1) SegmentTypeSealed worldWithReleased = Some x
       ∧ Version (store worldWithReleased) sealedSegment1
         <= Version (store worldWithReleased) x.
Proof.
  apply (Put_then_GetWithType SegmentTypeSealed [sealedSegment1]
           (with_sealed {[1 := sealedSegment1; 2 := sealedSegment2]}
              (NewSegmentManager (freshStore 1)))
           worldWithReleased sealedSegment1).
  - vm_compute. reflexivity.
  - apply list_elem_of_here.
Defined.

Lemma Put_body_replaced typ w r s :
  Put_body typ (w, r) s = ((Put_body typ (w, []) s).1, r ++ (Put_body typ (w, []) s).2).
Proof.
  unfold Put_body.
  destruct (segmentsOf typ w !! ID s) as [old|]; [case_bool_decide|]; cbn [fst snd];
    by rewrite ?app_nil_r.
Qed.

Lemma Put_fold_replaced typ segments w r :
  fold_left (Put_body typ) segments (w, r) =
  ((fold_left (Put_body typ) segments (w, [])).1,
   r ++ (fold_left (Put_body typ) segments (w, [])).2).
Proof.
  revert w r. induction segments as [|s segments IH]; intros w r.
  - cbn. by rewrite app_nil_r.
  - cbn [fold_left]. rewrite Put_body_replaced.
    destruct (Put_body typ (w, []) s) as [w1 r1]. cbn [fst snd].
    rewrite (IH w1 (r ++ r1)), (IH w1 r1). cbn [fst snd]. by rewrite app_assoc.
Qed.

Lemma Put_body_releaseQueue typ q w r s :
  Put_body typ (with_releaseQueue q w, r) s =
  (with_releaseQueue q (Put_body typ (w, r) s).1, (Put_body typ (w, r) s).2).
Proof.
  unfold Put_body. rewrite segmentsOf_with_releaseQueue.
  cbn [store with_releaseQueue].
  destruct (segmentsOf typ w !! ID s) as [old|]; [case_bool_decide|]; cbn [fst snd];
    try done; by destruct typ.
Qed.

Lemma Put_fold_releaseQueue typ q segments w r :
  fold_left (Put_body typ) segments (with_releaseQueue q w, r) =
  (with_releaseQueue q (fold_left (Put_body typ) segments (w, r)).1,
   (fold_left (Put_body typ) segments (w, r)).2).
Proof.
  revert w r. induction segments as [|s segments IH]; intros w r; [done|].
  cbn [fold_left]. rewrite Put_body_releaseQueue.
  destruct (Put_body typ (w, r) s) as [w1 r1]. cbn [fst snd]. apply IH.
Qed.

Lemma Put_fold_queue typ segments acc :
  releaseQueue (fold_left (Put_body typ) segments acc).1 = releaseQueue acc.1.
Proof.
  revert acc. induction segments as [|s segments IH]; intros acc; [done|].
  cbn [fold_left]. rewrite IH. destruct acc as [w r]. unfold Put_body. cbn [fst].
  destruct (segmentsOf typ w !! ID s) as [old|]; [case_bool_decide|]; cbn [fst];
    by rewrite ?with_segmentsOf_releaseQueue.
Qed.

(** One [Put] of a list of segments does what a [Put] of its first part
    followed by a [Put] of the rest does: same maps, same heap, and the same
    segments queued for release in the same order. *)
Theorem Put_app (segmentType : SegmentType) (segments1 segments2 : list Segment)
    (w : World) :
  Put segmentType (segments1 ++ segments2) w =
  match Put segmentType segments1 w with
  | Some w1 => Put segmentType segments2 w1
  | None => None
  end.
Proof.
  destruct (decide (segmentType = SegmentTypeGrowing ∨ segmentType = SegmentTypeSealed))
    as [Htyp|Hn]; [|by destruct segmentType; try done; destruct Hn; auto].
  assert (HP : ∀ l w0, Put segmentType l w0 =
            Some (with_releaseQueue
                    (releaseQueue w0 ++ (fold_left (Put_body segmentType) l (w0, [])).2)
                    (fold_left (Put_body segmentType) l (w0, [])).1)).
  { intros l w0. unfold Put.
    pose proof (Put_fold_queue segmentType l (w0, [])) as Hq. cbn [fst] in Hq.
    destruct (fold_left (Put_body segmentType) l (w0, [])) as [w1 r]. cbn [fst snd] in *.
    rewrite Hq. by destruct Htyp as [-> | ->]. }
  rewrite (HP (segments1 ++ segments2) w), (HP segments1 w). cbv beta iota.
  rewrite HP. f_equal.
  rewrite fold_left_app.
  destruct (fold_left (Put_body segmentType) segments1 (w, [])) as [w1 r1] eqn:E1.
  cbn [fst snd].
  rewrite Put_fold_releaseQueue. cbn [fst snd releaseQueue with_releaseQueue].
  rewrite (Put_fold_replaced segmentType segments2 w1 r1). cbn [fst snd].
  by rewrite app_assoc.
Qed.

(** ** Remove: round trip, idempotence, releases *)

Lemma Release_lookup s st p :
  Release s st p = if decide (s = p) then set_released (st p) else st p.
Proof.
  unfold Release. case_decide as E.
  - subst. by rewrite fn_lookup_insert.
  - by rewrite fn_lookup_insert_ne.
Qed.

(** Putting a segment whose id is in neither map and then removing that id
    with scope All gives back the two maps as they were; the one entry that
    existed is counted, and what remains of the round trip is that the
    segment has been released. *)
Theorem Put_Remove_roundtrip (segmentType : SegmentType) (s : Segment) (w : World) :
  segmentType = SegmentTypeGrowing ∨ segmentType = SegmentTypeSealed →
  growingSegments w !! ID s = None →
  sealedSegments w !! ID s = None →
  ∃ w', Put segmentType [s] w = Some w'
    ∧ growingSegments (Remove (ID s) DataScope_All w').1 = growingSegments w
    ∧ sealedSegments (Remove (ID s) DataScope_All w').1 = sealedSegments w
    ∧ store (Remove (ID s) DataScope_All w').1 = Release s (store w)
    ∧ releaseQueue (Remove (ID s) DataScope_All w').1 = releaseQueue w
    ∧ (Remove (ID s) DataScope_All w').2 =
        (if bool_decide (segmentType = SegmentTypeGrowing) then (1, 0) else (0, 1)).
Proof.
  intros Htyp Hg Hs.
  destruct Htyp as [-> | ->].
  - exists (with_growing (<[ID s := s]> (growingSegments w)) w). split.
    + unfold Put, Put_body. cbn [fold_left segmentsOf]. rewrite Hg. cbn.
      by rewrite app_nil_r.
    + unfold Remove, removeSegmentWithType.
      cbn [growingSegments sealedSegments with_growing with_sealed].
      rewrite lookup_insert_eq. cbn [growingSegments sealedSegments with_growing].
      rewrite Hs. cbn. rewrite delete_insert_id by done. done.
  - exists (with_sealed (<[ID s := s]> (sealedSegments w)) w). split.
    + unfold Put, Put_body. cbn [fold_left segmentsOf]. rewrite Hs. cbn.
      by rewrite app_nil_r.
    + unfold Remove, removeSegmentWithType.
      cbn [growingSegments sealedSegments with_growing with_sealed].
      rewrite Hg. cbn [growingSegments sealedSegments with_sealed].
      rewrite lookup_insert_eq. cbn. rewrite delete_insert_id by done. done.
Qed.

Lemma Put_Remove_roundtrip_witness :
  ∃ w', Put SegmentTypeSealed [l0Segment11] worldWithSegment7 = Some w'
    ∧ growingSegments (Remove (ID l0Segment11) DataScope_All w').1
        = growingSegments worldWithSegment7
    ∧ sealedSegments (Remove (ID l0Segment11) DataScope_All w').1
        = sealedSegments worldWithSegment7
    ∧ store (Remove (ID l0Segment11) DataScope_All w').1
        = Release l0Segment11 (store worldWithSegment7)
    ∧ releaseQueue (Remove (ID l0Segment11) DataScope_All w').1
        = releaseQueue worldWithSegment7
    ∧ (Remove (ID l0Segment11) DataScope_All w').2 =
        (if bool_decide (SegmentTypeSealed = SegmentTypeGrowing) then (1, 0) else (0, 1)).
Proof.
  apply (Put_Remove_roundtrip SegmentTypeSealed l0Segment11 worldWithSegment7).
  - right. reflexivity.
  - vm_compute. reflexivity.
  - vm_compute. reflexivity.
Defined.

(** A second [Remove] of the same id with the same scope finds nothing: it
    returns (0, 0) and changes neither the maps nor the heap. *)
Theorem Remove_twice (segmentID : Z) (scope : DataScope) (w : World) :
  Remove segmentID scope (Remove segmentID scope w).1
  = ((Remove segmentID scope w).1, (0, 0)).
Proof.
  destruct (Remove_unfold segmentID scope w) as (Eg & Es & _).
  set (w1 := (Remove segmentID scope w).1) in *.
  unfold Remove, removeSegmentWithType.
  destruct scope; cbn [fst snd] in *.
  - rewrite Eg, lookup_delete_eq. done.
  - rewrite Es, lookup_delete_eq. done.
  - rewrite Eg, lookup_delete_eq, Es, lookup_delete_eq. done.
  - done.
Qed.

Local Ltac release_cases :=
  repeat case_decide; repeat case_bool_decide; cbn;
  first [done | congruence | by destruct (store _ _)].

Lemma Remove_store_lookup (segmentID : Z) (scope : DataScope) (w : World)
    (p : Segment) :
  store (Remove segmentID scope w).1 p =
  if takenOut segmentID scope w p then set_released (store w p) else store w p.
Proof.
  unfold takenOut, Remove, removeSegmentWithType.
  destruct scope; cbn [scopeCovers andb orb]; rewrite ?orb_false_r.
  - destruct (growingSegments w !! segmentID) as [g|]; cbn;
      rewrite ?Release_lookup; release_cases.
  - destruct (sealedSegments w !! segmentID) as [x|]; cbn;
      rewrite ?Release_lookup; release_cases.
  - destruct (growingSegments w !! segmentID) as [g|];
      cbn [growingSegments sealedSegments with_growing];
      destruct (sealedSegments w !! segmentID) as [x|]; cbn;
      rewrite ?Release_lookup; release_cases.
  - done.
Qed.

(** [Remove] releases exactly what it takes out of the maps: a segment that
    a covered map held under the id ends released, and the state of every
    other segment object is as before. *)
Theorem Remove_releases_removed (segmentID : Z) (scope : DataScope) (w : World)
    (p : Segment) :
  store (Remove segmentID scope w).1 p =
  if takenOut segmentID scope w p then set_released (store w p) else store w p.
Proof. apply Remove_store_lookup. Qed.

(** After [Remove] with scope All, [Get] no longer finds the id, and every
    other id is found as before. *)
Theorem Remove_All_then_Get (segmentID id' : Z) (w : World) :
  Get id' (Remove segmentID DataScope_All w).1 =
  if bool_decide (id' = segmentID) then None else Get id' w.
Proof.
  destruct (Remove_unfold segmentID DataScope_All w) as (Eg & Es & _).
  unfold Get. rewrite Eg, Es. cbn.
  case_bool_decide as Hid.
  - subst. by rewrite !lookup_delete_eq.
  - by rewrite !lookup_delete_ne.
Qed.

(** ** Clear, the deferred releases, Empty *)

Lemma fold_remove_lookup (l : list Segment) st p :
  fold_left (fun st s => remove s st) l st p =
  if bool_decide (p ∈ l) then set_released (st p) else st p.
Proof.
  revert st. induction l as [|s l IH]; intros st.
  - cbn [fold_left]. by rewrite bool_decide_eq_false_2 by apply not_elem_of_nil.
  - cbn [fold_left]. rewrite IH. unfold remove. rewrite Release_lookup.
    destruct (decide (s = p)) as [->|Hne].
    + rewrite (bool_decide_eq_true_2 (p ∈ p :: l)) by apply list_elem_of_here.
      by case_bool_decide.
    + rewrite (bool_decide_ext (p ∈ s :: l) (p ∈ l)); [done|].
      rewrite elem_of_cons. split; [|auto].
      intros [?|?]; [congruence|done].
Qed.

Lemma fold_remove_entries (l : list (Z * Segment)) st :
  fold_left (fun st kv => remove kv.2 st) l st =
  fold_left (fun st s => remove s st) l.*2 st.
Proof. revert st. induction l as [|kv l IH]; intros st; [done|]. cbn. apply IH. Qed.

Lemma storedb_stored w p : storedb w p = true ↔ stored w p.
Proof.
  unfold storedb, stored. rewrite bool_decide_eq_true, elem_of_app, !list_elem_of_fmap.
  split.
  - intros [([id x] & -> & Hin)|([id x] & -> & Hin)];
      apply elem_of_map_to_list in Hin.
    + by exists SegmentTypeGrowing, id.
    + by exists SegmentTypeSealed, id.
  - intros (typ & id & Hs).
    destruct (segmentsOf_Some typ w id p Hs) as [-> | ->]; [left|right];
      exists (id, p); split; try done; by apply elem_of_map_to_list.
Qed.

(** [Clear] empties both maps, so that [Empty] answers true, releases every
    segment that one of the maps held, and leaves the state of every other
    segment object and the release queue as they were, whatever the order
    in which the maps are ranged over. *)
Theorem Clear_releases_all (o : RangeOrder) (w : World) (p : Segment) :
  growingSegments (Clear o w) = ∅
  ∧ sealedSegments (Clear o w) = ∅
  ∧ Empty (Clear o w) = true
  ∧ releaseQueue (Clear o w) = releaseQueue w
  ∧ store (Clear o w) p = if storedb w p then set_released (store w p) else store w p.
Proof.
  unfold Clear. cbn [growingSegments sealedSegments store releaseQueue
                     with_store with_sealed with_growing].
  split; [done|]. split; [done|]. split; [done|]. split; [done|].
  rewrite !fold_remove_entries, !fold_remove_lookup. unfold storedb.
  assert (Happ : p ∈ (map_to_list (growingSegments w)).*2
                       ++ (map_to_list (sealedSegments w)).*2
                 ↔ p ∈ (rangeSegments o (growingSegments w)).*2
                   ∨ p ∈ (rangeSegments o (sealedSegments w)).*2)
    by (by rewrite elem_of_app, !(rangeSegments_perm o)).
  repeat case_bool_decide; try done; tauto.
Qed.

(** When the release goroutines have run, the queue is empty, every segment
    that was queued is released, and nothing else has changed. *)
Theorem runReleases_releases_queue (w : World) (p : Segment) :
  releaseQueue (runReleases w) = []
  ∧ growingSegments (runReleases w) = growingSegments w
  ∧ sealedSegments (runReleases w) = sealedSegments w
  ∧ store (runReleases w) p =
      if bool_decide (p ∈ releaseQueue w) then set_released (store w p) else store w p.
Proof.
  unfold runReleases. cbn [growingSegments sealedSegments store releaseQueue
                           with_store with_releaseQueue].
  repeat split. apply fold_remove_lookup.
Qed.

(** [Empty] answers true exactly when neither map has an entry. *)
Lemma Empty_true w :
  Empty w = true ↔ growingSegments w = ∅ ∧ sealedSegments w = ∅.
Proof.
  unfold Empty. rewrite bool_decide_eq_true.
  rewrite <- !map_size_empty_iff. lia.
Qed.

(** After a [Put] of at least one segment the manager is not empty. *)
Theorem Put_not_Empty (segmentType : SegmentType) (s : Segment)
    (segments : list Segment) (w w' : World) :
  Put segmentType (s :: segments) w = Some w' → Empty w' = false.
Proof.
  intros HP. apply Put_unfold in HP as [Htyp ->].
  destruct (Put_fold_stores segmentType (s :: segments) s (w, []) Htyp
              (list_elem_of_here _ _)) as (x & Hx & _).
  apply not_true_is_false. intros [Hg Hs]%Empty_true.
  cbn [growingSegments sealedSegments with_releaseQueue] in Hg, Hs.
  destruct Htyp as [-> | ->]; cbn [segmentsOf] in Hx;
    rewrite ?Hg, ?Hs, lookup_empty in Hx; done.
Qed.

Lemma Put_not_Empty_witness :
  Empty worldWithReleased = false.
Proof.
  apply (Put_not_Empty SegmentTypeSealed sealedSegment1 []
           (with_sealed {[1 := sealedSegment1; 2 := sealedSegment2]}
              (NewSegmentManager (freshStore 1)))
           worldWithReleased).
  vm_compute. reflexivity.
Defined.

(** ** Read locks: what the pinning operations hold and give back *)

Lemma set_readers_same x : set_readers (readers x) x = x.
Proof. by destruct x. Qed.

Lemma RLock_cases s st :
  (released (st s) = true
   ∧ RLock s st = (Some (PinAcquisitionFailed (ID s)), st))
  ∨ (released (st s) = false
     ∧ (RLock s st).1 = None
     ∧ ∀ p, (RLock s st).2 p = pinned [s] st p).
Proof.
  unfold RLock. destruct (released (st s)) eqn:E; [by left|right].
  split; [done|]. split; [done|]. intros p. cbn [snd]. unfold pinned.
  cbn [count_occ]. destruct (Segment_eq_dec s p) as [->|Hne].
  - rewrite fn_lookup_insert. f_equal. lia.
  - rewrite fn_lookup_insert_ne by done. rewrite Nat.add_0_r.
    by rewrite set_readers_same.
Qed.

Lemma pinned_nil st p : pinned [] st p = st p.
Proof. unfold pinned. cbn. rewrite Nat.add_0_r. apply set_readers_same. Qed.

Lemma pinned_app l1 l2 st st1 p :
  (∀ q, st1 q = pinned l1 st q) →
  pinned l2 st1 p = pinned (l1 ++ l2) st p.
Proof.
  intros H. unfold pinned. rewrite H, count_occ_app. unfold pinned, set_readers.
  cbn. f_equal. lia.
Qed.

Lemma released_pinned l st p : released (pinned l st p) = released (st p).
Proof. done. Qed.

Lemma RUnlock_lookup s st p :
  RUnlock s st p = if decide (s = p) then set_readers (Nat.pred (readers (st p))) (st p)
                   else st p.
Proof.
  unfold RUnlock. case_decide as E.
  - subst. by rewrite fn_lookup_insert.
  - by rewrite fn_lookup_insert_ne.
Qed.

Lemma Unpin_lookup l st p :
  Unpin l st p =
  set_readers (Nat.iter (count_occ Segment_eq_dec l p) Nat.pred (readers (st p))) (st p).
Proof.
  unfold Unpin. revert st. induction l as [|s l IH]; intros st.
  - cbn. by rewrite set_readers_same.
  - cbn [fold_left count_occ]. rewrite IH, RUnlock_lookup.
    destruct (Segment_eq_dec s p) as [->|Hne].
    + rewrite decide_True by done. cbn [readers set_readers].
      by rewrite Nat.iter_succ_r.
    + by rewrite decide_False.
Qed.

Lemma iter_pred_add n r : Nat.iter n Nat.pred (r + n)%nat = r.
Proof.
  induction n as [|n IH]; [cbn; lia|].
  rewrite Nat.iter_succ_r. replace (Nat.pred (r + S n)) with (r + n)%nat by lia. done.
Qed.

(** Giving back one read lock per occurrence undoes taking one per
    occurrence. *)
Lemma Unpin_pinned l st st' p :
  (∀ q, st' q = pinned l st q) → Unpin l st' p = st p.
Proof.
  intros H. rewrite Unpin_lookup, H. unfold pinned. cbn [readers set_readers].
  rewrite iter_pred_add. by destruct (st p).
Qed.

(** One iteration of [GetAndPin]: what is appended to the locked segments
    is locked once per occurrence, was stored under the id (a sealed one not
    of level L0) and was not released; when the iteration ends without an
    error and without an L0 sealed entry, something was appended. *)
Lemma GetAndPin_body_spec w filters id lockedSegments st :
  ∃ new,
    (GetAndPin_body w filters id lockedSegments st).1.1 = lockedSegments ++ new
    ∧ (∀ p, (GetAndPin_body w filters id lockedSegments st).2 p = pinned new st p)
    ∧ (∀ s, s ∈ new →
         (growingSegments w !! id = Some s
          ∨ (sealedSegments w !! id = Some s ∧ Level s ≠ SegmentLevel_L0))
         ∧ released (st s) = false)
    ∧ ((GetAndPin_body w filters id lockedSegments st).1.2 = None →
         (∃ s, sealedSegments w !! id = Some s ∧ Level s = SegmentLevel_L0)
         ∨ new ≠ []).
Proof.
  unfold GetAndPin_body.
  destruct (sealedSegments w !! id) as [x|] eqn:Hx.
  - case_bool_decide as HL.
    + exists []. rewrite app_nil_r. cbn [fst snd].
      split; [done|]. split; [intros p; by rewrite pinned_nil|].
      split; [intros s Hs; by apply elem_of_nil in Hs|]. intros _. left. eauto.
    + destruct (growingSegments w !! id) as [g|] eqn:Hg.
      * destruct (filter st g filters) eqn:Fg.
        -- destruct (RLock_cases g st) as [[Hr ->]|(Hr & He & Hst)].
           ++ exists []. rewrite app_nil_r. cbn [fst snd].
              split; [done|]. split; [intros p; by rewrite pinned_nil|].
              split; [intros s Hs; by apply elem_of_nil in Hs|]. done.
           ++ destruct (RLock g st) as [e st1]. cbn [fst snd] in He, Hst. subst e.
              destruct (filter st x filters) eqn:Fx.
              ** destruct (RLock_cases x st1) as [[Hr' ->]|(Hr' & He' & Hst')].
                 --- exists [g]. cbn [fst snd].
                     split; [done|]. split; [done|].
                     split; [|done].
                     intros s Hs. apply list_elem_of_singleton in Hs as ->. auto.
                 --- destruct (RLock x st1) as [e st2]. cbn [fst snd] in He', Hst'.
                     subst e. exists [g; x]. cbn [fst snd negb andb].
                     split; [by rewrite <- app_assoc|].
                     split; [intros p; rewrite Hst'; by apply (pinned_app [g] [x])|].
                     split; [|intros _; by right].
                     intros s Hs. apply elem_of_cons in Hs as [->|Hs]; [auto|].
                     apply list_elem_of_singleton in Hs as ->.
                     split; [auto|]. rewrite Hst, released_pinned in Hr'. done.
              ** exists [g]. cbn [fst snd negb andb].
                 split; [done|]. split; [done|]. split; [|intros _; by right].
                 intros s Hs. apply list_elem_of_singleton in Hs as ->. auto.
        -- destruct (filter st x filters) eqn:Fx.
           ++ destruct (RLock_cases x st) as [[Hr' ->]|(Hr' & He' & Hst')].
              ** exists []. rewrite app_nil_r. cbn [fst snd].
                 split; [done|]. split; [intros p; by rewrite pinned_nil|].
                 split; [intros s Hs; by apply elem_of_nil in Hs|]. done.
              ** destruct (RLock x st) as [e st2]. cbn [fst snd] in He', Hst'.
                 subst e. exists [x]. cbn [fst snd negb andb].
                 split; [done|]. split; [done|]. split; [|intros _; by right].
                 intros s Hs. apply list_elem_of_singleton in Hs as ->. auto.
           ++ exists []. rewrite app_nil_r. cbn [fst snd negb andb].
              split; [done|]. split; [intros p; by rewrite pinned_nil|].
              split; [intros s Hs; by apply elem_of_nil in Hs|]. done.
      * destruct (filter st x filters) eqn:Fx.
        -- destruct (RLock_cases x st) as [[Hr' ->]|(Hr' & He' & Hst')].
           ++ exists []. rewrite app_nil_r. cbn [fst snd].
              split; [done|]. split; [intros p; by rewrite pinned_nil|].
              split; [intros s Hs; by apply elem_of_nil in Hs|]. done.
           ++ destruct (RLock x st) as [e st2]. cbn [fst snd] in He', Hst'.
              subst e. exists [x]. cbn [fst snd negb andb].
              split; [done|]. split; [done|]. split; [|intros _; by right].
              intros s Hs. apply list_elem_of_singleton in Hs as ->. auto.
        -- exists []. rewrite app_nil_r. cbn [fst snd negb andb].
           split; [done|]. split; [intros p; by rewrite pinned_nil|].
           split; [intros s Hs; by apply elem_of_nil in Hs|]. done.
  - destruct (growingSegments w !! id) as [g|] eqn:Hg.
    + destruct (filter st g filters) eqn:Fg.
      * destruct (RLock_cases g st) as [[Hr ->]|(Hr & He & Hst)].
        -- exists []. rewrite app_nil_r. cbn [fst snd].
           split; [done|]. split; [intros p; by rewrite pinned_nil|].
           split; [intros s Hs; by apply elem_of_nil in Hs|]. done.
        -- destruct (RLock g st) as [e st1]. cbn [fst snd] in He, Hst. subst e.
           exists [g]. cbn [fst snd negb andb].
           split; [done|]. split; [done|]. split; [|intros _; by right].
           intros s Hs. apply list_elem_of_singleton in Hs as ->. auto.
      * exists []. rewrite app_nil_r. cbn [fst snd negb andb].
        split; [done|]. split; [intros p; by rewrite pinned_nil|].
        split; [intros s Hs; by apply elem_of_nil in Hs|]. done.
    + exists []. rewrite app_nil_r. cbn [fst snd negb andb].
      split; [done|]. split; [intros p; by rewrite pinned_nil|].
      split; [intros s Hs; by apply elem_of_nil in Hs|]. done.
Qed.

Lemma GetAndPin_loop_spec w filters ids lockedSegments st :
  ∃ new,
    (GetAndPin_loop w filters ids lockedSegments st).1.1 = lockedSegments ++ new
    ∧ (∀ p, (GetAndPin_loop w filters ids lockedSegments st).2 p = pinned new st p)
    ∧ (∀ s, s ∈ new →
         ∃ id, id ∈ ids
           ∧ (growingSegments w !! id = Some s
              ∨ (sealedSegments w !! id = Some s ∧ Level s ≠ SegmentLevel_L0))
           ∧ released (st s) = false)
    ∧ ((GetAndPin_loop w filters ids lockedSegments st).1.2 = None →
         ∀ id, id ∈ ids →
           (∃ s, sealedSegments w !! id = Some s ∧ Level s = SegmentLevel_L0)
           ∨ (∃ s, s ∈ new
                ∧ (growingSegments w !! id = Some s ∨ sealedSegments w !! id = Some s))).
Proof.
  revert lockedSegments st.
  induction ids as [|id ids IH]; intros lockedSegments st.
  - exists []. cbn [GetAndPin_loop fst snd]. rewrite app_nil_r.
    split; [done|]. split; [intros p; by rewrite pinned_nil|].
    split; [intros s Hs; by apply elem_of_nil in Hs|].
    intros _ id Hid. by apply elem_of_nil in Hid.
  - cbn [GetAndPin_loop].
    destruct (GetAndPin_body_spec w filters id lockedSegments st)
      as (new1 & Hl1 & Hst1 & Hin1 & Hcov1).
    destruct (GetAndPin_body w filters id lockedSegments st) as [[l1 e1] st1].
    cbn [fst snd] in *. subst l1.
    destruct e1 as [e|].
    + exists new1. cbn [fst snd].
      split; [done|]. split; [done|]. split; [|done].
      intros s Hs. exists id. split; [apply list_elem_of_here|by apply Hin1].
    + destruct (IH (lockedSegments ++ new1) st1) as (new2 & Hl2 & Hst2 & Hin2 & Hcov2).
      exists (new1 ++ new2).
      split; [by rewrite Hl2, app_assoc|].
      split; [intros p; rewrite Hst2; by apply pinned_app|].
      split.
      * intros s [Hs|Hs]%elem_of_app.
        -- exists id. split; [apply list_elem_of_here|by apply Hin1].
        -- destruct (Hin2 s Hs) as (id' & Hid' & Hsto & Hrel).
           exists id'. split; [by apply list_elem_of_further|]. split; [done|].
           by rewrite Hst1, released_pinned in Hrel.
      * intros He id' [->|Hid']%elem_of_cons.
        -- destruct (Hcov1 eq_refl) as [?|Hne]; [by left|right].
           destruct new1 as [|s new1]; [done|].
           exists s. split; [apply elem_of_app; left; apply list_elem_of_here|].
           destruct (Hin1 s (list_elem_of_here _ _)) as [[?|[? _]] _]; auto.
        -- destruct (Hcov2 He id' Hid') as [?|(s & Hs & Hsto)]; [by left|right].
           exists s. split; [apply elem_of_app; by right|done].
Qed.

(** When [GetAndPin] fails it returns no segment, and the deferred unlock
    has given back every read lock the call had taken: the state of every
    segment object is as it was before the call. *)
Theorem GetAndPin_failure_restores (segments : list Z) (filters : list SegmentFilter)
    (w : World) (e : Error) (p : Segment) :
  (GetAndPin segments filters w).1.2 = Some e →
  (GetAndPin segments filters w).1.1 = []
  ∧ growingSegments (GetAndPin segments filters w).2 = growingSegments w
  ∧ sealedSegments (GetAndPin segments filters w).2 = sealedSegments w
  ∧ store (GetAndPin segments filters w).2 p = store w p.
Proof.
  unfold GetAndPin.
  destruct (GetAndPin_loop_spec w filters segments [] (store w))
    as (new & Hl & Hst & _).
  destruct (GetAndPin_loop w filters segments [] (store w)) as [[l err] st'].
  cbn [fst snd app] in *. subst l.
  destruct err as [e'|]; cbn [fst snd]; [|done]. intros _.
  repeat split. cbn [store with_store]. by apply Unpin_pinned.
Qed.

Lemma GetAndPin_failure_restores_witness :
  (GetAndPin [2; 1] [] worldWithReleased).1.1 = []
  ∧ growingSegments (GetAndPin [2; 1] [] worldWithReleased).2
      = growingSegments worldWithReleased
  ∧ sealedSegments (GetAndPin [2; 1] [] worldWithReleased).2
      = sealedSegments worldWithReleased
  ∧ store (GetAndPin [2; 1] [] worldWithReleased).2 sealedSegment2
      = store worldWithReleased sealedSegment2.
Proof.
  apply (GetAndPin_failure_restores [2; 1] [] worldWithReleased (PinAcquisitionFailed 1)).
  vm_compute. reflexivity.
Defined.

(** When [GetAndPin] succeeds, each returned segment carries one more read
    lock per occurrence in the result and nothing else has changed;
    [Unpin] of the result brings every segment object back to the state it
    had before the call. *)
Theorem GetAndPin_Unpin_roundtrip (segments : list Z) (filters : list SegmentFilter)
    (w : World) (ret : list Segment) (p : Segment) :
  (GetAndPin segments filters w).1 = (ret, None) →
  store (GetAndPin segments filters w).2 p = pinned ret (store w) p
  ∧ Unpin ret (store (GetAndPin segments filters w).2) p = store w p.
Proof.
  unfold GetAndPin.
  destruct (GetAndPin_loop_spec w filters segments [] (store w))
    as (new & Hl & Hst & _).
  destruct (GetAndPin_loop w filters segments [] (store w)) as [[l err] st'].
  cbn [fst snd app] in *. subst l.
  destruct err as [e'|]; cbn [fst snd]; [done|]. intros [= <-].
  cbn [store with_store]. split; [done|]. by apply Unpin_pinned.
Qed.

Lemma GetAndPin_Unpin_roundtrip_witness :
  store (GetAndPin [2] [] worldWithReleased).2 sealedSegment2
    = pinned [sealedSegment2] (store worldWithReleased) sealedSegment2
  ∧ Unpin [sealedSegment2] (store (GetAndPin [2] [] worldWithReleased).2) sealedSegment2
    = store worldWithReleased sealedSegment2.
Proof.
  apply (GetAndPin_Unpin_roundtrip [2] [] worldWithReleased [sealedSegment2]).
  vm_compute. reflexivity.
Defined.

(** Every segment a successful [GetAndPin] returns is stored under one of
    the requested ids, in the growing map or, if it is not of level L0, in
    the sealed map, and was not released when the call began. *)
Theorem GetAndPin_returns_stored (segments : list Z) (filters : list SegmentFilter)
    (w : World) (ret : list Segment) (s : Segment) :
  (GetAndPin segments filters w).1 = (ret, None) →
  s ∈ ret →
  ∃ id, id ∈ segments
    ∧ (growingSegments w !! id = Some s
       ∨ (sealedSegments w !! id = Some s ∧ Level s ≠ SegmentLevel_L0))
    ∧ released (store w s) = false.
Proof.
  unfold GetAndPin.
  destruct (GetAndPin_loop_spec w filters segments [] (store w))
    as (new & Hl & _ & Hin & _).
  destruct (GetAndPin_loop w filters segments [] (store w)) as [[l err] st'].
  cbn [fst snd app] in *. subst l.
  destruct err as [e'|]; cbn [fst snd]; [done|]. intros [= <-]. apply Hin.
Qed.

Lemma GetAndPin_returns_stored_witness :
  ∃ id, id ∈ [2]
    ∧ (growingSegments worldWithReleased !! id = Some sealedSegment2
       ∨ (sealedSegments worldWithReleased !! id = Some sealedSegment2
          ∧ Level sealedSegment2 ≠ SegmentLevel_L0))
    ∧ released (store worldWithReleased sealedSegment2) = false.
Proof.
  apply (GetAndPin_returns_stored [2] [] worldWithReleased [sealedSegment2]).
  - vm_compute. reflexivity.
  - apply list_elem_of_here.
Defined.

(** A successful [GetAndPin] has dealt with every requested id: either the
    sealed map holds an L0 segment for the id, or the result contains a
    segment stored under the id.  In particular a request for an id that is
    in neither map fails. *)
Theorem GetAndPin_covers_ids (segments : list Z) (filters : list SegmentFilter)
    (w : World) (ret : list Segment) (id : Z) :
  (GetAndPin segments filters w).1 = (ret, None) →
  id ∈ segments →
  (∃ s, sealedSegments w !! id = Some s ∧ Level s = SegmentLevel_L0)
  ∨ (∃ s, s ∈ ret ∧ (growingSegments w !! id = Some s ∨ sealedSegments w !! id = Some s)).
Proof.
  unfold GetAndPin.
  destruct (GetAndPin_loop_spec w filters segments [] (store w))
    as (new & Hl & _ & _ & Hcov).
  destruct (GetAndPin_loop w filters segments [] (store w)) as [[l err] st'].
  cbn [fst snd app] in *. subst l.
  destruct err as [e'|]; cbn [fst snd]; [done|]. intros [= <-]. by apply Hcov.
Qed.

Lemma GetAndPin_covers_ids_witness :
  (∃ s, sealedSegments worldWithReleased !! 2 = Some s ∧ Level s = SegmentLevel_L0)
  ∨ (∃ s, s ∈ [sealedSegment2]
       ∧ (growingSegments worldWithReleased !! 2 = Some s
          ∨ sealedSegments worldWithReleased !! 2 = Some s)).
Proof.
  apply (GetAndPin_covers_ids [2] [] worldWithReleased [sealedSegment2] 2).
  - vm_compute. reflexivity.
  - apply list_elem_of_here.
Defined.

(** A request that names an id stored in neither map fails, whatever else
    is requested, and returns no segment. *)
Theorem GetAndPin_missing_id (segments : list Z) (filters : list SegmentFilter)
    (w : World) (id : Z) :
  id ∈ segments →
  growingSegments w !! id = None →
  sealedSegments w !! id = None →
  ∃ e, (GetAndPin segments filters w).1 = ([], Some e).
Proof.
  intros Hid Hg Hs. unfold GetAndPin.
  destruct (GetAndPin_loop_spec w filters segments [] (store w))
    as (new & Hl & _ & _ & Hcov).
  destruct (GetAndPin_loop w filters segments [] (store w)) as [[l err] st'].
  cbn [fst snd] in *.
  destruct err as [e|]; [by exists e|].
  destruct (Hcov eq_refl id Hid) as [(s & Hs' & _)|(s & _ & [Hs'|Hs'])]; congruence.
Qed.

Lemma GetAndPin_missing_id_witness :
  ∃ e, (GetAndPin [2; 5] [] worldWithReleased).1 = ([], Some e).
Proof.
  apply (GetAndPin_missing_id [2; 5] [] worldWithReleased 5).
  - apply list_elem_of_further, list_elem_of_here.
  - vm_compute. reflexivity.
  - vm_compute. reflexivity.
Defined.

(** ** An induction principle that knows what is visited *)

Section rangeWithFilter_ind_visited.
Context {A : Type}.
Variable process : Z → SegmentType → Segment → World * A → bool * (World * A).
Variable P : World * A → Prop.
Hypothesis process_preserves_visited :
  ∀ id typ segment wa,
    P wa → segmentsOf typ wa.1 !! id = Some segment → P (process id typ segment wa).2.

Lemma rangeLoop_ind_visited others typ ids wa :
  P wa → P (rangeLoop process others typ ids wa).
Proof.
  revert wa. induction ids as [|id ids IH]; intros wa HP; [done|].
  cbn [rangeLoop].
  destruct (segmentsOf typ wa.1 !! id) as [segment|] eqn:E; [|by apply IH].
  destruct (mergedFilter others (store wa.1) segment); [|by apply IH].
  pose proof (process_preserves_visited id typ segment wa HP E) as HP'.
  destruct (process id typ segment wa) as [continue wa']; cbn [snd] in HP'.
  destruct continue; [by apply IH|done].
Qed.

Lemma rangeWithFilter_ind_visited o filters wa :
  P wa → P (rangeWithFilter process o filters wa).
Proof.
  unfold rangeWithFilter.
  generalize (candidates o (extractHints filters)) as typs.
  intros typs. revert wa.
  induction typs as [|typ typs IH]; intros wa HP; [done|].
  cbn [fold_left]. apply IH. unfold rangeCandidate. by apply rangeLoop_ind_visited.
Qed.
End rangeWithFilter_ind_visited.

(** What holds of the manager, the heap, [ret] and [err] all along the
    iteration of [GetAndPinBy]. *)
Lemma GetAndPinBy_invariant o filters w :
  let r := rangeWithFilter GetAndPinBy_process o filters (w, ([], None)) in
  growingSegments r.1 = growingSegments w
  ∧ sealedSegments r.1 = sealedSegments w
  ∧ releaseQueue r.1 = releaseQueue w
  ∧ (∀ p, store r.1 p = pinned r.2.1 (store w) p)
  ∧ (∀ s, s ∈ r.2.1 →
       Level s ≠ SegmentLevel_L0 ∧ stored w s ∧ released (store w s) = false)
  ∧ ((∀ p, stored w p → released (store w p) = false) → r.2.2 = None).
Proof.
  cbn zeta.
  apply (rangeWithFilter_ind_visited GetAndPinBy_process
    (fun wa =>
       growingSegments wa.1 = growingSegments w
       ∧ sealedSegments wa.1 = sealedSegments w
       ∧ releaseQueue wa.1 = releaseQueue w
       ∧ (∀ p, store wa.1 p = pinned wa.2.1 (store w) p)
       ∧ (∀ s, s ∈ wa.2.1 →
            Level s ≠ SegmentLevel_L0 ∧ stored w s ∧ released (store w s) = false)
       ∧ ((∀ p, stored w p → released (store w p) = false) → wa.2.2 = None))).
  - intros id typ segment [w1 [ret err]] (Hg & Hs & Hq & Hst & Hin & Herr) Hlook.
    cbn [fst snd] in *. unfold GetAndPinBy_process.
    assert (Hsto : stored w segment).
    { exists typ, id. by destruct typ; cbn in *; rewrite <- ?Hg, <- ?Hs. }
    case_bool_decide as HL; [done|].
    destruct (RLock_cases segment (store w1)) as [[Hr ->]|(Hr & He & Hst')].
    + cbn [fst snd]. repeat split; try done; try (by apply Hin).
      intros Hall. specialize (Hall segment Hsto).
      rewrite Hst, released_pinned in Hr. congruence.
    + destruct (RLock segment (store w1)) as [e st1]. cbn [fst snd] in He, Hst'.
      subst e. cbn [fst snd growingSegments sealedSegments releaseQueue store with_store].
      split; [done|]. split; [done|]. split; [done|].
      split; [intros p; rewrite Hst'; by apply pinned_app|].
      split; [|done].
      intros s [Hs'|Hs']%elem_of_app; [by apply Hin|].
      apply list_elem_of_singleton in Hs' as ->.
      rewrite Hst, released_pinned in Hr. done.
  - cbn [fst snd]. repeat split; try done.
    + intros p. by rewrite pinned_nil.
    + by apply elem_of_nil in H.
    + by apply elem_of_nil in H.
    + by apply elem_of_nil in H.
Qed.

(** [GetAndPinBy] never returns a segment of level L0; every segment it
    returns is stored in one of the maps and was not released when the call
    began. *)
Theorem GetAndPinBy_returns_servable (o : RangeOrder) (filters : list SegmentFilter)
    (w : World) (s : Segment) :
  s ∈ (GetAndPinBy o filters w).1.1 →
  Level s ≠ SegmentLevel_L0 ∧ stored w s ∧ released (store w s) = false.
Proof.
  unfold GetAndPinBy.
  destruct (GetAndPinBy_invariant o filters w) as (_ & _ & _ & _ & Hin & _).
  destruct (rangeWithFilter GetAndPinBy_process o filters (w, ([], None)))
    as [w' [ret err]].
  cbn [fst snd] in *. apply Hin.
Qed.

Lemma GetAndPinBy_returns_servable_witness :
  Level sealedSegment2 ≠ SegmentLevel_L0
  ∧ stored worldWithTwoSealed sealedSegment2
  ∧ released (store worldWithTwoSealed sealedSegment2) = false.
Proof.
  apply (GetAndPinBy_returns_servable canonicalOrder [] worldWithTwoSealed).
  assert (E : (GetAndPinBy canonicalOrder [] worldWithTwoSealed).1.1
              = [sealedSegment2; sealedSegment1]) by (vm_compute; reflexivity).
  rewrite E. apply list_elem_of_here.
Defined.

(** [GetAndPinBy] leaves the maps and the release queue alone.  As to the
    read locks, either every returned segment carries one more per
    occurrence in the result and nothing else has changed, or (a lock was
    refused and the deferred unlock ran) every segment object is in the
    state it had before the call. *)
Theorem GetAndPinBy_lock_state (o : RangeOrder) (filters : list SegmentFilter)
    (w : World) :
  growingSegments (GetAndPinBy o filters w).2 = growingSegments w
  ∧ sealedSegments (GetAndPinBy o filters w).2 = sealedSegments w
  ∧ releaseQueue (GetAndPinBy o filters w).2 = releaseQueue w
  ∧ ((∀ p, store (GetAndPinBy o filters w).2 p
           = pinned (GetAndPinBy o filters w).1.1 (store w) p)
     ∨ (∀ p, store (GetAndPinBy o filters w).2 p = store w p)).
Proof.
  unfold GetAndPinBy.
  destruct (GetAndPinBy_invariant o filters w) as (Hg & Hs & Hq & Hst & _).
  destruct (rangeWithFilter GetAndPinBy_process o filters (w, ([], None)))
    as [w' [ret err]].
  cbn [fst snd store with_store growingSegments sealedSegments releaseQueue] in *.
  split; [done|]. split; [done|]. split; [done|].
  destruct err; [right|left; done].
  intros p. by apply Unpin_pinned.
Qed.

(** When no stored segment is released, [GetAndPinBy] leaves one read lock
    per occurrence on the segments it returns, and [Unpin] of the result
    brings every segment object back to the state it had before the call. *)
Theorem GetAndPinBy_Unpin_roundtrip (o : RangeOrder) (filters : list SegmentFilter)
    (w : World) (p : Segment) :
  (∀ q, stored w q → released (store w q) = false) →
  store (GetAndPinBy o filters w).2 p = pinned (GetAndPinBy o filters w).1.1 (store w) p
  ∧ Unpin (GetAndPinBy o filters w).1.1 (store (GetAndPinBy o filters w).2) p = store w p.
Proof.
  intros Hall. unfold GetAndPinBy.
  destruct (GetAndPinBy_invariant o filters w) as (_ & _ & _ & Hst & _ & Herr).
  destruct (rangeWithFilter GetAndPinBy_process o filters (w, ([], None)))
    as [w' [ret err]].
  cbn [fst snd store with_store] in *.
  rewrite (Herr Hall). split; [done|]. by apply Unpin_pinned.
Qed.

Lemma GetAndPinBy_Unpin_roundtrip_witness :
  store (GetAndPinBy canonicalOrder [] worldWithTwoSealed).2 sealedSegment1
    = pinned (GetAndPinBy canonicalOrder [] worldWithTwoSealed).1.1
        (store worldWithTwoSealed) sealedSegment1
  ∧ Unpin (GetAndPinBy canonicalOrder [] worldWithTwoSealed).1.1
      (store (GetAndPinBy canonicalOrder [] worldWithTwoSealed).2) sealedSegment1
    = store worldWithTwoSealed sealedSegment1.
Proof.
  apply (GetAndPinBy_Unpin_roundtrip canonicalOrder [] worldWithTwoSealed).
  intros q _. reflexivity.
Defined.

(** ** UpdateBy *)

(** [UpdateBy] with the [IncreaseVersion] action leaves the maps and the
    release queue alone and touches nothing but versions: every segment
    object either is as before, or had a version below the target and now
    has exactly the target version; a segment object that no map holds is
    as before. *)
Theorem UpdateBy_IncreaseVersion_effect (o : RangeOrder) (v : Z)
    (filters : list SegmentFilter) (w : World) (p : Segment) :
  growingSegments (UpdateBy o (IncreaseVersion v) filters w).1 = growingSegments w
  ∧ sealedSegments (UpdateBy o (IncreaseVersion v) filters w).1 = sealedSegments w
  ∧ releaseQueue (UpdateBy o (IncreaseVersion v) filters w).1 = releaseQueue w
  ∧ (store (UpdateBy o (IncreaseVersion v) filters w).1 p = store w p
     ∨ (Version (store w) p < v ∧ storedb w p = true
        ∧ store (UpdateBy o (IncreaseVersion v) filters w).1 p
          = set_version v (store w p))).
Proof.
  destruct (UpdateBy_maps o (IncreaseVersion v) filters w) as (Eg & Es & Eq).
  split; [done|]. split; [done|]. split; [done|].
  unfold UpdateBy.
  eapply proj2.
  apply (rangeWithFilter_ind_visited _
    (fun wa =>
       (growingSegments wa.1 = growingSegments w ∧ sealedSegments wa.1 = sealedSegments w)
       ∧ (store wa.1 p = store w p
          ∨ (Version (store w) p < v ∧ storedb w p = true
             ∧ store wa.1 p = set_version v (store w p))))); [|by auto].
  intros id typ segment [w1 updated] [[Hg Hs] HP] Hlook. cbn [fst snd] in *.
  rewrite IncreaseVersion_unfold.
  case_bool_decide as Hlt; cbn [fst snd store with_store growingSegments sealedSegments];
    [|done].
  split; [done|].
  destruct (decide (segment = p)) as [->|Hne].
  - rewrite fn_lookup_insert. unfold Version in Hlt.
    destruct HP as [HP|(? & ? & HP)]; rewrite HP in Hlt |- *.
    + right. split; [done|]. split; [|done].
      apply storedb_stored. exists typ, id.
      by destruct typ; cbn in *; rewrite <- ?Hg, <- ?Hs.
    + cbn in Hlt. lia.
  - by rewrite fn_lookup_insert_ne.
Qed.

Lemma mergedFilter_insertCount filters (st st' : Store) s :
  reads_insertCount_only filters →
  (∀ p, insertCount (st p) = insertCount (st' p)) →
  mergedFilter (otherFilters (extractHints filters)) st s
  = mergedFilter (otherFilters (extractHints filters)) st' s.
Proof.
  intros Hread Heq.
  destruct (extractHints_spec filters) as (Hm & _). rewrite !Hm. clear Hm.
  unfold reads_insertCount_only in Hread.
  induction filters as [|f filters IH]; [done|].
  cbn [forallb]. rewrite IH.
  - f_equal. destruct f as [g| |]; cbn; [|done|done].
    apply Hread; [apply list_elem_of_here|done].
  - intros g Hg. apply Hread. by apply list_elem_of_further.
Qed.

Lemma visited_agree others typ w w1 id :
  segmentsOf typ w1 = segmentsOf typ w →
  (∀ s, mergedFilter others (store w1) s = mergedFilter others (store w) s) →
  visited others typ w1 id = visited others typ w id.
Proof.
  intros Hm Hf. unfold visited. rewrite Hm.
  destruct (segmentsOf typ w !! id); [|done]. by rewrite Hf.
Qed.

(** With filters that read nothing but insert counts and an action that
    leaves them alone, the closure of [UpdateBy] is run on the segments that
    [GetBy] collects, in that order. *)
Lemma UpdateBy_rangeWithFilter_fold o action filters w :
  reads_insertCount_only filters →
  keeps_insertCount action →
  rangeWithFilter
    (fun _ _ segment '(w, updated) =>
       let '(ok, st') := action segment (store w) in
       (true, (with_store st' w, if ok then updated + 1 else updated)))
    o filters (w, 0)
  = fold_left (applyAction action) (GetBy o filters w) (w, 0).
Proof.
  intros Hread Hkeep.
  unfold GetBy, rangeWithFilter. rewrite GetBy_candidates. cbn [snd app].
  set (h := extractHints filters).
  set (process := fun (_ : Z) (_ : SegmentType) segment (wa : World * Z) => _).
  assert (Hgood : ∀ w1 : World,
            (growingSegments w1 = growingSegments w
             ∧ sealedSegments w1 = sealedSegments w
             ∧ ∀ p, insertCount (store w1 p) = insertCount (store w p)) →
            ∀ typ, segmentsOf typ w1 = segmentsOf typ w
                   ∧ ∀ s, mergedFilter (otherFilters h) (store w1) s
                          = mergedFilter (otherFilters h) (store w) s).
  { intros w1 (Hg & Hs & Hc) typ. split; [by destruct typ|].
    intros s. by apply mergedFilter_insertCount. }
  assert (Hstep : ∀ w1 n s,
            (growingSegments w1 = growingSegments w
             ∧ sealedSegments w1 = sealedSegments w
             ∧ ∀ p, insertCount (store w1 p) = insertCount (store w p)) →
            (growingSegments (applyAction action (w1, n) s).1 = growingSegments w
             ∧ sealedSegments (applyAction action (w1, n) s).1 = sealedSegments w
             ∧ ∀ p, insertCount (store (applyAction action (w1, n) s).1 p)
                    = insertCount (store w p))).
  { intros w1 n s (Hg & Hs & Hc). unfold applyAction.
    pose proof (Hkeep s (store w1)) as Hk.
    destruct (action s (store w1)) as [ok st']. cbn [fst snd] in *.
    split; [done|]. split; [done|]. intros p. by rewrite Hk. }
  assert (Hloop : ∀ typ ids w1 n,
            (growingSegments w1 = growingSegments w
             ∧ sealedSegments w1 = sealedSegments w
             ∧ ∀ p, insertCount (store w1 p) = insertCount (store w p)) →
            rangeLoop process (otherFilters h) typ ids (w1, n)
            = fold_left (applyAction action)
                (omap (visited (otherFilters h) typ w) ids) (w1, n)).
  { intros typ. induction ids as [|id ids IH]; intros w1 n Hw1; [done|].
    cbn [rangeLoop fst].
    change (omap (visited (otherFilters h) typ w) (id :: ids))
      with (match visited (otherFilters h) typ w id with
            | Some y => y :: omap (visited (otherFilters h) typ w) ids
            | None => omap (visited (otherFilters h) typ w) ids
            end).
    destruct (Hgood w1 Hw1 typ) as [Hm Hf].
    rewrite <- (visited_agree _ typ w w1 id Hm Hf). unfold visited at 1.
    destruct (segmentsOf typ w1 !! id) as [s|]; [|by apply IH].
    destruct (mergedFilter (otherFilters h) (store w1) s); [|by apply IH].
    cbn [fold_left]. pose proof (Hstep w1 n s Hw1) as Hw2.
    subst process. cbv beta. unfold applyAction in *.
    destruct (action s (store w1)) as [ok st']. by apply IH. }
  generalize (candidates o h). intros typs.
  assert (Hfold : ∀ w1 n,
            (growingSegments w1 = growingSegments w
             ∧ sealedSegments w1 = sealedSegments w
             ∧ ∀ p, insertCount (store w1 p) = insertCount (store w p)) →
            fold_left (rangeCandidate process o h) typs (w1, n)
            = fold_left (applyAction action)
                (typs ≫= fun typ => omap (visited (otherFilters h) typ w)
                                      (visitOrder o h typ w)) (w1, n)).
  { induction typs as [|typ typs IH]; intros w1 n Hw1; [done|].
    cbn [fold_left mbind list_bind]. rewrite fold_left_app.
    unfold rangeCandidate at 2. cbn [fst].
    assert (visitOrder o h typ w1 = visitOrder o h typ w) as ->.
    { unfold visitOrder. by rewrite (proj1 (Hgood w1 Hw1 typ)). }
    rewrite (Hloop typ _ w1 n Hw1).
    assert (Hinv : ∀ l w2 n2,
              (growingSegments w2 = growingSegments w
               ∧ sealedSegments w2 = sealedSegments w
               ∧ ∀ p, insertCount (store w2 p) = insertCount (store w p)) →
              (growingSegments (fold_left (applyAction action) l (w2, n2)).1
                 = growingSegments w
               ∧ sealedSegments (fold_left (applyAction action) l (w2, n2)).1
                 = sealedSegments w
               ∧ ∀ p, insertCount (store (fold_left (applyAction action) l (w2, n2)).1 p)
                      = insertCount (store w p))).
    { induction l as [|s l IHl]; intros w2 n2 Hw2; [done|].
      cbn [fold_left]. pose proof (Hstep w2 n2 s Hw2) as Hw3.
      destruct (applyAction action (w2, n2) s) as [w3 n3]. by apply IHl. }
    pose proof (Hinv (omap (visited (otherFilters h) typ w) (visitOrder o h typ w))
                  w1 n Hw1) as Hw2.
    destruct (fold_left (applyAction action) _ (w1, n)) as [w2 n2].
    by apply IH. }
  by apply Hfold.
Qed.

(** For filters that read nothing of the heap but insert counts and an
    action that leaves the insert counts alone, [UpdateBy] is the action
    applied, one after the other, to the segments that [GetBy] returns for
    the same filters and iteration order, counting the [true] answers. *)
Theorem UpdateBy_as_fold (o : RangeOrder) (action : SegmentAction)
    (filters : list SegmentFilter) (w : World) :
  reads_insertCount_only filters →
  keeps_insertCount action →
  UpdateBy o action filters w
  = fold_left (applyAction action) (GetBy o filters w) (w, 0).
Proof. intros Hread Hkeep. unfold UpdateBy. by apply UpdateBy_rangeWithFilter_fold. Qed.

Lemma named_filters_read_insertCount_only level :
  reads_insertCount_only [WithType SegmentTypeSealed; WithSkipEmpty; WithLevel level].
Proof.
  intros g Hg st st' s Heq.
  apply elem_of_cons in Hg as [Hg|Hg]; [done|].
  apply elem_of_cons in Hg as [Hg|Hg].
  - injection Hg as ->. unfold InsertCount. by rewrite Heq.
  - apply list_elem_of_singleton in Hg. by injection Hg as ->.
Qed.

Lemma IncreaseVersion_keeps_insertCount v : keeps_insertCount (IncreaseVersion v).
Proof.
  intros s st p. rewrite IncreaseVersion_unfold.
  case_bool_decide; cbn [snd]; [|done].
  destruct (decide (s = p)) as [->|Hne].
  - by rewrite fn_lookup_insert.
  - by rewrite fn_lookup_insert_ne.
Qed.

Lemma UpdateBy_as_fold_witness :
  UpdateBy canonicalOrder (IncreaseVersion 5)
    [WithType SegmentTypeSealed; WithSkipEmpty; WithLevel SegmentLevel_L1]
    worldWithTwoSealed
  = fold_left (applyAction (IncreaseVersion 5))
      (GetBy canonicalOrder
         [WithType SegmentTypeSealed; WithSkipEmpty; WithLevel SegmentLevel_L1]
         worldWithTwoSealed)
      (worldWithTwoSealed, 0).
Proof.
  apply (UpdateBy_as_fold canonicalOrder (IncreaseVersion 5)).
  - apply named_filters_read_insertCount_only.
  - apply IncreaseVersion_keeps_insertCount.
Defined.

Lemma fold_IncreaseVersion_store v l w n p :
  store (fold_left (applyAction (IncreaseVersion v)) l (w, n)).1 p =
  if bool_decide (p ∈ l ∧ Version (store w) p < v)
  then set_version v (store w p) else store w p.
Proof.
  revert w n. induction l as [|s l IH]; intros w n.
  - cbn [fold_left fst]. rewrite bool_decide_eq_false_2; [done|].
    intros [H _]. by apply elem_of_nil in H.
  - cbn [fold_left]. unfold applyAction at 2. rewrite IncreaseVersion_unfold.
    case_bool_decide as Hlt.
    + rewrite IH. cbn [store with_store]. unfold Version in *.
      destruct (decide (s = p)) as [->|Hne].
      * rewrite fn_lookup_insert. cbn [version set_version].
        rewrite (bool_decide_eq_false_2 (_ ∧ v < v)) by lia.
        rewrite bool_decide_eq_true_2; [done|]. split; [apply list_elem_of_here|done].
      * rewrite fn_lookup_insert_ne by done.
        apply (f_equal (fun b : bool => if b then _ else _)).
        apply bool_decide_ext. rewrite elem_of_cons. split; [tauto|].
        intros [[?|?] ?]; [congruence|done].
    + rewrite IH. cbn [store with_store].
      apply (f_equal (fun b : bool => if b then _ else _)).
      apply bool_decide_ext. rewrite elem_of_cons. split; [tauto|].
      intros [[->|?] ?]; [done|done].
Qed.

(** With filters that read nothing of the heap but insert counts,
    [UpdateBy] with [IncreaseVersion v] sets to [v] the version of exactly
    those segments that [GetBy] returns for the filters and that had a
    lower version; every other segment object is as before. *)
Theorem UpdateBy_IncreaseVersion_raises_matched (o : RangeOrder) (v : Z)
    (filters : list SegmentFilter) (w : World) (p : Segment) :
  reads_insertCount_only filters →
  store (UpdateBy o (IncreaseVersion v) filters w).1 p =
  if bool_decide (p ∈ GetBy o filters w ∧ Version (store w) p < v)
  then set_version v (store w p) else store w p.
Proof.
  intros Hread. unfold UpdateBy.
  rewrite (UpdateBy_rangeWithFilter_fold o (IncreaseVersion v) filters w Hread
             (IncreaseVersion_keeps_insertCount v)).
  apply fold_IncreaseVersion_store.
Qed.

Lemma UpdateBy_IncreaseVersion_raises_matched_witness :
  store (UpdateBy canonicalOrder (IncreaseVersion 5)
           [WithType SegmentTypeSealed; WithSkipEmpty; WithLevel SegmentLevel_L1]
           worldWithTwoSealed).1 sealedSegment1 =
  if bool_decide
       (sealedSegment1 ∈ GetBy canonicalOrder
          [WithType SegmentTypeSealed; WithSkipEmpty; WithLevel SegmentLevel_L1]
          worldWithTwoSealed
        ∧ Version (store worldWithTwoSealed) sealedSegment1 < 5)
  then set_version 5 (store worldWithTwoSealed sealedSegment1)
  else store worldWithTwoSealed sealedSegment1.
Proof.
  apply (UpdateBy_IncreaseVersion_raises_matched canonicalOrder 5).
  apply named_filters_read_insertCount_only.
Defined.

(** ** GetBy: direct lookups, duplicates, and the general rule *)

Lemma rangeIDs_singleton (o : RangeOrder) (X : gset Z) (id : Z) :
  (∀ i, i ∈ X ↔ i = id) → rangeIDs o X = [id].
Proof.
  intros HX. apply Permutation_singleton_r. rewrite (rangeIDs_perm o).
  assert (X = {[id]}) as ->.
  { apply set_eq. intros i. by rewrite HX, elem_of_singleton. }
  by rewrite elements_singleton.
Qed.

(** [GetBy] with a type filter and an id filter is the direct lookup of
    [GetWithType]: one segment when the named map holds the id, none
    otherwise (and none for a type that has no map). *)
Theorem GetBy_WithType_WithID (o : RangeOrder) (typ : SegmentType) (id : Z) (w : World) :
  GetBy o [WithType typ; WithID id] w =
  match GetWithType id typ w with
  | Some s => [s]
  | None => []
  end.
Proof.
  unfold GetBy, rangeWithFilter. rewrite GetBy_candidates. cbn [snd app].
  rewrite GetWithType_segmentsOf.
  assert (Hv : ∀ t, omap (visited (otherFilters (extractHints [WithType typ; WithID id])) t w)
                      (visitOrder o (extractHints [WithType typ; WithID id]) t w)
                    = match segmentsOf t w !! id with Some s => [s] | None => [] end).
  { intros t. unfold visitOrder. cbn [extractHints fold_left hints_body WithType WithID
      FilterSegmentType FilterSegmentIDs noHints hasSegIDs segmentIDs otherFilters].
    rewrite (rangeIDs_singleton o _ id).
    - cbn. unfold visited. by destruct (segmentsOf t w !! id).
    - intros i. rewrite elem_of_union, elem_of_list_to_set, list_elem_of_singleton,
        elem_of_empty. tauto. }
  destruct typ; cbn [candidates extractHints fold_left hints_body WithType WithID
    FilterSegmentType FilterSegmentIDs noHints segType hasSegType];
    cbn [mbind list_bind]; rewrite ?Hv, ?app_nil_r; try done.
Qed.

Lemma NoDup_visitOrder o h typ w : NoDup (visitOrder o h typ w).
Proof.
  unfold visitOrder. destruct (hasSegIDs h).
  - rewrite (rangeIDs_perm o). apply NoDup_elements.
  - rewrite (rangeSegments_perm o). apply NoDup_fst_map_to_list.
Qed.

Lemma NoDup_candidates o h : NoDup (candidates o h).
Proof.
  unfold candidates.
  destruct (segType h), (hasSegType h), (sealedFirst o);
    repeat (apply NoDup_cons; split; [rewrite ?elem_of_cons, ?elem_of_nil; intuition done|]);
    apply NoDup_nil_2.
Qed.

Lemma NoDup_omap_inj {X Y} (f : X → option Y) (l : list X) :
  (∀ x y z, f x = Some z → f y = Some z → x = y) → NoDup l → NoDup (omap f l).
Proof.
  intros Hinj. induction 1 as [|x l Hx Hl IH]; [constructor|].
  cbn [omap list_omap]. destruct (f x) as [z|] eqn:E; [|done].
  apply NoDup_cons. split; [|done].
  intros (y & Hy & Hfy)%list_elem_of_omap.
  by rewrite (Hinj x y z E Hfy) in Hx.
Qed.

Lemma visited_Some others typ w id s :
  visited others typ w id = Some s →
  segmentsOf typ w !! id = Some s ∧ mergedFilter others (store w) s = true.
Proof.
  unfold visited. destruct (segmentsOf typ w !! id) as [x|]; [|done].
  destruct (mergedFilter others (store w) x) eqn:E; [|done]. by intros [= <-].
Qed.

(** In a manager whose entries are keyed by their segment's id and agree
    with their map's type, [GetBy] returns no segment twice. *)
Theorem GetBy_NoDup (o : RangeOrder) (filters : list SegmentFilter) (w : World) :
  keyed_by_ID w →
  type_agreement w →
  NoDup (GetBy o filters w).
Proof.
  intros Hkey Htype. unfold GetBy, rangeWithFilter. rewrite GetBy_candidates.
  cbn [snd app]. apply NoDup_bind.
  - intros typ1 typ2 s _ _ (id1 & _ & H1)%list_elem_of_omap (id2 & _ & H2)%list_elem_of_omap.
    apply visited_Some in H1 as [H1 _]. apply visited_Some in H2 as [H2 _].
    by rewrite <- (Htype _ _ _ H1), <- (Htype _ _ _ H2).
  - intros typ _. apply NoDup_omap_inj; [|apply NoDup_visitOrder].
    intros id1 id2 s H1 H2.
    apply visited_Some in H1 as [H1 _]. apply visited_Some in H2 as [H2 _].
    by rewrite <- (Hkey _ _ _ H1), <- (Hkey _ _ _ H2).
  - apply NoDup_candidates.
Qed.

Lemma GetBy_NoDup_witness :
  NoDup (GetBy canonicalOrder [WithLevel SegmentLevel_L1] worldWithTwoSealed).
Proof.
  apply (GetBy_NoDup canonicalOrder _ worldWithTwoSealed);
    apply worldWithTwoSealed_invariants.
Defined.

Lemma lastTypeHint_cons f filters :
  lastTypeHint (f :: filters) =
  match lastTypeHint filters with
  | Some t => Some t
  | None => match f with SegmentTypeFilter t => Some t | _ => None end
  end.
Proof.
  unfold lastTypeHint.
  destruct f as [g|i|t]; cbn; try done.
  - by destruct (last _).
  - by destruct (last _).
  - apply last_cons.
Qed.

Lemma hints_lastType filters h :
  match lastTypeHint filters with
  | Some t => segType (fold_left hints_body filters h) = t
              ∧ hasSegType (fold_left hints_body filters h) = true
  | None => segType (fold_left hints_body filters h) = segType h
            ∧ hasSegType (fold_left hints_body filters h) = hasSegType h
  end.
Proof.
  revert h. induction filters as [|f filters IH]; intros h; [done|].
  rewrite lastTypeHint_cons. cbn [fold_left]. specialize (IH (hints_body h f)).
  destruct (lastTypeHint filters) as [t|]; [done|].
  destruct f as [g|i|t0]; done.
Qed.

Lemma hasIDHint_true filters :
  hasIDHint filters = true ↔ ∃ i, SegmentIDFilter i ∈ filters.
Proof.
  unfold hasIDHint. rewrite existsb_exists. split.
  - intros (f & Hin & Hf). destruct f as [g|i|t]; try done.
    exists i. by apply list_elem_of_In.
  - intros [i Hi]. exists (SegmentIDFilter i). split; [by apply list_elem_of_In|done].
Qed.

Lemma passes_unhinted_all st s filters :
  forallb (passes_unhinted st s) filters = true
  ↔ ∀ g, SegmentFilterFunc g ∈ filters → g st s = true.
Proof.
  rewrite forallb_forall. split.
  - intros H g Hg. apply (H (SegmentFilterFunc g)). by apply list_elem_of_In.
  - intros H f Hf. apply list_elem_of_In in Hf. destruct f; try done. by apply H.
Qed.

(** The rule [GetBy] follows for any filter list and any manager: it
    returns the segments stored under some id in some map such that the map
    is the one the last type filter names (either map without a type
    filter), the id is named by one of the id filters (any id without an id
    filter), and every predicate filter accepts the segment.  Earlier type
    filters have no effect and id filters widen the choice. *)
Theorem GetBy_rule (o : RangeOrder) (filters : list SegmentFilter) (w : World)
    (s : Segment) :
  s ∈ GetBy o filters w ↔
  ∃ typ id,
    segmentsOf typ w !! id = Some s
    ∧ match lastTypeHint filters with Some t => typ = t | None => True end
    ∧ (if hasIDHint filters then SegmentIDFilter id ∈ filters else True)
    ∧ ∀ g, SegmentFilterFunc g ∈ filters → g (store w) s = true.
Proof.
  rewrite elem_of_GetBy.
  destruct (extractHints_spec filters) as (Hm & Hids & Hhas & _ & _ & _).
  pose proof (hints_lastType filters noHints) as Hlast.
  fold (extractHints filters) in Hlast.
  set (h := extractHints filters) in *.
  assert (HhasID : hasSegIDs h = hasIDHint filters).
  { apply eq_true_iff_eq. by rewrite Hhas, hasIDHint_true. }
  split.
  - intros (typ & id & Htyp & Hid & Hs & Hmf).
    exists typ, id. split; [done|].
    destruct (candidates_sound o h typ Htyp) as [_ Hseg].
    split; [|split].
    + destruct (lastTypeHint filters) as [t|]; [|done].
      destruct Hlast as [<- Hty]. by apply Hseg.
    + unfold visitOrder in Hid. rewrite HhasID in Hid.
      destruct (hasIDHint filters); [|done].
      rewrite (rangeIDs_perm o) in Hid. by apply elem_of_elements, Hids in Hid.
    + apply passes_unhinted_all. by rewrite <- Hm.
  - intros (typ & id & Hs & Hty & Hid & Hf).
    exists typ, id. split; [|split; [|split; [done|]]].
    + apply candidates_complete; [by eapply segmentsOf_Some| |].
      * destruct (lastTypeHint filters) as [t|]; [by destruct Hlast as [-> _]; subst|].
        destruct Hlast as [_ ->]. done.
      * destruct (lastTypeHint filters) as [t|]; [destruct Hlast; congruence|].
        by destruct Hlast as [-> _].
    + unfold visitOrder. rewrite HhasID.
      destruct (hasIDHint filters).
      * rewrite (rangeIDs_perm o). by apply elem_of_elements, Hids.
      * apply list_elem_of_fmap. exists (id, s). split; [done|].
        rewrite (rangeSegments_perm o). by apply elem_of_map_to_list.
    + rewrite Hm. by apply passes_unhinted_all.
Qed.

(** ** RemoveBy *)

Lemma removeSegmentWithType_Some typ id w s :
  segmentsOf typ w !! id = Some s →
  removeSegmentWithType typ id w
  = (with_segmentsOf typ (delete id (segmentsOf typ w)) w, Some s).
Proof.
  intros H. pose proof (segmentsOf_Some typ w id s H) as [-> | ->];
    cbn in *; by rewrite H.
Qed.

Lemma omap_ext_in {X Y} (f g : X → option Y) (l : list X) :
  (∀ x, x ∈ l → f x = g x) → omap f l = omap g l.
Proof.
  induction l as [|x l IH]; intros H; [done|].
  cbn [omap list_omap]. rewrite (H x) by apply list_elem_of_here.
  rewrite IH; [done|]. intros y Hy. apply H. by apply list_elem_of_further.
Qed.

Lemma bind_ext_in {X Y} (f g : X → list Y) (l : list X) :
  (∀ x, x ∈ l → f x = g x) → l ≫= f = l ≫= g.
Proof.
  induction l as [|x l IH]; intros H; [done|].
  cbn [mbind list_bind]. rewrite (H x) by apply list_elem_of_here.
  f_equal. apply IH. intros y Hy. apply H. by apply list_elem_of_further.
Qed.

(** The loop of [RemoveBy] over the ids of one map: the heap is not
    touched, the other map is not touched, the entries of the visited ids
    that pass the merged filter are deleted, and their segments are
    collected in the order of the visit. *)
Lemma RemoveBy_rangeLoop others typ ids w acc :
  NoDup ids →
  store (rangeLoop RemoveBy_process others typ ids (w, acc)).1 = store w
  ∧ releaseQueue (rangeLoop RemoveBy_process others typ ids (w, acc)).1 = releaseQueue w
  ∧ (∀ typ', typ' ≠ typ →
       segmentsOf typ' (rangeLoop RemoveBy_process others typ ids (w, acc)).1
       = segmentsOf typ' w)
  ∧ (∀ id, segmentsOf typ (rangeLoop RemoveBy_process others typ ids (w, acc)).1 !! id =
       if bool_decide (id ∈ ids) && bool_decide (is_Some (visited others typ w id))
       then None else segmentsOf typ w !! id)
  ∧ (rangeLoop RemoveBy_process others typ ids (w, acc)).2.1.1
    = acc.1.1 ++ omap (visited others typ w) ids.
Proof.
  intros Hnd. revert w acc.
  induction Hnd as [|id ids Hid Hnd IH]; intros w acc.
  - cbn [rangeLoop fst snd omap list_omap]. rewrite app_nil_r.
    repeat split; done.
  - cbn [rangeLoop fst].
    change (omap (visited others typ w) (id :: ids))
      with (match visited others typ w id with
            | Some y => y :: omap (visited others typ w) ids
            | None => omap (visited others typ w) ids
            end).
    destruct (visited others typ w id) as [s|] eqn:Hv.
    + apply visited_Some in Hv as Hv'. destruct Hv' as [Hlook Hmf].
      rewrite Hlook, Hmf. destruct acc as [[rs rg] rsl].
      assert (Hproc : RemoveBy_process id typ s (w, (rs, rg, rsl))
                = (true, (with_segmentsOf typ (delete id (segmentsOf typ w)) w,
                          (rs ++ [s],
                           match typ with SegmentTypeGrowing => rg + 1 | _ => rg end,
                           match typ with SegmentTypeSealed => rsl + 1 | _ => rsl end)))).
      { unfold RemoveBy_process.
        by rewrite (removeSegmentWithType_Some typ id w s Hlook). }
      rewrite Hproc. clear Hproc.
      pose proof (segmentsOf_Some typ w id s Hlook) as Htyp.
      destruct (segmentsOf_with_segmentsOf typ (delete id (segmentsOf typ w)) w Htyp)
        as (E1 & _ & E3 & E4).
      set (w1 := with_segmentsOf typ (delete id (segmentsOf typ w)) w) in *.
      match goal with
      | |- context [rangeLoop _ _ _ _ (w1, ?a)] =>
          destruct (IH w1 a) as (Hst & Hq & Ho & Hl & Hrs)
      end.
      assert (Hvis : ∀ id0, id0 ≠ id →
                visited others typ w1 id0 = visited others typ w id0).
      { intros id0 Hne. unfold visited.
        rewrite E1, E3, lookup_delete_ne by done. done. }
      split; [by rewrite Hst|]. split; [by rewrite Hq|].
      split; [intros typ' Hne; rewrite Ho by done;
              by apply segmentsOf_with_segmentsOf_ne|].
      split.
      * intros id0. rewrite Hl, E1.
        destruct (decide (id0 = id)) as [->|Hne].
        -- rewrite (bool_decide_eq_false_2 (id ∈ ids)) by done.
           rewrite (bool_decide_eq_true_2 (id ∈ id :: ids)) by apply list_elem_of_here.
           rewrite (bool_decide_eq_true_2 (is_Some (visited others typ w id)))
             by (rewrite Hv; eauto).
           cbn. apply lookup_delete_eq.
        -- rewrite Hvis, lookup_delete_ne by done.
           rewrite (bool_decide_ext (id0 ∈ id :: ids) (id0 ∈ ids)); [done|].
           rewrite elem_of_cons. split; [|auto]. intros [?|?]; done.
      * rewrite Hrs. cbn [fst snd]. rewrite <- app_assoc. cbn [app]. do 2 f_equal.
        apply omap_ext_in. intros id0 Hin. apply Hvis. intros ->. done.
    + assert (Hgo : rangeLoop RemoveBy_process others typ (id :: ids) (w, acc)
                    = rangeLoop RemoveBy_process others typ ids (w, acc)).
      { cbn [rangeLoop fst]. unfold visited in Hv.
        destruct (segmentsOf typ w !! id) as [x|]; [|done].
        revert Hv. by destruct (mergedFilter others (store w) x). }
      cbn [rangeLoop fst] in Hgo. rewrite Hgo.
      destruct (IH w acc) as (Hst & Hq & Ho & Hl & Hrs).
      split; [done|]. split; [done|]. split; [done|]. split; [|done].
      intros id0. rewrite Hl.
      destruct (decide (id0 = id)) as [->|Hne].
      * rewrite (bool_decide_eq_false_2 (id ∈ ids)) by done.
        rewrite (bool_decide_eq_false_2 (is_Some (visited others typ w id)))
          by (rewrite Hv; by intros [? ?]).
        by rewrite !andb_false_r.
      * rewrite (bool_decide_ext (id0 ∈ id :: ids) (id0 ∈ ids)); [done|].
        rewrite elem_of_cons. split; [|auto]. intros [?|?]; done.
Qed.

Lemma visitOrder_agree o h typ w w1 :
  segmentsOf typ w1 = segmentsOf typ w → visitOrder o h typ w1 = visitOrder o h typ w.
Proof. intros H. unfold visitOrder. by rewrite H. Qed.

Lemma RemoveBy_candidates o h typs w acc :
  NoDup typs →
  store (fold_left (rangeCandidate RemoveBy_process o h) typs (w, acc)).1 = store w
  ∧ releaseQueue (fold_left (rangeCandidate RemoveBy_process o h) typs (w, acc)).1
    = releaseQueue w
  ∧ (∀ typ id,
       segmentsOf typ (fold_left (rangeCandidate RemoveBy_process o h) typs (w, acc)).1
         !! id =
       if bool_decide (typ ∈ typs)
          && (bool_decide (id ∈ visitOrder o h typ w)
              && bool_decide (is_Some (visited (otherFilters h) typ w id)))
       then None else segmentsOf typ w !! id)
  ∧ (fold_left (rangeCandidate RemoveBy_process o h) typs (w, acc)).2.1.1
    = acc.1.1 ++ (typs ≫= fun typ => omap (visited (otherFilters h) typ w)
                                       (visitOrder o h typ w)).
Proof.
  intros Hnd. revert w acc.
  induction Hnd as [|typ typs Htyp Hnd IH]; intros w acc.
  - cbn [fold_left fst snd mbind list_bind]. rewrite app_nil_r. repeat split; done.
  - cbn [fold_left mbind list_bind]. unfold rangeCandidate at 2 4 6 8. cbn [fst].
    destruct (RemoveBy_rangeLoop (otherFilters h) typ (visitOrder o h typ w) w acc
                (NoDup_visitOrder o h typ w)) as (Hst1 & Hq1 & Ho1 & Hl1 & Hrs1).
    destruct (rangeLoop RemoveBy_process (otherFilters h) typ (visitOrder o h typ w)
                (w, acc)) as [w1 acc1].
    cbn [fst snd] in *.
    destruct (IH w1 acc1) as (Hst & Hq & Hl & Hrs).
    assert (Hvo : ∀ typ', typ' ≠ typ →
              visitOrder o h typ' w1 = visitOrder o h typ' w)
      by (intros typ' Hne; apply visitOrder_agree; by apply Ho1).
    assert (Hvi : ∀ typ' id, typ' ≠ typ →
              visited (otherFilters h) typ' w1 id = visited (otherFilters h) typ' w id).
    { intros typ' id Hne. apply visited_agree; [by apply Ho1|].
      intros s. by rewrite Hst1. }
    split; [by rewrite Hst|]. split; [by rewrite Hq|]. split.
    + intros typ0 id0. rewrite Hl.
      destruct (decide (typ0 = typ)) as [->|Hne].
      * rewrite (bool_decide_eq_false_2 (typ ∈ typs)) by done.
        rewrite (bool_decide_eq_true_2 (typ ∈ typ :: typs)) by apply list_elem_of_here.
        cbn [andb]. apply Hl1.
      * rewrite Hvo, Hvi, Ho1 by done.
        rewrite (bool_decide_ext (typ0 ∈ typ :: typs) (typ0 ∈ typs)); [done|].
        rewrite elem_of_cons. split; [|auto]. intros [?|?]; done.
    + rewrite Hrs, Hrs1, <- app_assoc. do 2 f_equal.
      apply bind_ext_in. intros typ' Hin.
      assert (typ' ≠ typ) by (intros ->; done).
      rewrite Hvo by done. apply omap_ext_in. intros id _. by apply Hvi.
Qed.

(** [RemoveBy], component by component. *)
Lemma RemoveBy_unfold o filters w :
  releaseQueue (RemoveBy o filters w).1 = releaseQueue w
  ∧ store (RemoveBy o filters w).1
    = fold_left (fun st s => remove s st) (GetBy o filters w) (store w)
  ∧ (∀ typ id,
       segmentsOf typ (RemoveBy o filters w).1 !! id =
       if bool_decide (typ ∈ candidates o (extractHints filters))
          && (bool_decide (id ∈ visitOrder o (extractHints filters) typ w)
              && bool_decide (is_Some (visited (otherFilters (extractHints filters))
                                         typ w id)))
       then None else segmentsOf typ w !! id).
Proof.
  unfold RemoveBy, GetBy, rangeWithFilter. rewrite GetBy_candidates. cbn [snd app].
  destruct (RemoveBy_candidates o (extractHints filters)
              (candidates o (extractHints filters)) w ([], 0, 0)
              (NoDup_candidates o _)) as (Hst & Hq & Hl & Hrs).
  destruct (fold_left _ _ (w, ([], 0, 0))) as [w' [[rs rg] rsl]].
  cbn [fst snd app store releaseQueue with_store] in *.
  split; [done|]. split; [by rewrite Hst, Hrs|].
  intros typ id. rewrite segmentsOf_with_store. apply Hl.
Qed.

(** [RemoveBy] releases exactly the segments that [GetBy] returns for the
    same filters and iteration order; the state of every other segment
    object and the release queue are as before. *)
Theorem RemoveBy_releases_GetBy (o : RangeOrder) (filters : list SegmentFilter)
    (w : World) (p : Segment) :
  releaseQueue (RemoveBy o filters w).1 = releaseQueue w
  ∧ store (RemoveBy o filters w).1 p =
      if bool_decide (p ∈ GetBy o filters w) then set_released (store w p)
      else store w p.
Proof.
  destruct (RemoveBy_unfold o filters w) as (Hq & Hst & _).
  split; [done|]. rewrite Hst. apply fold_remove_lookup.
Qed.

(** In a manager whose entries are keyed by their segment's id and agree
    with their map's type, [RemoveBy] deletes exactly the entries of the
    segments that [GetBy] returns for the same filters: an entry is gone
    when [GetBy] returns its segment and is as before otherwise. *)
Theorem RemoveBy_removes_GetBy (o : RangeOrder) (filters : list SegmentFilter)
    (w : World) (typ : SegmentType) (id : Z) :
  keyed_by_ID w →
  type_agreement w →
  segmentsOf typ (RemoveBy o filters w).1 !! id =
  match segmentsOf typ w !! id with
  | Some s => if bool_decide (s ∈ GetBy o filters w) then None else Some s
  | None => None
  end.
Proof.
  intros Hkey Htype.
  destruct (RemoveBy_unfold o filters w) as (_ & _ & Hl). rewrite Hl.
  destruct (segmentsOf typ w !! id) as [s|] eqn:Hs; [|by destruct (_ && _)].
  assert (Hiff : s ∈ GetBy o filters w ↔
            typ ∈ candidates o (extractHints filters)
            ∧ id ∈ visitOrder o (extractHints filters) typ w
            ∧ is_Some (visited (otherFilters (extractHints filters)) typ w id)).
  { rewrite elem_of_GetBy. split.
    - intros (typ' & id' & Htyp' & Hid' & Hs' & Hmf).
      assert (typ' = typ) as -> by (by rewrite <- (Htype _ _ _ Hs'), (Htype _ _ _ Hs)).
      assert (id' = id) as -> by (by rewrite <- (Hkey _ _ _ Hs'), (Hkey _ _ _ Hs)).
      split; [done|]. split; [done|]. unfold visited. rewrite Hs, Hmf. eauto.
    - intros (Htyp & Hid & [x Hx]). apply visited_Some in Hx as [Hx Hmf].
      rewrite Hs in Hx. injection Hx as <-. by exists typ, id. }
  destruct (decide (s ∈ GetBy o filters w)) as [Hin|Hin].
  - rewrite (bool_decide_eq_true_2 (s ∈ GetBy o filters w)) by done.
    apply Hiff in Hin as (H1 & H2 & H3).
    by rewrite !bool_decide_eq_true_2.
  - rewrite (bool_decide_eq_false_2 (s ∈ GetBy o filters w)) by done.
    destruct (bool_decide _ && _) eqn:E; [|done].
    apply andb_true_iff in E as [E1 E2]. apply andb_true_iff in E2 as [E2 E3].
    apply bool_decide_eq_true in E1, E2, E3. destruct Hin. by apply Hiff.
Qed.

Lemma RemoveBy_removes_GetBy_witness :
  segmentsOf SegmentTypeSealed
    (RemoveBy canonicalOrder [WithLevel SegmentLevel_L1] worldWithTwoSealed).1 !! 1 =
  match segmentsOf SegmentTypeSealed worldWithTwoSealed !! 1 with
  | Some s =>
      if bool_decide (s ∈ GetBy canonicalOrder [WithLevel SegmentLevel_L1] worldWithTwoSealed)
      then None else Some s
  | None => None
  end.
Proof.
  apply (RemoveBy_removes_GetBy canonicalOrder _ worldWithTwoSealed);
    apply worldWithTwoSealed_invariants.
Defined.

Lemma RemoveBy_counts_sizes o filters w :
  (RemoveBy o filters w).2 =
    (Z.of_nat (size (growingSegments w))
       - Z.of_nat (size (growingSegments (RemoveBy o filters w).1)),
     Z.of_nat (size (sealedSegments w))
       - Z.of_nat (size (sealedSegments (RemoveBy o filters w).1))).
Proof.
  unfold RemoveBy.
  pose proof (rangeWithFilter_ind RemoveBy_process
    (fun wa => wa.2.1.2 = Z.of_nat (size (growingSegments w))
                          - Z.of_nat (size (growingSegments wa.1))
               ∧ wa.2.2 = Z.of_nat (size (sealedSegments w))
                          - Z.of_nat (size (sealedSegments wa.1)))) as Hind.
  cbv beta in Hind.
  assert (Hstep : ∀ id typ segment wa,
    wa.2.1.2 = Z.of_nat (size (growingSegments w)) - Z.of_nat (size (growingSegments wa.1))
    ∧ wa.2.2 = Z.of_nat (size (sealedSegments w)) - Z.of_nat (size (sealedSegments wa.1)) →
    (RemoveBy_process id typ segment wa).2.2.1.2
      = Z.of_nat (size (growingSegments w))
        - Z.of_nat (size (growingSegments (RemoveBy_process id typ segment wa).2.1))
    ∧ (RemoveBy_process id typ segment wa).2.2.2
      = Z.of_nat (size (sealedSegments w))
        - Z.of_nat (size (sealedSegments (RemoveBy_process id typ segment wa).2.1))).
  { intros id typ segment [w1 [[rs rg] rsl]] [Hg Hs]. cbn [fst snd] in *.
    unfold RemoveBy_process, removeSegmentWithType.
    destruct typ; cbn [fst snd]; try done.
    - destruct (growingSegments w1 !! id) as [x|] eqn:E; cbn [fst snd]; [|done].
      cbn [growingSegments sealedSegments with_growing].
      rewrite map_size_delete_Some by eauto.
      pose proof (map_size_ne_0_lookup_2 (growingSegments w1) id (mk_is_Some _ _ E)).
      split; [lia|done].
    - destruct (sealedSegments w1 !! id) as [x|] eqn:E; cbn [fst snd]; [|done].
      cbn [growingSegments sealedSegments with_sealed].
      rewrite map_size_delete_Some by eauto.
      pose proof (map_size_ne_0_lookup_2 (sealedSegments w1) id (mk_is_Some _ _ E)).
      split; [done|lia]. }
  specialize (Hind Hstep o filters (w, ([], 0, 0))).
  cbn [fst snd] in Hind. specialize (Hind (conj (eq_sym (Z.sub_diag _)) (eq_sym (Z.sub_diag _)))).
  destruct (rangeWithFilter _ _ _ _) as [w' [[rs rg] rsl]].
  cbn [fst snd growingSegments sealedSegments with_store] in *.
  destruct Hind as [-> ->]. done.
Qed.

(** The pair [RemoveBy] returns is the number of entries that left the
    growing map and the number that left the sealed map; no entry is ever
    added. *)
Theorem RemoveBy_counts (o : RangeOrder) (filters : list SegmentFilter) (w : World) :
  (RemoveBy o filters w).2 =
    (Z.of_nat (size (growingSegments w))
       - Z.of_nat (size (growingSegments (RemoveBy o filters w).1)),
     Z.of_nat (size (sealedSegments w))
       - Z.of_nat (size (sealedSegments (RemoveBy o filters w).1)))
  ∧ growingSegments (RemoveBy o filters w).1 ⊆ growingSegments w
  ∧ sealedSegments (RemoveBy o filters w).1 ⊆ sealedSegments w.
Proof. split; [apply RemoveBy_counts_sizes|apply RemoveBy_shrink]. Qed.

Lemma extractHints_WithID id :
  extractHints [WithID id] =
  {| segType := SegmentStateNone; hasSegType := false; hasSegIDs := true;
     segmentIDs := ∅ ∪ list_to_set [id]; otherFilters := [] |}.
Proof. reflexivity. Qed.

Lemma visitOrder_WithID o typ w id : visitOrder o (extractHints [WithID id]) typ w = [id].
Proof.
  rewrite extractHints_WithID. unfold visitOrder. cbn [hasSegIDs segmentIDs].
  apply rangeIDs_singleton. intros i.
  rewrite elem_of_union, elem_of_list_to_set, list_elem_of_singleton, elem_of_empty. tauto.
Qed.

Lemma candidates_WithID o id typ :
  typ ∈ candidates o (extractHints [WithID id])
  ↔ typ = SegmentTypeGrowing ∨ typ = SegmentTypeSealed.
Proof.
  rewrite extractHints_WithID. unfold candidates. cbn [segType hasSegType].
  destruct (sealedFirst o); rewrite !elem_of_cons, elem_of_nil; tauto.
Qed.

Lemma RemoveBy_WithID_lookup o id w typ id0 :
  segmentsOf typ (RemoveBy o [WithID id] w).1 !! id0 = delete id (segmentsOf typ w) !! id0.
Proof.
  destruct (RemoveBy_unfold o [WithID id] w) as (_ & _ & Hl). rewrite Hl.
  rewrite visitOrder_WithID.
  destruct (decide (id0 = id)) as [->|Hne].
  - rewrite lookup_delete_eq.
    destruct (segmentsOf typ w !! id) as [s|] eqn:Hs; [|by destruct (_ && _)].
    rewrite bool_decide_eq_true_2
      by (apply candidates_WithID; by eapply segmentsOf_Some).
    rewrite bool_decide_eq_true_2 by apply list_elem_of_here.
    rewrite bool_decide_eq_true_2; [done|].
    unfold visited. rewrite Hs. rewrite extractHints_WithID. cbn. eauto.
  - rewrite lookup_delete_ne by done.
    rewrite (bool_decide_eq_false_2 (id0 ∈ [id])).
    + by rewrite andb_false_r.
    + by intros ->%list_elem_of_singleton.
Qed.

Lemma elem_of_GetBy_WithID o id w p :
  p ∈ GetBy o [WithID id] w
  ↔ growingSegments w !! id = Some p ∨ sealedSegments w !! id = Some p.
Proof.
  rewrite elem_of_GetBy. split.
  - intros (typ & id0 & Htyp & Hid & Hs & _).
    rewrite visitOrder_WithID in Hid. apply list_elem_of_singleton in Hid as ->.
    apply candidates_WithID in Htyp as [-> | ->]; auto.
  - intros [H|H]; [exists SegmentTypeGrowing, id|exists SegmentTypeSealed, id];
      (split; [apply candidates_WithID; auto|]);
      (split; [rewrite visitOrder_WithID; apply list_elem_of_here|]);
      (split; [done|]); by rewrite extractHints_WithID.
Qed.

(** [RemoveBy] with the single filter [WithID id] does what [Remove] of
    the id with scope All does: the same two maps result, the same pair is
    returned, and the same segments end released. *)
Theorem RemoveBy_WithID_as_Remove_All (o : RangeOrder) (id : Z) (w : World) (p : Segment) :
  growingSegments (RemoveBy o [WithID id] w).1
    = growingSegments (Remove id DataScope_All w).1
  ∧ sealedSegments (RemoveBy o [WithID id] w).1
    = sealedSegments (Remove id DataScope_All w).1
  ∧ (RemoveBy o [WithID id] w).2 = (Remove id DataScope_All w).2
  ∧ releaseQueue (RemoveBy o [WithID id] w).1 = releaseQueue (Remove id DataScope_All w).1
  ∧ store (RemoveBy o [WithID id] w).1 p = store (Remove id DataScope_All w).1 p.
Proof.
  destruct (Remove_unfold id DataScope_All w) as (Eg & Es & Ec). cbv zeta in *.
  assert (Hg : growingSegments (RemoveBy o [WithID id] w).1 = delete id (growingSegments w)).
  { apply map_eq. intros id0. apply (RemoveBy_WithID_lookup o id w SegmentTypeGrowing). }
  assert (Hs : sealedSegments (RemoveBy o [WithID id] w).1 = delete id (sealedSegments w)).
  { apply map_eq. intros id0. apply (RemoveBy_WithID_lookup o id w SegmentTypeSealed). }
  split; [by rewrite Hg, Eg|]. split; [by rewrite Hs, Es|]. split; [|split].
  - rewrite RemoveBy_counts_sizes, Hg, Hs, Ec, !map_size_delete.
    destruct (growingSegments w !! id) as [x|] eqn:E1;
      destruct (sealedSegments w !! id) as [y|] eqn:E2; cbn [removed_count];
      repeat match goal with
      | H : ?m !! id = Some _ |- _ =>
          pose proof (map_size_ne_0_lookup_2 m id (mk_is_Some _ _ H)); clear H
      end; f_equal; cbn; lia.
  - destruct (RemoveBy_unfold o [WithID id] w) as (-> & _).
    unfold Remove, removeSegmentWithType.
    destruct (growingSegments w !! id); cbn [growingSegments sealedSegments with_growing];
      by destruct (sealedSegments w !! id).
  - destruct (RemoveBy_unfold o [WithID id] w) as (_ & -> & _).
    rewrite fold_remove_lookup, Remove_store_lookup. unfold takenOut.
    cbn [scopeCovers andb].
    apply (f_equal (fun b : bool => if b then _ else _)).
    apply eq_true_iff_eq.
    rewrite bool_decide_eq_true, orb_true_iff, !bool_decide_eq_true.
    apply elem_of_GetBy_WithID.
Qed.

(** ** Type agreement along a run *)

Lemma Put_fold_typed typ segments acc :
  typ = SegmentTypeGrowing ∨ typ = SegmentTypeSealed →
  Forall (fun s => Type_ s = typ) segments →
  type_agreement acc.1 → type_agreement (fold_left (Put_body typ) segments acc).1.
Proof.
  intros Htyp Hall. revert acc.
  induction Hall as [|s segments Hs Hall IH]; intros acc Hta; [done|].
  cbn [fold_left]. apply IH.
  destruct (Put_body_maps typ acc s Htyp) as [Eo Et].
  intros typ' id x Hx.
  destruct (otherType_cases typ typ' Htyp (segmentsOf_Some _ _ _ _ Hx)) as [-> | ->].
  - destruct Et as [Et|Et]; rewrite Et in Hx; [by eapply Hta|].
    apply lookup_insert_Some in Hx as [[_ <-]|[_ Hx]]; [done|by eapply Hta].
  - rewrite Eo in Hx. by eapply Hta.
Qed.

Lemma type_agreement_shrink w w' :
  growingSegments w' ⊆ growingSegments w →
  sealedSegments w' ⊆ sealedSegments w →
  type_agreement w → type_agreement w'.
Proof.
  intros Hg Hs Hta typ id x Hx. apply (Hta typ id).
  eapply lookup_weaken; [exact Hx|]. by apply segmentsOf_shrink.
Qed.

Lemma apply_op_typed op w w' :
  op_typed op → apply_op op w = Some w' → type_agreement w → type_agreement w'.
Proof.
  destruct op as [typ segments|id scope|o filters|o|o v filters|];
    cbn [apply_op op_typed]; intros Hty Hop Hta.
  - apply Put_unfold in Hop as [Htyp ->].
    pose proof (Put_fold_typed typ segments (w, []) Htyp Hty Hta) as Hta'.
    intros typ' id x. rewrite segmentsOf_with_releaseQueue. apply Hta'.
  - injection Hop as <-. destruct (Remove_shrink id scope w).
    by eapply type_agreement_shrink.
  - injection Hop as <-. destruct (RemoveBy_shrink o filters w).
    by eapply type_agreement_shrink.
  - injection Hop as <-. intros typ id x Hx.
    by destruct typ; cbn in Hx; rewrite lookup_empty in Hx.
  - injection Hop as <-.
    destruct (UpdateBy_maps o (IncreaseVersion v) filters w) as (Eg & Es & _).
    intros typ id x Hx. apply (Hta typ id).
    by destruct typ; cbn in *; rewrite <- ?Eg, <- ?Es.
  - injection Hop as <-. intros typ id x. unfold runReleases.
    rewrite segmentsOf_with_releaseQueue, segmentsOf_with_store. apply Hta.
Qed.

(** [Put] does not look at the type of what it stores.  When every [Put] of
    a sequence of operations is given segments of the type it puts them as,
    every manager the sequence builds from the empty one satisfies type
    agreement: each stored segment is of the type of its map. *)
Theorem typed_run_type_agreement (ops : list Op) (st : Store) (w : World) :
  Forall op_typed ops →
  run ops (NewSegmentManager st) = Some w →
  type_agreement w.
Proof.
  assert (Hgen : ∀ ops w0, Forall op_typed ops → type_agreement w0 →
                           run ops w0 = Some w → type_agreement w).
  { clear ops. induction ops as [|op ops IH]; intros w0 Hty Hta Hrun.
    - cbn in Hrun. by injection Hrun as <-.
    - cbn [run] in Hrun. apply Forall_cons in Hty as [Hop Hty].
      destruct (apply_op op w0) as [w1|] eqn:E; [|done].
      eapply IH; [exact Hty| |exact Hrun]. by eapply apply_op_typed. }
  intros Hty Hrun. eapply Hgen; [exact Hty| |exact Hrun].
  intros typ id x Hx. by destruct typ; cbn in Hx; rewrite lookup_empty in Hx.
Qed.

Lemma typed_run_type_agreement_witness : type_agreement worldWithReleased.
Proof.
  apply (typed_run_type_agreement putTwice (freshStore 1)).
  - repeat constructor.
  - vm_compute. reflexivity.
Defined.

(** ** Message timestamps *)

Lemma widen_spec bm t :
  BeginTimestamp bm <= EndTimestamp bm →
  BeginTimestamp (widen bm t) = Z.min (BeginTimestamp bm) t
  ∧ EndTimestamp (widen bm t) = Z.max (EndTimestamp bm) t.
Proof.
  intros Hle. unfold widen.
  repeat case_bool_decide; cbn [BeginTimestamp EndTimestamp] in *; lia.
Qed.

Lemma widen_fold timestamps bm :
  BeginTimestamp bm <= EndTimestamp bm →
  BeginTimestamp (fold_left widen timestamps bm) <= BeginTimestamp bm
  ∧ EndTimestamp bm <= EndTimestamp (fold_left widen timestamps bm)
  ∧ Forall (fun t => BeginTimestamp (fold_left widen timestamps bm) <= t
                     <= EndTimestamp (fold_left widen timestamps bm)) timestamps
  ∧ (BeginTimestamp (fold_left widen timestamps bm) = BeginTimestamp bm
     ∨ BeginTimestamp (fold_left widen timestamps bm) ∈ timestamps)
  ∧ (EndTimestamp (fold_left widen timestamps bm) = EndTimestamp bm
     ∨ EndTimestamp (fold_left widen timestamps bm) ∈ timestamps).
Proof.
  revert bm. induction timestamps as [|t timestamps IH]; intros bm Hle.
  - cbn [fold_left]. repeat split; try lia; auto.
  - cbn [fold_left]. destruct (widen_spec bm t Hle) as [Hb He].
    destruct (IH (widen bm t)) as (H1 & H2 & H3 & H4 & H5); [lia|].
    rewrite Hb in H1, H4. rewrite He in H2, H5.
    split; [lia|]. split; [lia|]. split; [|split].
    + apply Forall_cons. split; [lia|done].
    + destruct H4 as [H4|H4]; [|right; by apply list_elem_of_further].
      rewrite H4. destruct (Z.min_spec (BeginTimestamp bm) t) as [[_ ->]|[_ ->]];
        [by left|right; apply list_elem_of_here].
    + destruct H5 as [H5|H5]; [|right; by apply list_elem_of_further].
      rewrite H5. destruct (Z.max_spec (EndTimestamp bm) t) as [[_ ->]|[_ ->]];
        [right; apply list_elem_of_here|by left].
Qed.

(** [InsertMsg.Unmarshal] hands a decoding error on unchanged.  Otherwise
    it returns the decoded request with bounds such that every timestamp of
    the request lies between [BeginTimestamp] and [EndTimestamp]; with at
    least one timestamp both bounds are timestamps of the request (the
    least and the greatest), and without any both bounds are zero. *)
Theorem InsertMsg_Unmarshal_bounds {Request Err : Type}
    (proto_Unmarshal : list Byte.byte → Err + Request)
    (Timestamps : Request → list Z) (input : list Byte.byte) :
  match InsertMsg_Unmarshal proto_Unmarshal Timestamps input with
  | inl err => proto_Unmarshal input = inl err
  | inr (bm, request) =>
      proto_Unmarshal input = inr request
      ∧ Forall (fun t => BeginTimestamp bm <= t <= EndTimestamp bm) (Timestamps request)
      ∧ match Timestamps request with
        | [] => BeginTimestamp bm = 0 ∧ EndTimestamp bm = 0
        | _ :: _ => BeginTimestamp bm ∈ Timestamps request
                    ∧ EndTimestamp bm ∈ Timestamps request
        end
  end.
Proof.
  unfold InsertMsg_Unmarshal.
  destruct (proto_Unmarshal input) as [err|request]; [done|].
  split; [done|].
  destruct (Timestamps request) as [|t0 timestamps] eqn:E.
  - cbn. split; [constructor|done].
  - cbn [firstTimestamp].
    destruct (widen_fold (t0 :: timestamps)
                {| BeginTimestamp := t0; EndTimestamp := t0 |}) as (_ & _ & H3 & H4 & H5);
      [cbn; lia|].
    cbn [BeginTimestamp EndTimestamp] in H4, H5.
    split; [done|]. split.
    + destruct H4 as [->|?]; [apply list_elem_of_here|done].
    + destruct H5 as [->|?]; [apply list_elem_of_here|done].
Qed.
